(** * Twitch chat ingest and log parsing (notebook
      "How to Stream Text Data from Twitch with Sockets in Python")

    A shallow embedding of the two pieces of code of the notebook that
    carry behaviour: the [while True] receive loop and the function
    [get_chat_dataframe], together with the Python built-ins they call
    ([bytes.decode], [str.startswith], [str.split], [str.join],
    [str.strip], [re.search], [datetime.strptime], [logging.info]). *)

From Stdlib Require Import String Ascii.
From Stdlib.Strings Require Import Byte.
From Stdlib Require Import List NArith Arith Lia Bool.
Import ListNotations.

(* ================================================================== *)
(** * Python values: text, bytes, exceptions *)
(* ================================================================== *)

Module Py.

(** A Python [str] is a sequence of Unicode code points. *)
Definition char := N.
Definition str := list char.

(** A Python [bytes] object. *)
Definition bytes := list byte.

(** The exceptions that the modelled code can meet. All of them derive
    from [Exception], so [except Exception] catches every one. *)
Inductive exn :=
| ValueError
| AttributeError
| UnicodeDecodeError
| IndexError
| FileNotFoundError
| OSError.

Inductive result (A : Type) :=
| Ok (a : A)
| Raise (e : exn).
Arguments Ok {A} a.
Arguments Raise {A} e.

Definition bind {A B} (x : result A) (f : A -> result B) : result B :=
  match x with
  | Ok a => f a
  | Raise e => Raise e
  end.

(** ASCII literals of the source, as text. *)
Definition lit (s : string) : str :=
  map N_of_ascii (list_ascii_of_string s).

Definition newline : char := 10%N.
Definition carriage_return : char := 13%N.
(** U+2014, the separator of the log format and of [split('—')]. *)
Definition em_dash : char := 0x2014%N.

#[local] Open Scope N_scope.

(** ** [bytes.decode('utf-8')] with the default [errors='strict'] *)

Definition between (lo hi x : N) : bool := (lo <=? x) && (x <=? hi).

Definition is_cont (b : N) : bool := between 0x80 0xBF b.

(** Bounds on the second byte of a 3- or 4-byte sequence: they exclude
    over-long forms, surrogates and code points above U+10FFFF. *)
Definition second_lo (b0 : N) : N :=
  if b0 =? 0xE0 then 0xA0 else if b0 =? 0xF0 then 0x90 else 0x80.
Definition second_hi (b0 : N) : N :=
  if b0 =? 0xED then 0x9F else if b0 =? 0xF4 then 0x8F else 0xBF.

Fixpoint utf8_decode_N (bs : list N) : option str :=
  match bs with
  | [] => Some []
  | b0 :: t0 =>
    if b0 <? 0x80 then option_map (cons b0) (utf8_decode_N t0)
    else if between 0xC2 0xDF b0 then
      match t0 with
      | b1 :: t1 =>
        if is_cont b1
        then option_map (cons ((b0 - 0xC0) * 64 + (b1 - 0x80)))
                        (utf8_decode_N t1)
        else None
      | _ => None
      end
    else if between 0xE0 0xEF b0 then
      match t0 with
      | b1 :: b2 :: t2 =>
        if between (second_lo b0) (second_hi b0) b1 && is_cont b2
        then option_map
               (cons ((b0 - 0xE0) * 4096 + (b1 - 0x80) * 64 + (b2 - 0x80)))
               (utf8_decode_N t2)
        else None
      | _ => None
      end
    else if between 0xF0 0xF4 b0 then
      match t0 with
      | b1 :: b2 :: b3 :: t3 =>
        if between (second_lo b0) (second_hi b0) b1
           && is_cont b2 && is_cont b3
        then option_map
               (cons ((b0 - 0xF0) * 262144 + (b1 - 0x80) * 4096
                      + (b2 - 0x80) * 64 + (b3 - 0x80)))
               (utf8_decode_N t3)
        else None
      | _ => None
      end
    else None
  end.

Definition decode (b : bytes) : result str :=
  match utf8_decode_N (map Byte.to_N b) with
  | Some s => Ok s
  | None => Raise UnicodeDecodeError
  end.

(** ** [str.encode('utf-8')]; lone surrogates cannot be encoded. *)

Definition byte_of_N (n : N) : byte :=
  match Byte.of_N n with Some b => b | None => x00 end.

Definition utf8_encode_char (c : char) : option (list N) :=
  if c <? 0x80 then Some [c]
  else if c <? 0x800 then Some [0xC0 + c / 64; 0x80 + c mod 64]
  else if between 0xD800 0xDFFF c then None
  else if c <? 0x10000 then
    Some [0xE0 + c / 4096; 0x80 + (c / 64) mod 64; 0x80 + c mod 64]
  else if c <? 0x110000 then
    Some [0xF0 + c / 262144; 0x80 + (c / 4096) mod 64;
          0x80 + (c / 64) mod 64; 0x80 + c mod 64]
  else None.

Fixpoint utf8_encode_N (s : str) : option (list N) :=
  match s with
  | [] => Some []
  | c :: s' =>
    match utf8_encode_char c, utf8_encode_N s' with
    | Some b, Some bs => Some (b ++ bs)
    | _, _ => None
    end
  end.

(** [encode] of a text without surrogates never raises; the receive loop
    only encodes the constant ["PONG\n"]. *)
Definition encode (s : str) : bytes :=
  match utf8_encode_N s with
  | Some bs => map byte_of_N bs
  | None => []
  end.

(** ** [str.startswith] *)

Fixpoint startswith (s prefix : str) {struct prefix} : bool :=
  match prefix, s with
  | [], _ => true
  | p :: prefix', c :: s' => (c =? p) && startswith s' prefix'
  | _ :: _, [] => false
  end.

(** ** [str.split(sep)] for a non-empty [sep]

    Non-overlapping occurrences of [sep] are cut out from left to right.
    [skip] counts the characters of an occurrence still to be passed
    over. Both call sites pass a non-empty literal ([sep = ''] raises
    [ValueError] in Python and is not modelled). *)

Fixpoint split_from (sep : str) (skip : nat) (s : str) : list str :=
  match s with
  | [] => [[]]
  | c :: s' =>
    match skip with
    | S k => split_from sep k s'
    | O =>
      if startswith s sep
      then [] :: split_from sep (length sep - 1) s'
      else match split_from sep 0 s' with
           | piece :: pieces => (c :: piece) :: pieces
           | [] => [[c]]
           end
    end
  end.

Definition split (s sep : str) : list str := split_from sep 0 s.

(** ** [sep.join(pieces)] *)

Fixpoint join (sep : str) (pieces : list str) : str :=
  match pieces with
  | [] => []
  | [p] => p
  | p :: rest => p ++ sep ++ join sep rest
  end.

(** ** [str.strip()]

    [isspace] is CPython's [_PyUnicode_IsWhitespace]: bidirectional
    classes WS, B, S and category Zs. *)

Definition isspace (c : char) : bool :=
  between 0x09 0x0D c || between 0x1C 0x20 c
  || (c =? 0x85) || (c =? 0xA0) || (c =? 0x1680)
  || between 0x2000 0x200A c || (c =? 0x2028) || (c =? 0x2029)
  || (c =? 0x202F) || (c =? 0x205F) || (c =? 0x3000).

Fixpoint lstrip (s : str) : str :=
  match s with
  | c :: s' => if isspace c then lstrip s' else s
  | [] => []
  end.

Definition rstrip (s : str) : str := rev (lstrip (rev s)).

Definition strip (s : str) : str := rstrip (lstrip s).

(** ** Decimal digits: [\d] of [re] on [str] patterns and [int()]

    Both use the Unicode property "decimal digit" (category Nd). The
    table is the one of Unicode 9.0, shipped with CPython 3.6, the
    version named in the notebook's metadata. Every entry is the zero of
    a run of ten digits. *)

Definition decimal_zeros : list N :=
  [ 0x30; 0x660; 0x6F0; 0x7C0; 0x966; 0x9E6; 0xA66; 0xAE6; 0xB66; 0xBE6;
    0xC66; 0xCE6; 0xD66; 0xDE6; 0xE50; 0xED0; 0xF20; 0x1040; 0x1090;
    0x17E0; 0x1810; 0x1946; 0x19D0; 0x1A80; 0x1A90; 0x1B50; 0x1BB0;
    0x1C40; 0x1C50; 0xA620; 0xA8D0; 0xA900; 0xA9D0; 0xA9F0; 0xAA50;
    0xABF0; 0xFF10; 0x104A0; 0x11066; 0x110F0; 0x11136; 0x111D0;
    0x112F0; 0x11450; 0x114D0; 0x11650; 0x116C0; 0x11730; 0x118E0;
    0x11C50; 0x16A60; 0x16B50; 0x1D7CE; 0x1D7D8; 0x1D7E2; 0x1D7EC;
    0x1D7F6; 0x1E950 ].

Definition decimal_value (c : char) : option N :=
  match find (fun z => between z (z + 9) c) decimal_zeros with
  | Some z => Some (c - z)
  | None => None
  end.

Definition isdecimal (c : char) : bool :=
  match decimal_value c with Some _ => true | None => false end.

(** [int(s)] in base ten: surrounding whitespace is ignored, then one or
    more decimal digits are required (signs and underscores do not occur
    in what [strptime] hands over, and are rejected here). *)
Fixpoint int_digits (acc : N) (s : str) : result N :=
  match s with
  | [] => Ok acc
  | c :: s' =>
    match decimal_value c with
    | Some v => int_digits (10 * acc + v) s'
    | None => Raise ValueError
    end
  end.

Definition int (s : str) : result N :=
  match strip s with
  | [] => Raise ValueError
  | t => int_digits 0 t
  end.

End Py.

(* ================================================================== *)
(** * The [re] module: a backtracking matcher *)
(* ================================================================== *)

Module Re.
Import Py.
#[local] Open Scope N_scope.

(** Character classes of the two patterns at hand. *)
Inductive cclass :=
| Dot                     (* [.]  any character except a newline *)
| Digit                   (* [\d] a Unicode decimal digit *)
| Space                   (* [\s] Unicode whitespace *)
| Range (lo hi : char).   (* [[lo-hi]] *)

Definition in_class (k : cclass) (c : char) : bool :=
  match k with
  | Dot => negb (c =? newline)
  | Digit => isdecimal c
  | Space => isspace c
  | Range lo hi => between lo hi c
  end.

Inductive regex :=
| Eps
| Chr (c : char)
| Cls (k : cclass)
| Star (k : cclass)       (* greedy [k*] *)
| Seq (r1 r2 : regex)
| Alt (r1 r2 : regex)     (* [r1|r2], [r1] tried first *)
| Group (r : regex).      (* capturing [(r)] *)

Definition seq (rs : list regex) : regex := fold_right Seq Eps rs.

Fixpoint alt (r : regex) (rs : list regex) : regex :=
  match rs with
  | [] => r
  | r' :: rs' => Alt r (alt r' rs')
  end.

(** A run of literal characters. *)
Definition text (s : str) : regex := seq (map Chr s).

(** The text consumed between the input [s] and its suffix [s1]. *)
Definition consumed (s s1 : str) : str :=
  firstn (length s - length s1) s.

Section Matcher.
(** [A] is what the continuation of a whole match returns. *)
Variable A : Type.

(** Greedy repetition of a one-character test: take as many characters
    as possible, then give them back one at a time until the
    continuation [k] succeeds. *)
Fixpoint star (p : char -> bool) (s : str) (k : str -> option A)
  : option A :=
  match s with
  | c :: s' =>
    if p c
    then match star p s' k with
         | Some a => Some a
         | None => k s
         end
    else k s
  | [] => k s
  end.

(** [run r s caps k]: match [r] at the head of [s], with the captures
    made so far, and hand the rest of the input to [k]; [None] makes
    the matcher backtrack. Groups are recorded when they close; the
    patterns here nest no groups, so this is the order of [groups()]. *)
Fixpoint run (r : regex) (s : str) (caps : list str)
         (k : str -> list str -> option A) : option A :=
  match r with
  | Eps => k s caps
  | Chr c =>
    match s with
    | x :: s' => if x =? c then k s' caps else None
    | [] => None
    end
  | Cls cl =>
    match s with
    | x :: s' => if in_class cl x then k s' caps else None
    | [] => None
    end
  | Star cl => star (in_class cl) s (fun s1 => k s1 caps)
  | Seq r1 r2 => run r1 s caps (fun s1 caps1 => run r2 s1 caps1 k)
  | Alt r1 r2 =>
    match run r1 s caps k with
    | Some a => Some a
    | None => run r2 s caps k
    end
  | Group r1 =>
    run r1 s caps (fun s1 caps1 => k s1 (caps1 ++ [consumed s s1]))
  end.
End Matcher.
Arguments star {A} p s k.
Arguments run {A} r s caps k.

(** A match object: the captured groups and the input after the match. *)
Record match_object := { groups : list str; rest : str }.

(** [re.match(r, s)]: a match anchored at the start of [s]. *)
Definition match_ (r : regex) (s : str) : option match_object :=
  run r s [] (fun s1 caps => Some {| groups := caps; rest := s1 |}).

(** [re.search(r, s)]: the match at the leftmost position that has one. *)
Fixpoint search (r : regex) (s : str) : option match_object :=
  match match_ r s with
  | Some m => Some m
  | None =>
    match s with
    | [] => None
    | _ :: s' => search r s'
    end
  end.

End Re.

(* ================================================================== *)
(** * [datetime.strptime] and [time.strftime] *)
(* ================================================================== *)

Module Datetime.
Import Py Re.
#[local] Open Scope N_scope.

Record datetime := {
  year : N; month : N; day : N;
  hour : N; minute : N; second : N
}.

Definition d_ : regex := Cls Digit.
Definition rng (lo hi : string) : regex :=
  match lit lo, lit hi with
  | [a], [b] => Cls (Range a b)
  | _, _ => Eps
  end.

(** The directive table of [_strptime.TimeRE], for the directives that
    the format of the log uses. *)
Definition directive (c : char) : option regex :=
  if c =? 89 (* Y *) then Some (seq [d_; d_; d_; d_])
  else if c =? 109 (* m *) then
    Some (alt (seq [text (lit "1"); rng "0" "2"])
              [seq [text (lit "0"); rng "1" "9"]; rng "1" "9"])
  else if c =? 100 (* d *) then
    Some (alt (seq [text (lit "3"); rng "0" "1"])
              [seq [rng "1" "2"; d_]; seq [text (lit "0"); rng "1" "9"];
               rng "1" "9"; seq [text (lit " "); rng "1" "9"]])
  else if c =? 72 (* H *) then
    Some (alt (seq [text (lit "2"); rng "0" "3"])
              [seq [rng "0" "1"; d_]; d_])
  else if c =? 77 (* M *) then
    Some (alt (seq [rng "0" "5"; d_]) [d_])
  else if c =? 83 (* S *) then
    Some (alt (seq [text (lit "6"); rng "0" "1"])
              [seq [rng "0" "5"; d_]; d_])
  else None.

(** [TimeRE.pattern]: a directive becomes its named group, a run of
    whitespace becomes [\s+], any other character stands for itself.
    The result lists the directive letters in the order of their groups.
    An unknown directive is a [ValueError]. [in_space] tells that the
    character before was whitespace, already turned into [\s+]. The
    directives and literal characters of the log's format have no case,
    so the flag [IGNORECASE] of the compiled pattern changes nothing. *)
Fixpoint pattern_from (in_space : bool) (format : str)
  : result (list char * regex) :=
  match format with
  | [] => Ok ([], Eps)
  | c :: format' =>
    if c =? 37 (* % *) then
      match format' with
      | l :: format'' =>
        match directive l with
        | Some r =>
          bind (pattern_from false format'')
               (fun p => Ok (l :: fst p, Seq (Group r) (snd p)))
        | None => Raise ValueError
        end
      | [] => Raise ValueError
      end
    else if isspace c then
      if in_space then pattern_from true format'
      else
        bind (pattern_from true format')
             (fun p => Ok (fst p, Seq (Cls Space) (Seq (Star Space) (snd p))))
    else
      bind (pattern_from false format')
           (fun p => Ok (fst p, Seq (Chr c) (snd p)))
  end.

Definition pattern (format : str) : result (list char * regex) :=
  pattern_from false format.

(** The fields before any directive is read: 1900-01-01 00:00:00. *)
Definition epoch_1900 : datetime :=
  {| year := 1900; month := 1; day := 1;
     hour := 0; minute := 0; second := 0 |}.

Definition set_field (l : char) (v : N) (t : datetime) : datetime :=
  if l =? 89 then
    {| year := v; month := month t; day := day t;
       hour := hour t; minute := minute t; second := second t |}
  else if l =? 109 then
    {| year := year t; month := v; day := day t;
       hour := hour t; minute := minute t; second := second t |}
  else if l =? 100 then
    {| year := year t; month := month t; day := v;
       hour := hour t; minute := minute t; second := second t |}
  else if l =? 72 then
    {| year := year t; month := month t; day := day t;
       hour := v; minute := minute t; second := second t |}
  else if l =? 77 then
    {| year := year t; month := month t; day := day t;
       hour := hour t; minute := v; second := second t |}
  else
    {| year := year t; month := month t; day := day t;
       hour := hour t; minute := minute t; second := v |}.

(** The loop over [found_dict]: every group is converted with [int]. *)
Fixpoint fill (letters : list char) (found : list str) (t : datetime)
  : result datetime :=
  match letters, found with
  | l :: letters', g :: found' =>
    bind (int g) (fun v => fill letters' found' (set_field l v t))
  | [], [] => Ok t
  | _, _ => Raise ValueError
  end.

Definition is_leap (y : N) : bool :=
  (y mod 4 =? 0) && (negb (y mod 100 =? 0) || (y mod 400 =? 0)).

Definition days_in_month (y m : N) : N :=
  if m =? 2 then (if is_leap y then 29 else 28)
  else if (m =? 4) || (m =? 6) || (m =? 9) || (m =? 11) then 30
  else 31.

(** The range checks of the [datetime] constructor. *)
Definition valid (t : datetime) : bool :=
  between 1 9999 (year t) && between 1 12 (month t)
  && between 1 (days_in_month (year t) (month t)) (day t)
  && (hour t <=? 23) && (minute t <=? 59) && (second t <=? 59).

(** [datetime.strptime(data_string, format)]: the pattern must match at
    the start and leave nothing unconverted; the fields must then make
    a date that exists. Every failure is a [ValueError]. *)
Definition strptime (data_string format : str) : result datetime :=
  bind (pattern format) (fun p =>
    match match_ (snd p) data_string with
    | None => Raise ValueError
    | Some found =>
      match rest found with
      | _ :: _ => Raise ValueError
      | [] =>
        bind (fill (fst p) (groups found) epoch_1900) (fun t =>
          if valid t then Ok t else Raise ValueError)
      end
    end).

(** [time.strftime] for the same directives; the clock's years have four
    digits. *)
Definition digit (n : N) : char := 48 + n mod 10.
Definition two_digits (n : N) : str := [digit (n / 10); digit n].
Definition four_digits (n : N) : str :=
  [digit (n / 1000); digit (n / 100); digit (n / 10); digit n].

Fixpoint strftime (format : str) (t : datetime) : str :=
  match format with
  | [] => []
  | c :: format' =>
    if c =? 37 then
      match format' with
      | l :: format'' =>
        (if l =? 89 then four_digits (year t)
         else if l =? 109 then two_digits (month t)
         else if l =? 100 then two_digits (day t)
         else if l =? 72 then two_digits (hour t)
         else if l =? 77 then two_digits (minute t)
         else if l =? 83 then two_digits (second t)
         else [c; l]) ++ strftime format'' t
      | [] => [c]
      end
    else c :: strftime format' t
  end.

End Datetime.

(* ================================================================== *)
(** * The notebook's code *)
(* ================================================================== *)

Module Notebook.
Import Py Re Datetime.
#[local] Open Scope N_scope.

(** ** The logger

    [logging.basicConfig(format='%(asctime)s — %(message)s',
    datefmt='%Y-%m-%d_%H:%M:%S', handlers=[FileHandler('chat.log')])]:
    every [logging.info(msg)] appends one formatted record and the
    handler's terminator, a newline, to the log. *)

Definition datefmt : str := lit "%Y-%m-%d_%H:%M:%S".

Definition format_record (asctime message : str) : str :=
  asctime ++ lit " " ++ [em_dash] ++ lit " " ++ message ++ [newline].

(** ** The receive loop

<<
while True:
    resp = sock.recv(2048).decode('utf-8')
    if resp.startswith('PING'):
        sock.send("PONG\n".encode('utf-8'))
    elif len(resp) > 0:
        logging.info(demojize(resp))
>>
    What the outside world contributes to one iteration: what
    [sock.recv] returns or raises, the clock that the logger reads, and
    what a [sock.send] made in this iteration would raise, if anything. *)

Record tick := {
  recv : result bytes;
  now : datetime;
  send_raises : option exn
}.

(** What the loop does to the world: the arguments of its [sock.send]
    calls and the texts appended to [chat.log], oldest first. *)
Record world := {
  sent : list bytes;
  chat_log : list str
}.

Definition sock_send (data : bytes) (w : world) : world :=
  {| sent := sent w ++ [data]; chat_log := chat_log w |}.

Definition logging_info (t : tick) (msg : str) (w : world) : world :=
  {| sent := sent w;
     chat_log := chat_log w ++ [format_record (strftime datefmt (now t)) msg] |}.

(** How an iteration of a loop ends. *)
Inductive signal :=
| Next
| Break
| Throw (e : exn).

(** Where a loop stands after a finite number of reads: waiting in the
    next [recv], left through [break], or left by an exception. *)
Inductive status :=
| Blocked
| Exited
| Failed (e : exn).

Section ReceiveLoop.
(** [emoji.demojize], a function of a package outside the repository. *)
Variable demojize : str -> str.

Definition loop_body (t : tick) (w : world) : world * signal :=
  match bind (recv t) decode with
  | Raise e => (w, Throw e)
  | Ok resp =>
    if startswith resp (lit "PING") then
      (sock_send (encode (lit "PONG" ++ [newline])) w,
       match send_raises t with
       | Some e => Throw e
       | None => Next
       end)
    else if (0 <? length resp)%nat then
      (logging_info t (demojize resp) w, Next)
    else (w, Next)
  end.

(** [while True: body], run against the reads that arrive. *)
Fixpoint while_true (body : tick -> world -> world * signal)
         (ticks : list tick) (w : world) : world * status :=
  match ticks with
  | [] => (w, Blocked)
  | t :: ticks' =>
    match body t w with
    | (w', Next) => while_true body ticks' w'
    | (w', Break) => (w', Exited)
    | (w', Throw e) => (w', Failed e)
    end
  end.

Definition receive_loop : list tick -> world -> world * status :=
  while_true loop_body.
End ReceiveLoop.

(** Modelled from the spec: [demojize] belongs to the [emoji] package,
    which is not in the repository. The spec calls it a pure step that
    "rewrites pictographic characters into bracketed textual names"; the
    notebook gives one entry of its table, U+1F44D to [:thumbs_up:].
    [names] stands for the table. *)
Definition demojize_with (names : char -> option str) (s : str) : str :=
  flat_map (fun c => match names c with
                     | Some n => lit ":" ++ n ++ lit ":"
                     | None => [c]
                     end) s.

Definition thumbs_up_only (c : char) : option str :=
  if c =? 0x1F44D then Some (lit "thumbs_up") else None.

(** ** Parsing the log *)

(** One row of the data frame: the dict [d]. *)
Record ParsedMessage := {
  dt : datetime;
  channel : str;
  username : str;
  message : str
}.

(** The pattern of [re.search]: a colon, group 1, an exclamation mark,
    any run, an at sign, any run, the text [.tmi.twitch.tv PRIVMSG #],
    group 2, a space and a colon, group 3. Each group and each run is a
    greedy repetition of the dot. *)
Definition privmsg_re : regex :=
  seq [ text (lit ":"); Group (Star Dot); text (lit "!"); Star Dot;
        text (lit "@"); Star Dot; text (lit ".tmi.twitch.tv PRIVMSG #");
        Group (Star Dot); text (lit " :"); Group (Star Dot) ].

(** The files that [open] can see. *)
Definition filesystem := string -> option bytes.

(** The text mode of [open(file, 'r')]: ["\r\n"] and ["\r"] are read as
    ["\n"]. *)
Fixpoint universal_newlines (s : str) : str :=
  match s with
  | [] => []
  | c :: s' =>
    if c =? carriage_return then
      newline ::
        match s' with
        | c' :: s'' =>
          if c' =? newline then universal_newlines s''
          else universal_newlines s'
        | [] => []
        end
    else c :: universal_newlines s'
  end.

(** [open(file, 'r', encoding='utf-8')] followed by [f.read()]. *)
Definition read_text (file : string) (fs : filesystem) : result str :=
  match fs file with
  | None => Raise FileNotFoundError
  | Some content => bind (decode content) (fun s => Ok (universal_newlines s))
  end.

(** [xs[0]] *)
Definition first (xs : list str) : result str :=
  match xs with
  | x :: _ => Ok x
  | [] => Raise IndexError
  end.

(** The statements inside [try:], up to the dict [d]. *)
Definition record_body (line : str) : result ParsedMessage :=
  bind (first (split line [em_dash])) (fun time_logged =>
  let time_logged := strip time_logged in
  bind (strptime time_logged datefmt) (fun time_logged =>
  let username_message := tl (split line [em_dash]) in
  let username_message := strip (join [em_dash] username_message) in
  match search privmsg_re username_message with
  | None => Raise AttributeError
  | Some found =>
    match groups found with
    | [username; channel; message] =>
      Ok {| dt := time_logged; channel := channel;
            username := username; message := message |}
    | _ => Raise ValueError
    end
  end)).

(** One turn of [for line in lines]: [data.append(d)], or
    [except Exception: pass]. *)
Definition try_record (data : list ParsedMessage) (line : str)
  : list ParsedMessage :=
  match record_body line with
  | Ok d => data ++ [d]
  | Raise _ => data
  end.

(** [get_chat_dataframe(file)]; the frame built by [from_records] has the
    rows of [data], in order. The file system comes back as it went in:
    the function only reads. *)
Definition get_chat_dataframe (file : string) (fs : filesystem)
  : result (list ParsedMessage) * filesystem :=
  (bind (read_text file fs) (fun content =>
     let lines := split content [newline; newline; newline] in
     Ok (fold_left try_record lines [])),
   fs).

End Notebook.

(* ================================================================== *)
(** * Vocabulary of the statements *)
(* ================================================================== *)

Import Py Re Datetime Notebook.

(** ** What a pattern matches

    [sem r w caps]: the pattern [r] matches exactly the text [w] and
    records the groups [caps] while doing so. *)

Fixpoint sem (r : regex) (w : str) (caps : list str) : Prop :=
  match r with
  | Eps => w = [] /\ caps = []
  | Chr c => w = [c] /\ caps = []
  | Cls cl => (exists c, w = [c] /\ in_class cl c = true) /\ caps = []
  | Star cl => forallb (in_class cl) w = true /\ caps = []
  | Seq r1 r2 =>
    exists w1 w2 c1 c2,
      w = w1 ++ w2 /\ caps = c1 ++ c2 /\ sem r1 w1 c1 /\ sem r2 w2 c2
  | Alt r1 r2 => sem r1 w caps \/ sem r2 w caps
  | Group r1 => exists c1, sem r1 w c1 /\ caps = c1 ++ [w]
  end.

(** A text that the dot can cross. *)
Definition no_newline (s : str) : Prop := forallb (in_class Dot) s = true.

(** [l in s], Python's substring test. *)
Fixpoint contains (l s : str) : bool :=
  startswith s l
  || match s with
     | [] => false
     | _ :: s' => contains l s'
     end.

Definition server_text : str := lit ".tmi.twitch.tv PRIVMSG #".

(** A chat line as the server sends it: user [u] (with [x] and [y] in
    the host part), channel [c], message [body]. *)
Definition privmsg (u x y c body : str) : str :=
  lit ":" ++ u ++ lit "!" ++ x ++ lit "@" ++ y ++ server_text
      ++ c ++ lit " :" ++ body.

(** A Twitch login or channel name: lower-case letters, digits and the
    underscore. *)
Definition name_char (c : char) : bool :=
  between 97 122 c || between 48 57 c || (c =? 95)%N.

Definition twitch_name (s : str) : Prop := forallb name_char s = true.

(** The two halves of the pattern. *)
Definition head_re : list regex :=
  [ text (lit ":"); Group (Star Dot); text (lit "!"); Star Dot;
    text (lit "@"); Star Dot; text server_text ].

Definition tail_re : list regex :=
  [ Group (Star Dot); text (lit " :"); Group (Star Dot) ].

(** The continuation of a whole match. *)
Definition final (s : str) (caps : list str) : option match_object :=
  Some {| groups := caps; rest := s |}.

(** The text before the first separator glyph, and the text after it.
    Lemmas [first_split] and [rejoin_split] below show that these are
    [line.split('—')[0]] and ['—'.join(line.split('—')[1:])]. *)
Fixpoint before_sep (s : str) : str :=
  match s with
  | [] => []
  | c :: s' => if (c =? em_dash)%N then [] else c :: before_sep s'
  end.

Fixpoint after_sep (s : str) : str :=
  match s with
  | [] => []
  | c :: s' => if (c =? em_dash)%N then s' else after_sep s'
  end.

(** [s.split()], without a separator: the words between runs of
    whitespace. *)
Fixpoint words (s : str) : list str :=
  match s with
  | [] => []
  | c :: s' =>
    if isspace c then words s'
    else match s' with
         | c' :: _ =>
           if isspace c' then [c] :: words s'
           else match words s' with
                | w :: ws => (c :: w) :: ws
                | [] => [[c]]
                end
         | [] => [[c]]
         end
  end.

(** The timestamp token as the specification words it: the first
    whitespace-delimited token, [line.split()[0].strip()], the
    expression of the notebook's worked example. *)
Definition first_token (line : str) : result str :=
  bind (first (words line)) (fun w => Ok (strip w)).

(** What one record contributes to the frame. *)
Definition rows_of (line : str) : list ParsedMessage :=
  match record_body line with
  | Ok d => [d]
  | Raise _ => []
  end.

(** A file system that holds one file. *)
Definition single_file (name : string) (content : bytes) : filesystem :=
  fun p => if String.eqb p name then Some content else None.

(* ================================================================== *)
(** * Inputs of the examples *)
(* ================================================================== *)

Definition time_11_26_40 : datetime :=
  {| year := 2018; month := 12; day := 10;
     hour := 11; minute := 26; second := 40 |}.

(** The log of the round-trip example: the bytes of the record in UTF-8,
    then three newlines. *)
Definition round_trip_log : bytes :=
  list_byte_of_string
    "2018-12-10_11:26:40 — :alice!alice@alice.tmi.twitch.tv PRIVMSG #ninja :hello world"
  ++ [x0a; x0a; x0a].

(** A file whose content is the single byte FF, which is not UTF-8. *)
Definition undecodable_log : bytes := [xff].

(** Two logs of one record each: a chat line with nothing after the last
    colon, and a line that the pattern matches with all three groups
    empty. *)
Definition empty_message_log : bytes :=
  list_byte_of_string
    "2018-12-10_11:26:40 — :alice!alice@alice.tmi.twitch.tv PRIVMSG #ninja :"
  ++ [x0a; x0a; x0a].

Definition empty_fields_log : bytes :=
  list_byte_of_string "2018-12-10_11:26:40 — :!@.tmi.twitch.tv PRIVMSG # :"
  ++ [x0a; x0a; x0a].

(** Two records. In the first a word stands between the timestamp and
    the separator glyph; in the second nothing, not even a space, does. *)
Definition junk_before_glyph : str :=
  lit "2018-12-10_11:26:40 junk " ++ [em_dash]
  ++ lit " :alice!alice@alice.tmi.twitch.tv PRIVMSG #ninja :hi".

Definition glyph_glued_to_time : str :=
  lit "2018-12-10_11:26:40" ++ [em_dash]
  ++ lit " :alice!alice@alice.tmi.twitch.tv PRIVMSG #ninja :hi".

(** A log of one record whose body holds the separator glyph and, after
    it, a space and a colon: the body is "a — b :c". *)
Definition glyph_then_colon_log : bytes :=
  list_byte_of_string
    "2018-12-10_11:26:40 — :alice!alice@alice.tmi.twitch.tv PRIVMSG #ninja :a — b :c"
  ++ [x0a; x0a; x0a].

(** A chat line whose body, "look :) nice", holds a space and a colon. *)
Definition smiley_line : str :=
  privmsg (lit "alice") (lit "alice") (lit "alice") (lit "ninja")
          (lit "look :) nice").

(** A read that delivers [chunk] at 11:26:40, on a connection that
    accepts what is sent. *)
Definition read_of (chunk : bytes) : tick :=
  {| recv := Ok chunk; now := time_11_26_40; send_raises := None |}.

(** The world before the loop has done anything. *)
Definition nothing_yet : world := {| sent := []; chat_log := [] |}.

(** The liveness probe as Twitch sends it, and a chunk that is one
    thumbs-up sign, U+1F44D, in UTF-8. *)
Definition ping_chunk : bytes :=
  list_byte_of_string "PING :tmi.twitch.tv" ++ [x0d; x0a].

Definition thumbs_up_chunk : bytes := [xf0; x9f; x91; x8d].

(** A chunk whose bytes begin with "PING" and that [recv] has cut after
    the first two of the four bytes of a thumbs-up sign. *)
Definition cut_ping_chunk : bytes :=
  list_byte_of_string "PING :tmi.twitch.tv " ++ [xf0; x9f].

(* ================================================================== *)
(** * More of the notebook's code *)
(* ================================================================== *)

Module Session.
#[local] Open Scope N_scope.

(** ** Joining a channel

<<
sock.send(f"PASS {token}\n".encode('utf-8'))
sock.send(f"NICK {nickname}\n".encode('utf-8'))
sock.send(f"JOIN {channel}\n".encode('utf-8'))
>>
    The three parameters are texts without lone surrogates, for which
    alone [encode] would raise. *)

Definition authenticate (token nickname channel : str) (w : world) : world :=
  let w := sock_send (encode (lit "PASS " ++ token ++ [newline])) w in
  let w := sock_send (encode (lit "NICK " ++ nickname ++ [newline])) w in
  sock_send (encode (lit "JOIN " ++ channel ++ [newline])) w.

(** ** The file behind the logger

    [FileHandler('chat.log', encoding='utf-8')] opens the file in text
    mode: on the way out every ["\n"] becomes the line separator of the
    platform, ["\n"] on POSIX and ["\r\n"] on Windows, and the text is
    encoded as UTF-8. *)

Definition posix_linesep : str := [newline].
Definition windows_linesep : str := [carriage_return; newline].

Definition translate_newlines (linesep s : str) : str :=
  flat_map (fun c => if c =? newline then linesep else [c]) s.

(** The bytes of [chat.log] after the entries of the log, written to a
    file that was empty. *)
Definition log_file (linesep : str) (entries : list str) : bytes :=
  encode (flat_map (translate_newlines linesep) entries).

(** ** The worked example

    The cells that take one line of the log apart before the function
    is written:
<<
time_logged = msg.split()[0].strip()
time_logged = datetime.strptime(time_logged, '%Y-%m-%d_%H:%M:%S')
username_message = msg.split('—')[1:]
username_message = '—'.join(username_message).strip()
username, channel, message = re.search(..., username_message).groups()
>>
    with the pattern of [get_chat_dataframe]. The values that the cells
    leave in [time_logged], [channel], [username] and [message] are
    given as one row. *)

Definition worked_example (msg : str) : result ParsedMessage :=
  bind (first (words msg)) (fun time_logged =>
  let time_logged := strip time_logged in
  bind (strptime time_logged datefmt) (fun time_logged =>
  let username_message := tl (split msg [em_dash]) in
  let username_message := strip (join [em_dash] username_message) in
  match search privmsg_re username_message with
  | None => Raise AttributeError
  | Some found =>
    match groups found with
    | [username; channel; message] =>
      Ok {| dt := time_logged; channel := channel;
            username := username; message := message |}
    | _ => Raise ValueError
    end
  end)).

End Session.

(* ================================================================== *)
(** * Vocabulary of the further statements *)
(* ================================================================== *)

Import Session.

(** A code point that UTF-8 can carry: not a surrogate, at most
    U+10FFFF. *)
Definition scalar (c : char) : bool :=
  (c <? 0xD800)%N || between 0xE000 0x10FFFF c.

(** A character that a text on one line can hold: one that UTF-8 can
    carry, other than newline and carriage return. *)
Definition line_char (c : char) : bool :=
  scalar c && negb (c =? newline)%N && negb (c =? carriage_return)%N.

Definition one_line (s : str) : Prop := forallb line_char s = true.

(** The start of a character in UTF-8 whose end is missing: a lead byte,
    a lead byte of three or four with one continuation byte, a lead byte
    of four with two. *)
Definition incomplete (cut : list N) : bool :=
  match cut with
  | [l] => (0xC0 <=? l)%N
  | [l; c1] => (0xE0 <=? l)%N && is_cont c1
  | [l; c1; c2] => (0xF0 <=? l)%N && is_cont c1 && is_cont c2
  | _ => false
  end.

(** A visible character of ASCII. *)
Definition plain (c : char) : bool := between 33 126 c.

(** A text without whitespace at either end. *)
Definition trimmed (s : str) : Prop := lstrip s = s /\ rstrip s = s.

(** A pattern none of whose parts can match a newline. *)
Fixpoint line_re (r : regex) : bool :=
  match r with
  | Eps => true
  | Chr c => negb (c =? newline)%N
  | Cls cl | Star cl => negb (in_class cl newline)
  | Seq r1 r2 | Alt r1 r2 => line_re r1 && line_re r2
  | Group r1 => line_re r1
  end.

(** The match object of a line, seen from the text that the line
    starts. *)
Definition followed_by (more : str) (m : match_object) : match_object :=
  {| groups := groups m; rest := rest m ++ more |}.

(** One chat message as the server sends it: the time at which its
    chunk is logged, the user (in the prefix and twice in the host
    part), the channel and the text. *)
Record chat := {
  at_time : datetime;
  user : str;
  host_user : str;
  host : str;
  chan : str;
  said : str
}.

(** Its line on the wire, without the carriage return and the newline
    that end it. *)
Definition chat_line (m : chat) : str :=
  privmsg (user m) (host_user m) (host m) (chan m) (said m).

(** What the parser should make of it. *)
Definition row_of_chat (m : chat) : ParsedMessage :=
  {| dt := at_time m; channel := chan m;
     username := user m; message := said m |}.

(** The messages that the statements below are about: a time that the
    clock can show, Twitch names, and a text on one line, which UTF-8
    can carry, without whitespace at its end, without " :" and without
    the server text. *)
Definition well_formed (m : chat) : Prop :=
  valid (at_time m) = true /\ (1000 <= year (at_time m))%N
  /\ twitch_name (user m) /\ twitch_name (host_user m)
  /\ twitch_name (host m) /\ twitch_name (chan m)
  /\ one_line (said m)
  /\ rstrip (said m) = said m
  /\ contains (lit " :") (said m) = false
  /\ contains server_text (said m) = false.

(** The lines that follow the first in a chunk, each ended like the
    first, and the text of a chunk. *)
Definition further_lines (more : list str) : str :=
  flat_map (fun l => l ++ [carriage_return; newline]) more.

Definition chunk_of (l : str) (more : list str) : str :=
  l ++ [carriage_return; newline] ++ further_lines more.

(** What a read delivers: a chunk whose first line is a chat message,
    logged at the time of the message; a chunk of other lines of the
    server, such as its welcome; the probe of the server; or nothing,
    on a connection that the server has closed. [more] holds the lines
    of the chunk after the first. *)
Inductive arrival :=
| Chat (m : chat) (more : list str)
| Notice (t : datetime) (l : str) (more : list str)
| Probe
| Silence.

Definition tick_of (a : arrival) : tick :=
  match a with
  | Chat m more => {| recv := Ok (encode (chunk_of (chat_line m) more));
                      now := at_time m; send_raises := None |}
  | Notice t l more => {| recv := Ok (encode (chunk_of l more));
                          now := t; send_raises := None |}
  | Probe => read_of ping_chunk
  | Silence => read_of []
  end.

(** What the loop gets to log of an arrival: the time of the read, the
    first line of the chunk and its further lines. *)
Definition heard (a : arrival) : option (datetime * str * list str) :=
  match a with
  | Chat m more => Some (at_time m, chat_line m, more)
  | Notice t l more => Some (t, l, more)
  | Probe | Silence => None
  end.

(** The chat messages that start a chunk. *)
Definition chats (arrivals : list arrival) : list chat :=
  flat_map (fun a => match a with Chat m _ => [m] | _ => [] end) arrivals.

(** A further line: text on one line, not empty. A line of a notice
    holds no server text either. *)
Definition further_line (l : str) : Prop := one_line l /\ l <> [].

Definition notice_line (l : str) : Prop :=
  further_line l /\ contains server_text l = false.

Definition expected (a : arrival) : Prop :=
  match a with
  | Chat m more => well_formed m /\ Forall further_line more
  | Notice t l more =>
    notice_line l /\ startswith l (lit "PING") = false
    /\ Forall notice_line more
  | Probe | Silence => True
  end.

(** [demojize] finds nothing to rewrite in the chunk of an arrival. *)
Definition kept_by (demojize : str -> str) (a : arrival) : Prop :=
  match heard a with
  | Some (_, l, more) => demojize (chunk_of l more) = chunk_of l more
  | None => True
  end.

(** A line of the log under its time, the record of a chat message, and
    the entry that the logger writes for a chunk: the first line under
    the time of the read, the further lines, and the terminator of the
    handler. *)
Definition stamped (t : datetime) (l : str) : str :=
  strftime datefmt t ++ lit " " ++ [em_dash] ++ lit " " ++ l.

Definition record_of (m : chat) : str :=
  strftime datefmt (at_time m) ++ lit " " ++ [em_dash] ++ lit " "
  ++ privmsg (user m) (host_user m) (host m) (chan m) (said m).

Definition entry_of (t : datetime) (l : str) (more : list str) : str :=
  format_record (strftime datefmt t) (chunk_of l more).

Definition entries (arrivals : list arrival) : list str :=
  flat_map (fun a => match heard a with
                     | Some (t, l, more) => [entry_of t l more]
                     | None => []
                     end) arrivals.

(** The entries that the loop writes with a [demojize] that may rewrite
    the chunks. *)
Definition entries_by (demojize : str -> str) (arrivals : list arrival)
  : list str :=
  flat_map (fun a => match heard a with
                     | Some (t, l, more) =>
                       [format_record (strftime datefmt t)
                                      (demojize (chunk_of l more))]
                     | None => []
                     end) arrivals.

(** What the parser reads back of an entry when [gap] is what a
    carriage return and a newline have become on the way through the
    file: the first line under its time, the further lines, each after
    [gap], and at the end [gap] and a newline. *)
Definition lines_read (gap : str) (t : datetime) (l : str) (more : list str)
  : str :=
  stamped t l ++ flat_map (fun l' => gap ++ l') more.

Definition entry_read (gap : str) (t : datetime) (l : str) (more : list str)
  : str :=
  lines_read gap t l more ++ gap ++ [newline].

Definition text_read (gap : str) (arrivals : list arrival) : str :=
  flat_map (fun a => match heard a with
                     | Some (t, l, more) => entry_read gap t l more
                     | None => []
                     end) arrivals.

(** The pieces into which the parser splits that text when [gap] is two
    newlines, but for the empty piece at the end. *)
Definition records_read (arrivals : list arrival) : list str :=
  flat_map (fun a => match heard a with
                     | Some (t, l, more) =>
                       [lines_read [newline; newline] t l more]
                     | None => []
                     end) arrivals.

(** A text in which no chat line stands and which, unless empty, ends
    with a newline. *)
Definition quiet_text (p : str) : Prop :=
  contains server_text p = false
  /\ (p = [] \/ exists p0, p = p0 ++ [newline]).

(** What stands in an entry between the first colon of its time and the
    user of its chat message: the minutes, the seconds, the separator
    of the log and the colon that starts the chat line. *)
Definition stamp_tail (t : datetime) : str :=
  two_digits (minute t) ++ lit ":" ++ two_digits (second t)
  ++ lit " " ++ [em_dash] ++ lit " :".

(** The answers that the probes among [arrivals] call for. *)
Definition pongs (arrivals : list arrival) : list bytes :=
  flat_map (fun a => match a with
                     | Probe => [encode (lit "PONG" ++ [newline])]
                     | _ => []
                     end) arrivals.

(** What the loop has logged after the reads of [arrivals], starting
    with nothing. *)
Definition logged (demojize : str -> str) (arrivals : list arrival)
  : list str :=
  chat_log (fst (receive_loop demojize (map tick_of arrivals) nothing_yet)).

(** A whole session: the loop logs what arrives, the handler writes the
    entries to a new file with the line separator [linesep], and
    [get_chat_dataframe] reads that file. *)
Definition session_frame (demojize : str -> str) (linesep : str)
           (file : string) (arrivals : list arrival)
  : result (list ParsedMessage) :=
  fst (get_chat_dataframe
         file (single_file file (log_file linesep (logged demojize arrivals)))).

(** ** Inputs of the further examples *)

(** Two chat messages, the first with the separator glyph in its text,
    and a session of five reads: the welcome of the server, the first
    message with a further chat line in the same chunk, the probe of
    the server, the second message with a probe in the same chunk, and
    the empty read of a closed connection. *)
Definition hello_chat : chat :=
  {| at_time := time_11_26_40;
     user := lit "alice"; host_user := lit "alice"; host := lit "alice";
     chan := lit "ninja";
     said := lit "hello " ++ [em_dash] ++ lit " world" |}.

Definition bye_chat : chat :=
  {| at_time := {| year := 2018; month := 12; day := 10;
                   hour := 11; minute := 27; second := 5 |};
     user := lit "bob_42"; host_user := lit "bob_42"; host := lit "bob_42";
     chan := lit "ninja";
     said := lit "bye" |}.

Definition welcome : arrival :=
  Notice time_11_26_40
         (lit ":tmi.twitch.tv 001 me :Welcome, GLHF!")
         [lit ":tmi.twitch.tv 002 me :Your host is tmi.twitch.tv"].

Definition short_session : list arrival :=
  [ welcome;
    Chat hello_chat
         [lit ":carol!carol@carol.tmi.twitch.tv PRIVMSG #ninja :me too"];
    Probe;
    Chat bye_chat [lit "PING :tmi.twitch.tv"];
    Silence ].

(** The line of the notebook's worked example, [msg]. *)
Definition msg : str :=
  lit "2018-12-10_11:26:40 " ++ [em_dash]
  ++ lit " :spappygram!spappygram@spappygram.tmi.twitch.tv PRIVMSG #ninja :Chat, let Ninja play solos".

(** The placeholders of the notebook's first cell. *)
Definition nickname : str := lit "<YOUR_USERNAME>".
Definition token : str := lit "<YOUR_TOKEN>".
Definition channel_name : str := lit "#ninja".

(* ================================================================== *)
(** * Facts about the built-ins *)
(* ================================================================== *)

(** ** Lists *)

Lemma app_same_length (A : Type) (x x0 y y0 : list A) :
  x ++ y = x0 ++ y0 -> length x = length x0 -> x = x0 /\ y = y0.
Proof.
  revert x0. induction x as [|a x IH]; intros [|a0 x0] E L;
    simpl in *; try discriminate.
  - auto.
  - injection E as Ea Es. injection L as L. subst a0.
    destruct (IH _ Es L) as [-> ->]. auto.
Qed.

Lemma consumed_app (x y : str) : consumed (x ++ y) y = x.
Proof.
  unfold consumed. rewrite length_app.
  replace (length x + length y - length y)%nat with (length x) by lia.
  rewrite firstn_app, firstn_all, Nat.sub_diag. simpl. apply app_nil_r.
Qed.

(** A suffix that starts with a character absent from [p] lies inside
    what follows [p]. *)
Lemma suffix_past (A : Type) (p b x y : list A) (h : A) (t : list A) :
  p ++ b = x ++ y -> y = h :: t -> ~ In h p ->
  exists b1, b = b1 ++ y.
Proof.
  revert x. induction p as [|a p IH]; intros x E Y N; simpl in *.
  - exists x. exact E.
  - destruct x as [|a' x]; simpl in *.
    + rewrite Y in E. injection E as E1 _. exfalso. apply N. left. exact E1.
    + injection E as _ Es. apply (IH x); auto.
Qed.

(** ** [str.startswith] *)

Lemma startswith_app (p r : str) : startswith (p ++ r) p = true.
Proof.
  induction p as [|c p IH]; simpl; [reflexivity|].
  rewrite N.eqb_refl. exact IH.
Qed.

Lemma startswith_inv (s p : str) :
  startswith s p = true -> exists r, s = p ++ r.
Proof.
  revert s. induction p as [|c p IH]; intros s H; simpl in *.
  - exists s. reflexivity.
  - destruct s as [|x s]; [discriminate|].
    apply andb_true_iff in H as [E H]. apply N.eqb_eq in E. subst x.
    destruct (IH _ H) as [r ->]. exists r. reflexivity.
Qed.

(** ** The greedy star *)

Section StarFacts.
Variable A : Type.
Variable p : char -> bool.
Variable k : str -> option A.

Lemma star_none (s : str) :
  star p s k = None ->
  forall x y, s = x ++ y -> forallb p x = true -> k y = None.
Proof.
  induction s as [|c s IH]; simpl; intros H x y E F.
  - destruct x; [simpl in E; subst y; exact H | discriminate].
  - destruct x as [|c' x]; simpl in *.
    + subst y. destruct (p c); [destruct (star p s k); [discriminate|]|];
        exact H.
    + injection E as Ec Es. subst c'. apply andb_true_iff in F as [Pc F].
      rewrite Pc in H. destruct (star p s k) eqn:St; [discriminate|].
      apply (IH eq_refl x y Es F).
Qed.

(** The split chosen by the star is the longest one that lets the
    continuation succeed. *)
Lemma star_sound (s : str) (a : A) :
  star p s k = Some a ->
  exists x y, s = x ++ y /\ forallb p x = true /\ k y = Some a /\
    forall x' y', s = x' ++ y' -> forallb p x' = true ->
                  (length x < length x')%nat -> k y' = None.
Proof.
  induction s as [|c s IH]; simpl; intros H.
  - exists [], []. repeat split; auto.
    intros [|? ?] y' E _ L; simpl in *; [lia | discriminate].
  - destruct (p c) eqn:Pc; [destruct (star p s k) as [a'|] eqn:St|].
    + injection H as ->.
      destruct (IH eq_refl) as (x & y & E & F & K & M).
      exists (c :: x), y. subst s. simpl. rewrite Pc.
      repeat split; auto.
      intros [|c' x'] y' E' F' L; simpl in *; [lia|].
      injection E' as Ec Es. apply andb_true_iff in F' as [_ F'].
      apply (M x' y' Es F'). lia.
    + exists [], (c :: s). repeat split; auto.
      intros [|c' x'] y' E' F' L; simpl in *; [lia|].
      injection E' as Ec Es. apply andb_true_iff in F' as [_ F'].
      apply (star_none _ St x' y' Es F').
    + exists [], (c :: s). repeat split; auto.
      intros [|c' x'] y' E' F' L; simpl in *; [lia|].
      injection E' as Ec Es. subst c'. apply andb_true_iff in F' as [Pc' _].
      congruence.
Qed.

Lemma star_complete (s x y : str) (a : A) :
  s = x ++ y -> forallb p x = true -> k y = Some a ->
  (forall x' y', s = x' ++ y' -> forallb p x' = true ->
                 (length x < length x')%nat -> k y' = None) ->
  star p s k = Some a.
Proof.
  intros E F K M. destruct (star p s k) as [a'|] eqn:St.
  - destruct (star_sound _ _ St) as (x0 & y0 & E0 & F0 & K0 & M0).
    destruct (Nat.lt_trichotomy (length x0) (length x)) as [L|[L|L]].
    + rewrite (M0 x y E F L) in K. discriminate.
    + rewrite E in E0. destruct (app_same_length _ _ _ _ _ E0 (eq_sym L))
        as [-> ->]. congruence.
    + rewrite (M x0 y0 E0 F0 L) in K0. discriminate.
  - rewrite (star_none _ St x y E F) in K. discriminate.
Qed.

Lemma star_total (s : str) :
  (forall y, k y <> None) -> star p s k <> None.
Proof.
  intros T. induction s as [|c s IH]; simpl.
  - apply T.
  - destruct (p c); [destruct (star p s k); [discriminate|]|]; apply T.
Qed.

End StarFacts.

(** ** Soundness of the matcher *)

(** Whatever the matcher accepts is in the meaning of the pattern. *)
Lemma run_sound (A : Type) (r : regex) :
  forall (s : str) (caps : list str) (k : str -> list str -> option A) (a : A),
    run r s caps k = Some a ->
    exists w s1 cs, s = w ++ s1 /\ sem r w cs /\ k s1 (caps ++ cs) = Some a.
Proof.
  induction r as [|c|cl|cl|r1 IH1 r2 IH2|r1 IH1 r2 IH2|r1 IH1];
    intros s caps k a H; simpl in H.
  - exists [], s, []. rewrite app_nil_r. simpl. auto.
  - destruct s as [|x s]; [discriminate|].
    destruct (N.eqb_spec x c) as [->|]; [|discriminate].
    exists [c], s, []. rewrite app_nil_r. simpl. auto.
  - destruct s as [|x s]; [discriminate|].
    destruct (in_class cl x) eqn:I; [|discriminate].
    exists [x], s, []. rewrite app_nil_r. simpl. eauto 6.
  - destruct (star_sound _ _ _ _ _ H) as (x & y & E & F & K & _).
    exists x, y, []. rewrite app_nil_r. simpl. auto.
  - destruct (IH1 _ _ _ _ H) as (w1 & s1 & c1 & E1 & S1 & K1).
    destruct (IH2 _ _ _ _ K1) as (w2 & s2 & c2 & E2 & S2 & K2).
    exists (w1 ++ w2), s2, (c1 ++ c2). subst s s1.
    rewrite <- !app_assoc in *. repeat split; auto.
    simpl. exists w1, w2, c1, c2. auto.
  - destruct (run r1 s caps k) as [a'|] eqn:R1.
    + injection H as ->.
      destruct (IH1 _ _ _ _ R1) as (w & s1 & cs & E & S & K).
      exists w, s1, cs. simpl. auto.
    + destruct (IH2 _ _ _ _ H) as (w & s1 & cs & E & S & K).
      exists w, s1, cs. simpl. auto.
  - destruct (IH1 _ _ _ _ H) as (w & s1 & cs & E & S & K).
    exists w, s1, (cs ++ [w]). subst s. rewrite consumed_app in K.
    rewrite app_assoc. repeat split; auto. simpl. eauto.
Qed.

Lemma star_ext (A : Type) (p : char -> bool) (k k' : str -> option A) :
  (forall y, k y = k' y) -> forall s, star p s k = star p s k'.
Proof.
  intros E s. induction s as [|c s IH]; simpl; [apply E|].
  rewrite IH, E. reflexivity.
Qed.

Lemma run_ext (A : Type) (r : regex) :
  forall (s : str) (caps : list str) (k k' : str -> list str -> option A),
    (forall y cs, k y cs = k' y cs) -> run r s caps k = run r s caps k'.
Proof.
  induction r as [|c|cl|cl|r1 IH1 r2 IH2|r1 IH1 r2 IH2|r1 IH1];
    intros s caps k k' E; simpl.
  - apply E.
  - destruct s; [reflexivity|]. rewrite E. reflexivity.
  - destruct s; [reflexivity|]. rewrite E. reflexivity.
  - apply star_ext. intros y. apply E.
  - apply IH1. intros y cs. apply IH2. exact E.
  - rewrite (IH1 s caps k k' E), (IH2 s caps k k' E). reflexivity.
  - apply IH1. intros y cs. apply E.
Qed.

Lemma run_seq_app (A : Type) (l1 l2 : list regex) :
  forall (s : str) (caps : list str) (k : str -> list str -> option A),
    run (seq (l1 ++ l2)) s caps k
    = run (seq l1) s caps (fun s1 c1 => run (seq l2) s1 c1 k).
Proof.
  induction l1 as [|r l1 IH]; intros s caps k; simpl; [reflexivity|].
  apply run_ext. intros y cs. apply IH.
Qed.

Lemma run_text (A : Type) (l : str) :
  forall (s : str) (caps : list str) (k : str -> list str -> option A),
    run (text l) s caps k
    = if startswith s l then k (skipn (length l) s) caps else None.
Proof.
  induction l as [|c l IH]; intros s caps k; [reflexivity|].
  change (text (c :: l)) with (Seq (Chr c) (text l)). simpl.
  destruct s as [|x s]; [reflexivity|].
  destruct (x =? c)%N; [apply IH | reflexivity].
Qed.

Lemma sem_text (l w : str) (cs : list str) :
  sem (text l) w cs -> w = l /\ cs = [].
Proof.
  revert w cs. induction l as [|c l IH]; intros w cs H.
  - exact H.
  - change (text (c :: l)) with (Seq (Chr c) (text l)) in H. simpl in H.
    destruct H as (w1 & w2 & c1 & c2 & -> & -> & [-> ->] & H).
    destruct (IH _ _ H) as [-> ->]. auto.
Qed.

(** ** [re.search] *)

Lemma search_first (r : regex) (s : str) (m : match_object) :
  match_ r s = Some m -> search r s = Some m.
Proof. intros H. destruct s; simpl; rewrite H; reflexivity. Qed.

Lemma search_sound (r : regex) (s : str) (m : match_object) :
  search r s = Some m ->
  exists before s0, s = before ++ s0 /\ match_ r s0 = Some m.
Proof.
  induction s as [|c s IH]; simpl; intros H.
  - destruct (match_ r []) eqn:M; [|discriminate].
    injection H as ->. exists [], []. auto.
  - destruct (match_ r (c :: s)) eqn:M.
    + injection H as ->. exists [], (c :: s). auto.
    + destruct (IH H) as (b & s0 & -> & M0). exists (c :: b), s0. auto.
Qed.

(** ** The pattern of the chat lines *)

Lemma privmsg_re_parts : privmsg_re = seq (head_re ++ tail_re).
Proof. reflexivity. Qed.

Lemma sem_seq_cons (r : regex) (rs : list regex) (w : str) (cs : list str) :
  sem (seq (r :: rs)) w cs ->
  exists w1 w2 c1 c2,
    w = w1 ++ w2 /\ cs = c1 ++ c2 /\ sem r w1 c1 /\ sem (seq rs) w2 c2.
Proof. intros H. exact H. Qed.

Lemma sem_head_re (w : str) (cs : list str) :
  sem (seq head_re) w cs ->
  exists u x y,
    w = lit ":" ++ u ++ lit "!" ++ x ++ lit "@" ++ y ++ server_text
    /\ cs = [u] /\ no_newline u /\ no_newline x /\ no_newline y.
Proof.
  intros H. unfold head_re in H.
  apply sem_seq_cons in H. destruct H as (w1 & r1 & c1 & d1 & -> & -> & H1 & H).
  apply sem_text in H1. destruct H1 as [-> ->].
  apply sem_seq_cons in H. destruct H as (w2 & r2 & c2 & d2 & -> & -> & H2 & H).
  destruct H2 as (e2 & [F2 ->] & ->).
  apply sem_seq_cons in H. destruct H as (w3 & r3 & c3 & d3 & -> & -> & H3 & H).
  apply sem_text in H3. destruct H3 as [-> ->].
  apply sem_seq_cons in H. destruct H as (w4 & r4 & c4 & d4 & -> & -> & H4 & H).
  destruct H4 as [F4 ->].
  apply sem_seq_cons in H. destruct H as (w5 & r5 & c5 & d5 & -> & -> & H5 & H).
  apply sem_text in H5. destruct H5 as [-> ->].
  apply sem_seq_cons in H. destruct H as (w6 & r6 & c6 & d6 & -> & -> & H6 & H).
  destruct H6 as [F6 ->].
  apply sem_seq_cons in H. destruct H as (w7 & r7 & c7 & d7 & -> & -> & H7 & H).
  apply sem_text in H7. destruct H7 as [-> ->].
  destruct H as [-> ->].
  exists w2, w4, w6. rewrite !app_nil_r. simpl. auto.
Qed.

Lemma no_newline_app (a b : str) :
  no_newline (a ++ b) <-> no_newline a /\ no_newline b.
Proof. unfold no_newline. rewrite forallb_app. apply andb_true_iff. Qed.

Lemma tail_re_sound (s1 : str) (caps : list str) (m : match_object) :
  run (seq tail_re) s1 caps
      (fun s2 cs => Some {| groups := cs; rest := s2 |}) = Some m ->
  exists c msg,
    s1 = c ++ lit " :" ++ msg ++ rest m
    /\ groups m = caps ++ [c; msg]
    /\ no_newline c /\ no_newline msg
    /\ (rest m = [] \/ exists t, rest m = newline :: t)
    /\ (forall a b, msg <> a ++ lit " :" ++ b).
Proof.
  intros H. unfold tail_re in H. cbn [seq fold_right run] in H.
  destruct (star_sound _ _ _ _ _ H) as (c & y2 & E & F & K & M).
  rewrite run_text in K.
  destruct (startswith y2 (lit " :")) eqn:P; [|discriminate].
  destruct (startswith_inv _ _ P) as [t ->].
  change (skipn (length (lit " :")) (lit " :" ++ t)) with t in K.
  destruct (star_sound _ _ _ _ _ K) as (msg & r & E' & F' & K' & M').
  injection K' as <-. subst t s1. simpl rest. simpl groups.
  exists c, msg. rewrite !consumed_app.
  change (lit " :" ++ msg ++ r) with ((lit " :" ++ msg) ++ r).
  repeat split; auto.
  - rewrite <- app_assoc. reflexivity.
  - destruct r as [|h r']; [left; reflexivity | right].
    destruct (N.eqb_spec h newline) as [->|Hh]; [eauto|].
    exfalso. specialize (M' (msg ++ [h]) r').
    rewrite <- app_assoc in M'. specialize (M' eq_refl).
    rewrite forallb_app, F' in M'. simpl in M'.
    apply N.eqb_neq in Hh. unfold newline in Hh. setoid_rewrite Hh in M'.
    rewrite length_app in M'. simpl in M'.
    assert (X : (length msg < length msg + 1)%nat) by lia.
    specialize (M' eq_refl X). discriminate.
  - intros a b Em. subst msg.
    specialize (M (c ++ lit " :" ++ a) (lit " :" ++ b ++ r)).
    rewrite <- !app_assoc in M. specialize (M eq_refl).
    apply no_newline_app in F'. destruct F' as [Fa _].
    assert (Fx : forallb (in_class Dot) (c ++ lit " :" ++ a) = true).
    { rewrite !forallb_app, F, Fa. reflexivity. }
    assert (X : (length c < length (c ++ lit " :" ++ a))%nat)
      by (rewrite !length_app; simpl; lia).
    specialize (M Fx X). rewrite run_text in M.
    rewrite startswith_app in M.
    change (skipn (length (lit " :")) (lit " :" ++ b ++ r)) with (b ++ r) in M.
    revert M. apply star_total. discriminate.
Qed.

Lemma privmsg_match_sound (s : str) (m : match_object) :
  match_ privmsg_re s = Some m ->
  exists u x y c msg,
    s = privmsg u x y c msg ++ rest m
    /\ groups m = [u; c; msg]
    /\ (no_newline u /\ no_newline x /\ no_newline y
        /\ no_newline c /\ no_newline msg)
    /\ (rest m = [] \/ exists t, rest m = newline :: t)
    /\ (forall a b, msg <> a ++ lit " :" ++ b).
Proof.
  unfold match_. rewrite privmsg_re_parts, run_seq_app. intros H.
  destruct (run_sound _ _ _ _ _ _ H) as (w & s1 & cs & E & S & K).
  destruct (sem_head_re _ _ S) as (u & x & y & -> & -> & Fu & Fx & Fy).
  destruct (tail_re_sound _ _ _ K) as (c & msg & -> & G & Fc & Fm & L & N).
  exists u, x, y, c, msg. subst s. unfold privmsg.
  rewrite <- !app_assoc. repeat split; auto.
Qed.

Lemma privmsg_search_sound (s : str) (m : match_object) :
  search privmsg_re s = Some m ->
  exists before u x y c msg,
    s = before ++ privmsg u x y c msg ++ rest m
    /\ groups m = [u; c; msg]
    /\ (no_newline u /\ no_newline x /\ no_newline y
        /\ no_newline c /\ no_newline msg)
    /\ (rest m = [] \/ exists t, rest m = newline :: t)
    /\ (forall a b, msg <> a ++ lit " :" ++ b).
Proof.
  intros H. destruct (search_sound _ _ _ H) as (before & s0 & -> & M).
  destruct (privmsg_match_sound _ _ M) as (u & x & y & c & msg & -> & R).
  exists before, u, x, y, c, msg. split; [reflexivity | exact R].
Qed.

Lemma contains_start (l s : str) :
  startswith s l = true -> contains l s = true.
Proof. intros H. destruct s; simpl; rewrite H; reflexivity. Qed.

Lemma contains_app (l a b : str) : contains l (a ++ l ++ b) = true.
Proof.
  induction a as [|c a IH].
  - apply contains_start. exact (startswith_app l b).
  - simpl. rewrite IH. apply orb_true_r.
Qed.

Lemma twitch_name_no_newline (s : str) : twitch_name s -> no_newline s.
Proof.
  unfold twitch_name, no_newline. rewrite !forallb_forall.
  intros H c Hc. specialize (H c Hc). unfold in_class.
  destruct (N.eqb_spec c newline) as [->|]; [discriminate | reflexivity].
Qed.

Lemma twitch_name_not_in (s : str) (c : char) :
  twitch_name s -> name_char c = false -> ~ In c s.
Proof.
  unfold twitch_name. rewrite forallb_forall. intros H N I.
  rewrite (H c I) in N. discriminate.
Qed.

Lemma longer_prefix (A : Type) (a b x y : list A) :
  a ++ b = x ++ y -> (length a < length x)%nat ->
  exists h t, x = a ++ h :: t /\ b = (h :: t) ++ y.
Proof.
  revert x. induction a as [|c a IH]; intros x E L; simpl in *.
  - destruct x as [|h t]; [simpl in L; lia|]. exists h, t. auto.
  - destruct x as [|c' x]; [simpl in L; lia|]. simpl in *.
    injection E as Ec Es. subst c'.
    destruct (IH x Es ltac:(lia)) as (h & t & -> & ->). eauto.
Qed.

Lemma sem_occurs (l : str) (rs : list regex) :
  In (text l) rs ->
  forall w cs, sem (seq rs) w cs -> exists a b, w = a ++ l ++ b.
Proof.
  induction rs as [|r rs IH]; intros I w cs S; [destruct I|].
  apply sem_seq_cons in S. destruct S as (w1 & w2 & c1 & c2 & -> & _ & S1 & S2).
  destruct I as [->|I].
  - apply sem_text in S1. destruct S1 as [-> _]. exists [], w2. reflexivity.
  - destruct (IH I _ _ S2) as (a & b & ->). exists (w1 ++ a), b.
    rewrite <- app_assoc. reflexivity.
Qed.

(** A later start on a character that only the body may hold cannot
    match a part of the pattern that asks for the server text, when the
    body does not hold that text. *)
Lemma stray_start_fails (ch : char) (rs : list regex) (P body x y : str)
      (caps : list str) :
  In (text server_text) rs ->
  P ++ body = x ++ y -> ~ In ch P ->
  contains server_text body = false ->
  run (seq (text [ch] :: rs)) y caps final = None.
Proof.
  intros I E N C.
  destruct (run (seq (text [ch] :: rs)) y caps final) as [m|] eqn:R;
    [exfalso | reflexivity].
  destruct (run_sound _ _ _ _ _ _ R) as (w & s1 & cs & -> & S & _).
  apply sem_seq_cons in S. destruct S as (w1 & w2 & c1 & c2 & -> & _ & S1 & S2).
  apply sem_text in S1. destruct S1 as [-> _].
  destruct (sem_occurs _ _ I _ _ S2) as (a & b & ->).
  destruct (suffix_past _ P body x _ ch ((a ++ server_text ++ b) ++ s1) E
                        eq_refl N) as [b1 Eb].
  replace body with ((b1 ++ [ch] ++ a) ++ server_text ++ (b ++ s1)) in C.
  - rewrite contains_app in C. discriminate.
  - rewrite Eb. simpl. rewrite <- !app_assoc. reflexivity.
Qed.

Lemma server_text_shift (W x y : str) :
  server_text ++ W = x ++ y -> x <> [] ->
  startswith y server_text = true -> exists a, W = a ++ y.
Proof.
  intros E N S. unfold server_text, lit in E. simpl in E.
  destruct x as [|h x]; [contradiction|]. clear N.
  do 23 (injection E as _ E;
         destruct x as [|? x];
         [simpl in E; subst y; simpl in S; discriminate|]).
  injection E as _ E. exists x. exact E.
Qed.

Lemma run_group_star (A : Type) (rs : list regex) (s : str)
      (caps : list str) (k : str -> list str -> option A) :
  run (seq (Group (Star Dot) :: rs)) s caps k
  = star (in_class Dot) s
         (fun s1 => run (seq rs) s1 (caps ++ [consumed s s1]) k).
Proof. reflexivity. Qed.

Lemma run_star (A : Type) (rs : list regex) (s : str)
      (caps : list str) (k : str -> list str -> option A) :
  run (seq (Star Dot :: rs)) s caps k
  = star (in_class Dot) s (fun s1 => run (seq rs) s1 caps k).
Proof. reflexivity. Qed.

Lemma run_text_cons (A : Type) (l : str) (rs : list regex) (t : str)
      (caps : list str) (k : str -> list str -> option A) :
  run (seq (text l :: rs)) (l ++ t) caps k = run (seq rs) t caps k.
Proof.
  change (seq (text l :: rs)) with (Seq (text l) (seq rs)).
  cbn [run]. rewrite run_text, startswith_app.
  rewrite skipn_app, skipn_all, Nat.sub_diag. reflexivity.
Qed.

(** Closes [~ In ch (p1 ++ ... ++ pn)] when every part is a Twitch name
    or a literal and [ch] is not a name character. *)
Ltac absent :=
  let I := fresh "I" in
  intros I;
  repeat (apply in_app_or in I; destruct I as [I|I]);
  first [ revert I; apply twitch_name_not_in; [eassumption | reflexivity]
        | vm_compute in I; intuition discriminate ].

(** ** A well-formed chat line is matched as it was built *)

Section WellFormedLine.
Variables u x y c body : str.
Hypothesis Hu : no_newline u.
Hypothesis Hx : twitch_name x.
Hypothesis Hy : twitch_name y.
Hypothesis Hc : twitch_name c.
Hypothesis Hbody : no_newline body.
Hypothesis Hcolon : contains (lit " :") body = false.
Hypothesis Hserver : contains server_text body = false.

Lemma run_message (caps : list str) :
  run (seq [Group (Star Dot)]) body caps final
  = Some {| groups := caps ++ [body]; rest := [] |}.
Proof.
  rewrite run_group_star.
  apply star_complete with (x := body) (y := []).
  - symmetry. apply app_nil_r.
  - exact Hbody.
  - cbn [seq fold_right run]. unfold final.
    rewrite <- (app_nil_r body) at 1. rewrite consumed_app. reflexivity.
  - intros x' y' E _ L. apply (f_equal (@length _)) in E.
    rewrite length_app in E. lia.
Qed.

Lemma run_channel (caps : list str) :
  run (seq tail_re) (c ++ lit " :" ++ body) caps final
  = Some {| groups := caps ++ [c; body]; rest := [] |}.
Proof.
  unfold tail_re. rewrite run_group_star.
  apply star_complete with (x := c) (y := lit " :" ++ body).
  - reflexivity.
  - apply twitch_name_no_newline, Hc.
  - rewrite consumed_app, run_text_cons, run_message.
    rewrite <- app_assoc. reflexivity.
  - intros x' y' E _ L.
    destruct (longer_prefix _ _ _ _ _ E L) as (h & t & _ & E').
    change (seq (text (lit " :") :: [Group (Star Dot)]))
      with (Seq (text (lit " :")) (seq [Group (Star Dot)])).
    cbn [run]. rewrite run_text.
    destruct (startswith y' (lit " :")) eqn:S; [exfalso | reflexivity].
    destruct (startswith_inv _ _ S) as [r ->].
    injection E' as _ E'.
    destruct (suffix_past _ (lit ":") body t _ _ _ E' eq_refl) as [b1 Eb].
    + absent.
    + assert (Q : contains (lit " :") body = true)
        by (rewrite Eb; exact (contains_app (lit " :") b1 r)).
      congruence.
Qed.

Lemma run_server (caps : list str) :
  run (seq (Star Dot :: text server_text :: tail_re))
      (y ++ server_text ++ c ++ lit " :" ++ body) caps final
  = Some {| groups := caps ++ [c; body]; rest := [] |}.
Proof.
  rewrite run_star.
  apply star_complete
    with (x := y) (y := server_text ++ c ++ lit " :" ++ body).
  - reflexivity.
  - apply twitch_name_no_newline, Hy.
  - rewrite run_text_cons. apply run_channel.
  - intros x' y' E _ L.
    destruct (longer_prefix _ _ _ _ _ E L) as (h & t & _ & E').
    change (seq (text server_text :: tail_re))
      with (Seq (text server_text) (seq tail_re)).
    cbn [run]. rewrite run_text.
    destruct (startswith y' server_text) eqn:S; [exfalso | reflexivity].
    destruct (server_text_shift _ _ _ E' ltac:(discriminate) S) as [a Ea].
    destruct (startswith_inv _ _ S) as [r ->].
    destruct (suffix_past _ (c ++ lit " :") body a _ _ _
                          ltac:(rewrite <- app_assoc; exact Ea) eq_refl)
      as [b1 Eb].
    + absent.
    + assert (Q : contains server_text body = true)
        by (rewrite Eb; exact (contains_app server_text b1 r)).
      congruence.
Qed.

Lemma run_host (caps : list str) :
  run (seq (Star Dot :: text (lit "@") :: Star Dot :: text server_text
                :: tail_re))
      (x ++ lit "@" ++ y ++ server_text ++ c ++ lit " :" ++ body)
      caps final
  = Some {| groups := caps ++ [c; body]; rest := [] |}.
Proof.
  rewrite run_star.
  apply star_complete
    with (x := x)
         (y := lit "@" ++ y ++ server_text ++ c ++ lit " :" ++ body).
  - reflexivity.
  - apply twitch_name_no_newline, Hx.
  - rewrite run_text_cons. apply run_server.
  - intros x' y' E _ L.
    destruct (longer_prefix _ _ _ _ _ E L) as (h & t & _ & E').
    injection E' as _ E'.
    apply (stray_start_fails 64%N _ (y ++ server_text ++ c ++ lit " :")
                             body t); auto.
    + simpl. auto.
    + rewrite <- !app_assoc. exact E'.
    + absent.
Qed.

Lemma run_user :
  run privmsg_re (privmsg u x y c body) [] final
  = Some {| groups := [u; c; body]; rest := [] |}.
Proof.
  unfold privmsg.
  change privmsg_re
    with (seq (text (lit ":") :: Group (Star Dot) :: text (lit "!")
                 :: Star Dot :: text (lit "@") :: Star Dot
                 :: text server_text :: tail_re)).
  rewrite run_text_cons, run_group_star.
  apply star_complete
    with (x := u)
         (y := lit "!" ++ x ++ lit "@" ++ y ++ server_text ++ c
                   ++ lit " :" ++ body).
  - reflexivity.
  - exact Hu.
  - rewrite consumed_app, run_text_cons. apply run_host.
  - intros x' y' E _ L.
    destruct (longer_prefix _ _ _ _ _ E L) as (h & t & _ & E').
    injection E' as _ E'.
    apply (stray_start_fails 33%N _
             (x ++ lit "@" ++ y ++ server_text ++ c ++ lit " :") body t);
      auto.
    + simpl. auto.
    + rewrite <- !app_assoc. exact E'.
    + absent.
Qed.

Lemma privmsg_search_complete :
  search privmsg_re (privmsg u x y c body)
  = Some {| groups := [u; c; body]; rest := [] |}.
Proof. apply search_first. exact run_user. Qed.

End WellFormedLine.

(** ** [split] on the separator glyph and [join] *)

Lemma split_from_nonempty (sep : str) (k : nat) (s : str) :
  split_from sep k s <> [].
Proof.
  revert k. induction s as [|c s IH]; intros k; simpl; [discriminate|].
  destruct k; [|apply IH].
  destruct (startswith (c :: s) sep); [discriminate|].
  destruct (split_from sep 0 s); discriminate.
Qed.

Lemma split_sep_cons (c : char) (s : str) :
  split (c :: s) [c] = [] :: split s [c].
Proof. unfold split. simpl. rewrite N.eqb_refl. reflexivity. Qed.

Lemma split_other_cons (c x : char) (s : str) :
  x <> c ->
  split (x :: s) [c]
  = match split s [c] with
    | piece :: pieces => (x :: piece) :: pieces
    | [] => [[x]]
    end.
Proof.
  intros N. unfold split. simpl.
  apply N.eqb_neq in N. rewrite N. reflexivity.
Qed.

Lemma join_split (c : char) (s : str) : join [c] (split s [c]) = s.
Proof.
  induction s as [|x s IH]; [reflexivity|].
  destruct (N.eq_dec x c) as [->|N].
  - rewrite split_sep_cons.
    pose proof (split_from_nonempty [c] 0 s) as NE. fold (split s [c]) in NE.
    destruct (split s [c]) as [|p ps] eqn:E; [contradiction|].
    change (join [c] ([] :: p :: ps)) with (c :: join [c] (p :: ps)).
    rewrite IH. reflexivity.
  - rewrite (split_other_cons _ _ s N).
    pose proof (split_from_nonempty [c] 0 s) as NE. fold (split s [c]) in NE.
    destruct (split s [c]) as [|p ps] eqn:E; [contradiction|].
    rewrite <- IH. destruct ps; reflexivity.
Qed.

(** [line.split('—')[0]] is the text before the first glyph. *)
Lemma first_split (line : str) :
  first (split line [em_dash]) = Ok (before_sep line).
Proof.
  induction line as [|x s IH]; [reflexivity|].
  simpl before_sep. destruct (N.eqb_spec x em_dash) as [->|N].
  - rewrite split_sep_cons. reflexivity.
  - rewrite (split_other_cons _ _ s N).
    destruct (split s [em_dash]) as [|p ps]; [discriminate IH|].
    simpl in *. congruence.
Qed.

(** ['—'.join(line.split('—')[1:])] is the text after the first glyph,
    with every later glyph in its place. *)
Lemma rejoin_split (line : str) :
  join [em_dash] (tl (split line [em_dash])) = after_sep line.
Proof.
  induction line as [|x s IH]; [reflexivity|].
  simpl after_sep. destruct (N.eqb_spec x em_dash) as [->|N].
  - rewrite split_sep_cons. simpl tl. apply join_split.
  - rewrite (split_other_cons _ _ s N).
    destruct (split s [em_dash]) as [|p ps]; exact IH.
Qed.

Lemma before_sep_app (head tail : str) :
  ~ In em_dash head -> before_sep (head ++ em_dash :: tail) = head.
Proof.
  induction head as [|c head IH]; intros N; cbn [app before_sep].
  - rewrite N.eqb_refl. reflexivity.
  - destruct (N.eqb_spec c em_dash) as [->|_].
    + exfalso. apply N. left. reflexivity.
    + rewrite IH; [reflexivity|]. intros I. apply N. right. exact I.
Qed.

Lemma after_sep_app (head tail : str) :
  ~ In em_dash head -> after_sep (head ++ em_dash :: tail) = tail.
Proof.
  induction head as [|c head IH]; intros N; cbn [app after_sep].
  - rewrite N.eqb_refl. reflexivity.
  - destruct (N.eqb_spec c em_dash) as [->|_].
    + exfalso. apply N. left. reflexivity.
    + apply IH. intros I. apply N. right. exact I.
Qed.

(** ** The body of the [try], stage by stage *)

Lemma record_body_stages (line : str) :
  record_body line
  = bind (strptime (strip (before_sep line)) datefmt) (fun time_logged =>
      match search privmsg_re (strip (after_sep line)) with
      | None => Raise AttributeError
      | Some found =>
        match groups found with
        | [username; channel; message] =>
          Ok {| dt := time_logged; channel := channel;
                username := username; message := message |}
        | _ => Raise ValueError
        end
      end).
Proof.
  unfold record_body. rewrite first_split, rejoin_split. reflexivity.
Qed.

Lemma record_body_ok (line : str) (d : ParsedMessage) :
  record_body line = Ok d <->
  strptime (strip (before_sep line)) datefmt = Ok (dt d)
  /\ exists found,
       search privmsg_re (strip (after_sep line)) = Some found
       /\ groups found = [username d; channel d; message d].
Proof.
  rewrite record_body_stages. split.
  - intros H. destruct (strptime _ _) as [t|e]; [|discriminate]. simpl in H.
    destruct (search _ _) as [found|] eqn:S; [|discriminate].
    destruct (groups found) as [|u [|c [|m [|? ?]]]] eqn:G; try discriminate.
    injection H as <-. simpl. eauto.
  - intros [T (found & S & G)]. rewrite T, S, G. simpl.
    destruct d. reflexivity.
Qed.

(** ** The loop over the records *)

Lemma fold_try_record (lines : list str) (data : list ParsedMessage) :
  fold_left try_record lines data = data ++ flat_map rows_of lines.
Proof.
  revert data. induction lines as [|l lines IH]; intros data; simpl.
  - symmetry. apply app_nil_r.
  - rewrite IH. unfold try_record, rows_of.
    destruct (record_body l); simpl; [rewrite <- app_assoc|]; reflexivity.
Qed.

(* ================================================================== *)
(** * The parser: [get_chat_dataframe] *)
(* ================================================================== *)

Lemma get_chat_dataframe_rows (file : string) (fs : filesystem) :
  get_chat_dataframe file fs
  = (bind (read_text file fs) (fun content =>
       Ok (flat_map rows_of (split content [newline; newline; newline]))),
     fs).
Proof.
  unfold get_chat_dataframe. destruct (read_text file fs); simpl;
    [rewrite fold_try_record|]; reflexivity.
Qed.

Lemma in_rows_of (line : str) (d : ParsedMessage) :
  In d (rows_of line) <-> record_body line = Ok d.
Proof.
  unfold rows_of. destruct (record_body line) as [d'|e]; simpl.
  - split; [intros [->|[]]; reflexivity | intros H; injection H as ->; auto].
  - split; [intros [] | discriminate].
Qed.

(** C1. A log whose whole content is the record
    "2018-12-10_11:26:40 — :alice!alice@alice.tmi.twitch.tv PRIVMSG #ninja :hello world"
    followed by three newlines parses to exactly one row: timestamp
    2018-12-10T11:26:40, channel "ninja", username "alice", message
    "hello world". The first conjunct spells out the text that the bytes
    of the file decode to. *)
Theorem C1_round_trip_single_record (file : string) :
  decode round_trip_log
  = Ok (lit "2018-12-10_11:26:40 " ++ [em_dash]
          ++ lit " :alice!alice@alice.tmi.twitch.tv PRIVMSG #ninja :hello world"
          ++ [newline; newline; newline])
  /\ fst (get_chat_dataframe file (single_file file round_trip_log))
     = Ok [ {| dt := {| year := 2018; month := 12; day := 10;
                        hour := 11; minute := 26; second := 40 |};
               channel := lit "ninja";
               username := lit "alice";
               message := lit "hello world" |} ].
Proof.
  split; [vm_compute; reflexivity|].
  unfold get_chat_dataframe, read_text, single_file.
  rewrite String.eqb_refl. vm_compute. reflexivity.
Qed.

(** C9. Reading the same file twice gives the same frame: the call
    leaves the file system as it found it, a second call on what the
    first one left returns the same result, and the rows stand in the
    order of the records of the file. *)
Theorem C9_parse_twice_same_rows (file : string) (fs : filesystem) :
  let first_call := get_chat_dataframe file fs in
  let second_call := get_chat_dataframe file (snd first_call) in
  snd first_call = fs
  /\ fst second_call = fst first_call
  /\ snd second_call = fs
  /\ forall content,
       read_text file fs = Ok content ->
       fst first_call
       = Ok (flat_map rows_of (split content [newline; newline; newline])).
Proof.
  cbv zeta. rewrite !get_chat_dataframe_rows. cbn [fst snd].
  repeat split; try reflexivity.
  intros content R. rewrite R. reflexivity.
Qed.

Lemma after_sep_absent (line : str) :
  ~ In em_dash line -> after_sep line = [].
Proof.
  induction line as [|c s IH]; intros N; [reflexivity|].
  cbn [after_sep]. destruct (N.eqb_spec c em_dash) as [->|_].
  - exfalso. apply N. left. reflexivity.
  - apply IH. intros I. apply N. right. exact I.
Qed.

Lemma rows_of_raise (line : str) (e : exn) :
  record_body line = Raise e -> rows_of line = [].
Proof. unfold rows_of. intros ->. reflexivity. Qed.

(** C2, as stated, fails: [f.read()] stands outside the [try], so a file
    that is not valid UTF-8 makes the call raise [UnicodeDecodeError]
    instead of returning a frame. *)
Lemma C2_counterexample_undecodable_file :
  fst (get_chat_dataframe "chat.log" (single_file "chat.log" undecodable_log))
  = Raise UnicodeDecodeError.
Proof. vm_compute. reflexivity. Qed.

(** C2, amended. For every file whose content decodes as UTF-8 the call
    returns a frame and does not raise. Every failure inside a record
    drops that record: a timestamp that does not parse, a record without
    the separator glyph, a text that the pattern does not match. A row
    of the frame always carries the parsed timestamp and the three
    groups of a successful match: no record is emitted in part. *)
Theorem C2_decodable_file_never_raises
        (file : string) (fs : filesystem) (content : bytes) (s : str) :
  fs file = Some content ->
  decode content = Ok s ->
  fst (get_chat_dataframe file fs)
  = Ok (flat_map rows_of
          (split (universal_newlines s) [newline; newline; newline]))
  /\ (forall line e,
        strptime (strip (before_sep line)) datefmt = Raise e ->
        rows_of line = [])
  /\ (forall line, ~ In em_dash line -> rows_of line = [])
  /\ (forall line,
        search privmsg_re (strip (after_sep line)) = None ->
        rows_of line = [])
  /\ (forall line d,
        In d (rows_of line) ->
        rows_of line = [d]
        /\ strptime (strip (before_sep line)) datefmt = Ok (dt d)
        /\ exists found,
             search privmsg_re (strip (after_sep line)) = Some found
             /\ groups found = [username d; channel d; message d]).
Proof.
  intros F D. rewrite get_chat_dataframe_rows. unfold read_text.
  rewrite F, D. cbn [bind fst]. split; [reflexivity|].
  split; [|split; [|split]].
  - intros line e T. apply (rows_of_raise line e).
    rewrite record_body_stages, T. reflexivity.
  - intros line N. unfold rows_of. rewrite record_body_stages.
    rewrite (after_sep_absent line N).
    destruct (strptime _ _); reflexivity.
  - intros line S. unfold rows_of. rewrite record_body_stages, S.
    destruct (strptime _ _); reflexivity.
  - intros line d I. pose proof I as R. apply in_rows_of in R.
    split.
    + unfold rows_of. rewrite R. reflexivity.
    + apply record_body_ok. exact R.
Qed.

Lemma C2_witness_round_trip_log :
  single_file "chat.log" round_trip_log "chat.log"%string
  = Some round_trip_log
  /\ fst (get_chat_dataframe "chat.log"
            (single_file "chat.log" round_trip_log))
     = Ok (flat_map rows_of
             (split (universal_newlines
                       (lit "2018-12-10_11:26:40 " ++ [em_dash]
                          ++ lit " :alice!alice@alice.tmi.twitch.tv PRIVMSG #ninja :hello world"
                          ++ [newline; newline; newline]))
                    [newline; newline; newline])).
Proof.
  split; [reflexivity|].
  apply (C2_decodable_file_never_raises
           "chat.log" (single_file "chat.log" round_trip_log)
           round_trip_log _ eq_refl).
  vm_compute. reflexivity.
Defined.

Lemma strptime_valid (data_string format : str) (t : datetime) :
  strptime data_string format = Ok t -> valid t = true.
Proof.
  unfold strptime. destruct (pattern format) as [p|]; [|discriminate].
  cbn [bind]. destruct (match_ (snd p) data_string) as [found|];
    [|discriminate].
  destruct (rest found); [|discriminate].
  destruct (fill _ _ _) as [t'|]; [|discriminate]. cbn [bind].
  destruct (valid t') eqn:V; [|discriminate].
  intros H. injection H as <-. exact V.
Qed.

(** C5, as stated, fails: the groups of the pattern are [.*], which also
    match the empty text, and nothing after the match looks at their
    length. A record with an empty message, and one with all three
    fields empty, are emitted. *)
Lemma C5_counterexample_empty_fields :
  fst (get_chat_dataframe "chat.log" (single_file "chat.log" empty_message_log))
  = Ok [ {| dt := {| year := 2018; month := 12; day := 10;
                     hour := 11; minute := 26; second := 40 |};
            channel := lit "ninja"; username := lit "alice";
            message := [] |} ]
  /\ fst (get_chat_dataframe "chat.log"
            (single_file "chat.log" empty_fields_log))
     = Ok [ {| dt := {| year := 2018; month := 12; day := 10;
                        hour := 11; minute := 26; second := 40 |};
               channel := []; username := []; message := [] |} ].
Proof. split; vm_compute; reflexivity. Qed.

(** C5, amended. Every row of the frame comes from one record of the
    file; its timestamp is the text before the first separator glyph,
    trimmed, parsed under the format "%Y-%m-%d_%H:%M:%S", and is a date
    that exists; its username, channel and message are the three groups
    of a match of the pattern, they hold no newline and may be empty. A
    record whose timestamp does not parse, or that the pattern does not
    match, gives no row. *)
Theorem C5_emitted_rows_invariant
        (file : string) (fs : filesystem) (rows : list ParsedMessage)
        (d : ParsedMessage) :
  fst (get_chat_dataframe file fs) = Ok rows ->
  In d rows ->
  (exists content line,
      read_text file fs = Ok content
      /\ In line (split content [newline; newline; newline])
      /\ record_body line = Ok d
      /\ strptime (strip (before_sep line)) datefmt = Ok (dt d)
      /\ exists found,
           search privmsg_re (strip (after_sep line)) = Some found
           /\ groups found = [username d; channel d; message d])
  /\ valid (dt d) = true
  /\ no_newline (username d)
  /\ no_newline (channel d)
  /\ no_newline (message d)
  /\ (forall line e, record_body line = Raise e -> rows_of line = []).
Proof.
  rewrite get_chat_dataframe_rows. cbn [fst]. intros G I.
  destruct (read_text file fs) as [content|] eqn:R; [|discriminate].
  cbn [bind] in G. injection G as <-.
  apply in_flat_map in I. destruct I as (line & L & I).
  apply in_rows_of in I. pose proof I as B.
  apply record_body_ok in B. destruct B as (T & found & S & G).
  destruct (privmsg_search_sound _ _ S)
    as (b & u & x & y & c & msg & _ & G' & (Fu & _ & _ & Fc & Fm) & _).
  rewrite G in G'. injection G' as Eu Ec Em.
  split; [exists content, line; eauto 8|].
  split; [exact (strptime_valid _ _ _ T)|].
  rewrite Eu, Ec, Em. repeat split; auto.
  apply rows_of_raise.
Qed.

Lemma C5_witness_round_trip_log :
  let d := {| dt := {| year := 2018; month := 12; day := 10;
                       hour := 11; minute := 26; second := 40 |};
              channel := lit "ninja"; username := lit "alice";
              message := lit "hello world" |} in
  fst (get_chat_dataframe "chat.log" (single_file "chat.log" round_trip_log))
  = Ok [d]
  /\ In d [d]
  /\ valid (dt d) = true
  /\ no_newline (username d)
  /\ no_newline (channel d)
  /\ no_newline (message d).
Proof.
  cbv zeta.
  assert (G : fst (get_chat_dataframe "chat.log"
                     (single_file "chat.log" round_trip_log))
              = Ok [ {| dt := {| year := 2018; month := 12; day := 10;
                                 hour := 11; minute := 26; second := 40 |};
                        channel := lit "ninja"; username := lit "alice";
                        message := lit "hello world" |} ])
    by (vm_compute; reflexivity).
  split; [exact G|]. split; [left; reflexivity|].
  destruct (C5_emitted_rows_invariant _ _ _ _ G (or_introl eq_refl))
    as (_ & V & Fu & Fc & Fm & _).
  auto.
Defined.

(** C6, as stated, fails: the function does not take the first
    whitespace-delimited token but everything before the first separator
    glyph. The first record has a valid timestamp as its first token and
    a text that the pattern matches, and is dropped at the timestamp
    step; the second has a first token that is no timestamp, and is
    kept. *)
Lemma C6_counterexample_token_before_glyph :
  bind (first_token junk_before_glyph) (fun token => strptime token datefmt)
  = Ok time_11_26_40
  /\ option_map groups
       (search privmsg_re (strip (after_sep junk_before_glyph)))
     = Some [lit "alice"; lit "ninja"; lit "hi"]
  /\ strip (before_sep junk_before_glyph) = lit "2018-12-10_11:26:40 junk"
  /\ record_body junk_before_glyph = Raise ValueError
  /\ rows_of junk_before_glyph = []
  /\ bind (first_token glyph_glued_to_time)
          (fun token => strptime token datefmt)
     = Raise ValueError
  /\ rows_of glyph_glued_to_time
     = [ {| dt := time_11_26_40; channel := lit "ninja";
            username := lit "alice"; message := lit "hi" |} ].
Proof. repeat split; vm_compute; reflexivity. Qed.

(** C6, amended. For every candidate record the timestamp is taken from
    the text before the first separator glyph (the whole record when it
    holds none), trimmed of surrounding whitespace, and parsed with the
    fixed pattern; if that fails the record is dropped without a trace,
    and if it parses the record goes on to the pattern, whatever its
    first whitespace-delimited token is. *)
Theorem C6_timestamp_is_text_before_glyph (line : str) :
  first (split line [em_dash]) = Ok (before_sep line)
  /\ (forall head tail,
        line = head ++ em_dash :: tail -> ~ In em_dash head ->
        before_sep line = head)
  /\ (forall e,
        strptime (strip (before_sep line)) datefmt = Raise e ->
        record_body line = Raise e /\ rows_of line = []
        /\ forall data, try_record data line = data)
  /\ (forall time_logged,
        strptime (strip (before_sep line)) datefmt = Ok time_logged ->
        record_body line
        = match search privmsg_re (strip (after_sep line)) with
          | None => Raise AttributeError
          | Some found =>
            match groups found with
            | [username; channel; message] =>
              Ok {| dt := time_logged; channel := channel;
                    username := username; message := message |}
            | _ => Raise ValueError
            end
          end).
Proof.
  split; [apply first_split|]. split; [|split].
  - intros head tail -> N. apply before_sep_app, N.
  - intros e T.
    assert (R : record_body line = Raise e)
      by (rewrite record_body_stages, T; reflexivity).
    split; [exact R|]. split; [exact (rows_of_raise _ _ R)|].
    intros data. unfold try_record. rewrite R. reflexivity.
  - intros t T. rewrite record_body_stages, T. reflexivity.
Qed.




Lemma contains_inv (l s : str) :
  contains l s = true -> exists a b, s = a ++ l ++ b.
Proof.
  induction s as [|c s IH]; simpl; intros H.
  - rewrite orb_false_r in H. destruct (startswith_inv _ _ H) as [r E].
    exists [], r. exact E.
  - apply orb_true_iff in H. destruct H as [H|H].
    + destruct (startswith_inv _ _ H) as [r E]. exists [], r. exact E.
    + destruct (IH H) as (a & b & ->). exists (c :: a), b. reflexivity.
Qed.

(** When the text after a " :" holds no " :" itself, no occurrence of
    " :" starts later than that one. *)
Lemma last_colon (c msg : str) :
  (forall a b, msg <> a ++ lit " :" ++ b) ->
  forall p q,
    c ++ lit " :" ++ msg = p ++ lit " :" ++ q ->
    (length p <= length c)%nat.
Proof.
  intros N p q E.
  destruct (le_lt_dec (length p) (length c)) as [L|L]; [exact L|].
  exfalso.
  destruct (longer_prefix _ _ _ _ _ E L) as (h & t & _ & E').
  injection E' as _ E'.
  destruct (suffix_past _ (lit ":") msg t _ _ _ E' eq_refl) as [b1 Eb].
  - intros [Q|[]]. discriminate Q.
  - exact (N b1 q Eb).
Qed.

(** C10. The groups of the pattern are greedy. Whenever the pattern is
    found in a text, the match lies on one line; the channel group ends
    just before the last " :" of that line: the message group, which
    runs from there to the end of the line, holds no " :" itself, and
    no " :" of the line starts after the one that ends the channel. So
    there is a well-formed chat line, with a Twitch channel name and a
    body that holds " :", for which the channel of the row is the name
    followed by a piece of the body, and the message of the row is a
    proper end piece of the body. *)
Theorem C10_greedy_groups_cut_at_last_colon
        (username_message : str) (found : match_object) :
  search privmsg_re username_message = Some found ->
  (exists before u x y c msg,
      username_message = before ++ privmsg u x y c msg ++ rest found
      /\ groups found = [u; c; msg]
      /\ no_newline c /\ no_newline msg
      /\ (rest found = [] \/ exists t, rest found = newline :: t)
      /\ contains (lit " :") msg = false
      /\ forall p q,
           c ++ lit " :" ++ msg = p ++ lit " :" ++ q ->
           (length p <= length c)%nat)
  /\ (exists c body d cut,
         twitch_name c
         /\ contains (lit " :") body = true
         /\ record_body (lit "2018-12-10_11:26:40 " ++ [em_dash] ++ lit " "
                           ++ privmsg (lit "alice") (lit "alice")
                                      (lit "alice") c body)
            = Ok d
         /\ cut <> []
         /\ body = cut ++ lit " :" ++ message d
         /\ channel d = c ++ lit " :" ++ cut).
Proof.
  intros S. split.
  - destruct (privmsg_search_sound _ _ S)
      as (b & u & x & y & c & msg & E & G & (_ & _ & _ & Fc & Fm) & L & N).
    exists b, u, x, y, c, msg.
    split; [exact E|]. split; [exact G|]. split; [exact Fc|].
    split; [exact Fm|]. split; [exact L|]. split; [|exact (last_colon c msg N)].
    destruct (contains (lit " :") msg) eqn:C; [|reflexivity].
    destruct (contains_inv _ _ C) as (a & r & Em).
    exfalso. exact (N a r Em).
  - exists (lit "ninja"), (lit "see this :) ok"),
      {| dt := time_11_26_40; channel := lit "ninja :see this";
         username := lit "alice"; message := lit ") ok" |},
      (lit "see this").
    repeat split; try (vm_compute; reflexivity). discriminate.
Qed.

Lemma C10_witness_smiley :
  search privmsg_re smiley_line
  = Some {| groups := [lit "alice"; lit "ninja :look"; lit ") nice"];
            rest := [] |}
  /\ contains (lit " :") (lit ") nice") = false.
Proof.
  assert (S : search privmsg_re smiley_line
              = Some {| groups := [lit "alice"; lit "ninja :look";
                                   lit ") nice"];
                        rest := [] |})
    by (vm_compute; reflexivity).
  split; [exact S|].
  destruct (C10_greedy_groups_cut_at_last_colon _ _ S)
    as [(b & u & x & y & c & msg & _ & G & _ & _ & _ & C & _) _].
  cbn [groups] in G. injection G as _ _ <-. exact C.
Defined.

(* ================================================================== *)
(** * The receive loop *)
(* ================================================================== *)

Lemma loop_body_decoded (demojize : str -> str) (t : tick) (w : world)
      (chunk : bytes) (resp : str) :
  recv t = Ok chunk -> decode chunk = Ok resp ->
  loop_body demojize t w
  = if startswith resp (lit "PING") then
      (sock_send (encode (lit "PONG" ++ [newline])) w,
       match send_raises t with
       | Some e => Throw e
       | None => Next
       end)
    else if (0 <? length resp)%nat then
      (logging_info t (demojize resp) w, Next)
    else (w, Next).
Proof. intros R D. unfold loop_body. rewrite R. cbn [bind]. rewrite D. reflexivity. Qed.

(** C3, as stated, fails: what is logged is [demojize(resp)], not
    [resp]. With the entry of the emoji table that the notebook quotes,
    a chunk that is a thumbs-up sign is logged as ":thumbs_up:", and the
    appended text does not hold the decoded chunk. *)
Lemma C3_counterexample_emoji_rewritten :
  decode thumbs_up_chunk = Ok [0x1F44D%N]
  /\ startswith [0x1F44D%N] (lit "PING") = false
  /\ chat_log (fst (loop_body (demojize_with thumbs_up_only)
                              (read_of thumbs_up_chunk) nothing_yet))
     = [ lit "2018-12-10_11:26:40 " ++ [em_dash] ++ lit " :thumbs_up:"
             ++ [newline] ]
  /\ contains [0x1F44D%N]
       (lit "2018-12-10_11:26:40 " ++ [em_dash] ++ lit " :thumbs_up:"
            ++ [newline])
     = false.
Proof. repeat split; vm_compute; reflexivity. Qed.

(** C3, amended. For every received chunk that decodes to a non-empty
    text which does not start with "PING", the iteration sends nothing
    and appends exactly one record to the log: the time, the separator,
    the text that [demojize] makes of the chunk, and a newline. The
    decoded text stands in it unchanged whenever [demojize] leaves it
    unchanged. *)
Theorem C3_chat_chunk_logged_once
        (demojize : str -> str) (t : tick) (w : world)
        (chunk : bytes) (resp : str) :
  recv t = Ok chunk ->
  decode chunk = Ok resp ->
  resp <> [] ->
  startswith resp (lit "PING") = false ->
  let entry := strftime datefmt (now t) ++ lit " " ++ [em_dash] ++ lit " "
               ++ demojize resp ++ [newline] in
  loop_body demojize t w
  = ({| sent := sent w; chat_log := chat_log w ++ [entry] |}, Next)
  /\ contains (demojize resp) entry = true
  /\ (demojize resp = resp -> contains resp entry = true).
Proof.
  intros R D NE P entry.
  assert (C : contains (demojize resp) entry = true).
  { unfold entry. rewrite !app_assoc. rewrite <- app_assoc.
    apply contains_app. }
  rewrite (loop_body_decoded demojize t w chunk resp R D), P.
  destruct resp as [|c resp]; [contradiction|].
  split; [reflexivity|]. split; [exact C|].
  intros E. rewrite E in C. exact C.
Qed.

Lemma C3_witness_chat_line :
  let chunk := list_byte_of_string
                 ":alice!alice@alice.tmi.twitch.tv PRIVMSG #ninja :hello world"
               ++ [x0d; x0a] in
  let resp := lit ":alice!alice@alice.tmi.twitch.tv PRIVMSG #ninja :hello world"
              ++ [carriage_return; newline] in
  decode chunk = Ok resp
  /\ loop_body (demojize_with thumbs_up_only) (read_of chunk) nothing_yet
     = ({| sent := [];
           chat_log := [ lit "2018-12-10_11:26:40 " ++ [em_dash] ++ lit " "
                             ++ resp ++ [newline] ] |}, Next).
Proof.
  cbv zeta.
  assert (D : decode (list_byte_of_string
                        ":alice!alice@alice.tmi.twitch.tv PRIVMSG #ninja :hello world"
                      ++ [x0d; x0a])
              = Ok (lit ":alice!alice@alice.tmi.twitch.tv PRIVMSG #ninja :hello world"
                      ++ [carriage_return; newline]))
    by (vm_compute; reflexivity).
  split; [exact D|].
  refine (proj1 (C3_chat_chunk_logged_once
                   (demojize_with thumbs_up_only) (read_of _) nothing_yet
                   _ _ eq_refl D _ _)).
  - discriminate.
  - reflexivity.
Defined.

(** C4, as stated, fails: the chunk is decoded before it is looked at,
    and [decode] raises on bytes that are not UTF-8. A chunk that begins
    with the bytes of "PING" and ends inside a character stops the
    iteration with [UnicodeDecodeError]: nothing is sent, no "PONG"
    goes back. *)
Lemma C4_counterexample_ping_cut_inside_character :
  firstn 4 cut_ping_chunk = list_byte_of_string "PING"
  /\ decode cut_ping_chunk = Raise UnicodeDecodeError
  /\ loop_body (demojize_with thumbs_up_only) (read_of cut_ping_chunk)
               nothing_yet
     = (nothing_yet, Throw UnicodeDecodeError)
  /\ sent (fst (loop_body (demojize_with thumbs_up_only)
                          (read_of cut_ping_chunk) nothing_yet))
     = [].
Proof.
  repeat split; vm_compute; reflexivity.
Qed.

(** C4, amended. For every received chunk that decodes as UTF-8 to a
    text that starts with "PING", the iteration calls [sock.send] once,
    with the five bytes of "PONG" and a newline, and appends nothing to
    the log. A chunk that does not decode ends the iteration with the
    exception of [decode], whatever its bytes begin with: nothing is
    sent and nothing is logged. *)
Theorem C4_ping_answered_not_logged
        (demojize : str -> str) (t : tick) (w : world) (chunk : bytes) :
  recv t = Ok chunk ->
  (forall resp,
      decode chunk = Ok resp ->
      startswith resp (lit "PING") = true ->
      sent (fst (loop_body demojize t w))
      = sent w ++ [ [x50; x4f; x4e; x47; x0a] ]
      /\ chat_log (fst (loop_body demojize t w)) = chat_log w)
  /\ (forall e,
        decode chunk = Raise e ->
        loop_body demojize t w = (w, Throw e)).
Proof.
  intros R. split.
  - intros resp D P.
    rewrite (loop_body_decoded demojize t w chunk resp R D), P.
    split; reflexivity.
  - intros e D. unfold loop_body. rewrite R. cbn [bind]. rewrite D.
    reflexivity.
Qed.

Lemma C4_witness_twitch_ping :
  decode ping_chunk = Ok (lit "PING :tmi.twitch.tv" ++ [carriage_return; newline])
  /\ sent (fst (loop_body (demojize_with thumbs_up_only)
                          (read_of ping_chunk) nothing_yet))
     = [ [x50; x4f; x4e; x47; x0a] ]
  /\ chat_log (fst (loop_body (demojize_with thumbs_up_only)
                              (read_of ping_chunk) nothing_yet))
     = [].
Proof.
  assert (D : decode ping_chunk
              = Ok (lit "PING :tmi.twitch.tv" ++ [carriage_return; newline]))
    by (vm_compute; reflexivity).
  split; [exact D|].
  exact (proj1 (C4_ping_answered_not_logged
                  (demojize_with thumbs_up_only) (read_of ping_chunk)
                  nothing_yet ping_chunk eq_refl)
               _ D eq_refl).
Defined.

(** An iteration never leaves the loop through [break]: it goes on to
    the next read, or an exception of [recv], [decode] or [send] gets
    out. *)
Lemma loop_body_signal (demojize : str -> str) (t : tick) (w : world) :
  snd (loop_body demojize t w) = Next
  \/ exists e,
       snd (loop_body demojize t w) = Throw e
       /\ (bind (recv t) decode = Raise e \/ send_raises t = Some e).
Proof.
  unfold loop_body. destruct (bind (recv t) decode) as [resp|e] eqn:B.
  - destruct (startswith resp (lit "PING")).
    + destruct (send_raises t) as [e|]; cbn [snd]; eauto.
    + destruct (0 <? length resp)%nat; cbn [snd]; auto.
  - cbn [snd]. eauto.
Qed.

Lemma receive_loop_status (demojize : str -> str) (ticks : list tick) :
  forall w : world,
    snd (receive_loop demojize ticks w) <> Exited
    /\ forall e,
         snd (receive_loop demojize ticks w) = Failed e ->
         exists t, In t ticks
                   /\ (bind (recv t) decode = Raise e
                       \/ send_raises t = Some e).
Proof.
  unfold receive_loop.
  induction ticks as [|t ticks IH]; intros w; cbn [while_true].
  - split; [discriminate | intros e H; discriminate H].
  - destruct (loop_body_signal demojize t w) as [S|(e & S & C)];
      destruct (loop_body demojize t w) as [w' s]; cbn [snd] in S; subst s.
    + destruct (IH w') as [NE F]. split; [exact NE|].
      intros e H. destruct (F e H) as (t' & I & C). exists t'.
      split; [right; exact I | exact C].
    + cbn [snd]. split; [discriminate|].
      intros e' H. injection H as <-. exists t. split; [left; reflexivity | exact C].
Qed.

(** C7, as stated, fails: a read that returns the empty chunk, which is
    how a closed connection shows, takes neither branch of the [if], and
    the loop goes to the next [recv]. After three such reads it has
    done nothing and is waiting in the fourth. Only a [recv] that raises
    gets the loop out, and then by the exception. *)
Lemma C7_counterexample_closed_connection_spins :
  receive_loop (demojize_with thumbs_up_only)
               [read_of []; read_of []; read_of []] nothing_yet
  = (nothing_yet, Blocked)
  /\ receive_loop (demojize_with thumbs_up_only)
                  [ {| recv := Raise OSError; now := time_11_26_40;
                       send_raises := None |} ] nothing_yet
     = (nothing_yet, Failed OSError).
Proof. split; vm_compute; reflexivity. Qed.

(** C7, amended. Reads that return the empty chunk change nothing and do
    not end the loop, however many they are. The loop has no exit of its
    own: it never leaves through [break], and when it stops, an
    exception of [recv], of [decode] or of [send] in one of its
    iterations has ended it. *)
Theorem C7_loop_ends_only_by_exception
        (demojize : str -> str) (closed : list tick) (w : world) :
  Forall (fun t => recv t = Ok []) closed ->
  receive_loop demojize closed w = (w, Blocked)
  /\ forall ticks w0,
       snd (receive_loop demojize ticks w0) <> Exited
       /\ forall e,
            snd (receive_loop demojize ticks w0) = Failed e ->
            exists t, In t ticks
                      /\ (bind (recv t) decode = Raise e
                          \/ send_raises t = Some e).
Proof.
  intros C. split; [|intros ticks w0; apply receive_loop_status].
  unfold receive_loop. induction C as [|t closed R _ IH]; [reflexivity|].
  cbn [while_true]. unfold loop_body at 1. rewrite R. exact IH.
Qed.

Lemma C7_witness_two_empty_reads :
  let answered := {| sent := [ [x50; x4f; x4e; x47; x0a] ]; chat_log := [] |} in
  Forall (fun t => recv t = Ok []) [read_of []; read_of []]
  /\ receive_loop (demojize_with thumbs_up_only)
                  [read_of []; read_of []] answered
     = (answered, Blocked).
Proof.
  cbv zeta.
  assert (C : Forall (fun t => recv t = Ok []) [read_of []; read_of []])
    by (repeat constructor).
  split; [exact C|].
  exact (proj1 (C7_loop_ends_only_by_exception
                  (demojize_with thumbs_up_only) _ _ C)).
Defined.

(* ================================================================== *)
(** * Further facts about the built-ins *)
(* ================================================================== *)

#[local] Open Scope N_scope.

(** ** UTF-8, there and back *)

Lemma between_spec (lo hi x : N) :
  between lo hi x = true <-> lo <= x /\ x <= hi.
Proof.
  unfold between. rewrite andb_true_iff, !N.leb_le. reflexivity.
Qed.

Ltac divmod c k :=
  pose proof (N.div_mod c k ltac:(discriminate));
  pose proof (N.mod_lt c k ltac:(discriminate)).

(** [lia] once every quotient and remainder is read as a number of its
    own, tied to the others by the facts that [divmod] has added. *)
Ltac arith :=
  repeat (match goal with
          | |- context [N.div ?a ?b] => generalize dependent (N.div a b)
          | |- context [N.modulo ?a ?b] =>
            generalize dependent (N.modulo a b)
          | H : context [N.div ?a ?b] |- _ =>
            generalize dependent (N.div a b)
          | H : context [N.modulo ?a ?b] |- _ =>
            generalize dependent (N.modulo a b)
          end; intros);
  lia.

Ltac bool_cases :=
  repeat match goal with
  | |- context [?a =? ?b] =>
    destruct (N.eqb_spec a b); try (exfalso; lia)
  | |- context [?a <? ?b] =>
    destruct (N.ltb_spec a b); try (exfalso; lia)
  | |- context [?a <=? ?b] =>
    destruct (N.leb_spec a b); try (exfalso; lia)
  end.

Lemma utf8_decode_N_cons (b0 : N) (t0 : list N) :
  utf8_decode_N (b0 :: t0)
  = if b0 <? 0x80 then option_map (cons b0) (utf8_decode_N t0)
    else if between 0xC2 0xDF b0 then
      match t0 with
      | b1 :: t1 =>
        if is_cont b1
        then option_map (cons ((b0 - 0xC0) * 64 + (b1 - 0x80)))
                        (utf8_decode_N t1)
        else None
      | _ => None
      end
    else if between 0xE0 0xEF b0 then
      match t0 with
      | b1 :: b2 :: t2 =>
        if between (second_lo b0) (second_hi b0) b1 && is_cont b2
        then option_map
               (cons ((b0 - 0xE0) * 4096 + (b1 - 0x80) * 64 + (b2 - 0x80)))
               (utf8_decode_N t2)
        else None
      | _ => None
      end
    else if between 0xF0 0xF4 b0 then
      match t0 with
      | b1 :: b2 :: b3 :: t3 =>
        if between (second_lo b0) (second_hi b0) b1
           && is_cont b2 && is_cont b3
        then option_map
               (cons ((b0 - 0xF0) * 262144 + (b1 - 0x80) * 4096
                      + (b2 - 0x80) * 64 + (b3 - 0x80)))
               (utf8_decode_N t3)
        else None
      | _ => None
      end
    else None.
Proof. reflexivity. Qed.

Lemma decode_1 (b0 : N) (t : list N) :
  b0 < 0x80 ->
  utf8_decode_N (b0 :: t) = option_map (cons b0) (utf8_decode_N t).
Proof.
  intros H. rewrite utf8_decode_N_cons. apply N.ltb_lt in H. rewrite H. reflexivity.
Qed.

Lemma decode_2 (b0 b1 : N) (t : list N) :
  0xC2 <= b0 <= 0xDF -> 0x80 <= b1 <= 0xBF ->
  utf8_decode_N (b0 :: b1 :: t)
  = option_map (cons ((b0 - 0xC0) * 64 + (b1 - 0x80))) (utf8_decode_N t).
Proof.
  intros H0 H1. rewrite utf8_decode_N_cons. unfold is_cont, between.
  bool_cases; reflexivity.
Qed.

Lemma decode_3 (b0 b1 b2 : N) (t : list N) :
  0xE0 <= b0 <= 0xEF ->
  (b0 = 0xE0 -> 0xA0 <= b1) -> (b0 = 0xED -> b1 <= 0x9F) ->
  0x80 <= b1 <= 0xBF -> 0x80 <= b2 <= 0xBF ->
  utf8_decode_N (b0 :: b1 :: b2 :: t)
  = option_map
      (cons ((b0 - 0xE0) * 4096 + (b1 - 0x80) * 64 + (b2 - 0x80)))
      (utf8_decode_N t).
Proof.
  intros H0 Hlo Hhi H1 H2. rewrite utf8_decode_N_cons.
  unfold is_cont, between, second_lo, second_hi.
  bool_cases; reflexivity.
Qed.

Lemma decode_4 (b0 b1 b2 b3 : N) (t : list N) :
  0xF0 <= b0 <= 0xF4 ->
  (b0 = 0xF0 -> 0x90 <= b1) -> (b0 = 0xF4 -> b1 <= 0x8F) ->
  0x80 <= b1 <= 0xBF -> 0x80 <= b2 <= 0xBF -> 0x80 <= b3 <= 0xBF ->
  utf8_decode_N (b0 :: b1 :: b2 :: b3 :: t)
  = option_map
      (cons ((b0 - 0xF0) * 262144 + (b1 - 0x80) * 4096
             + (b2 - 0x80) * 64 + (b3 - 0x80)))
      (utf8_decode_N t).
Proof.
  intros H0 Hlo Hhi H1 H2 H3. rewrite utf8_decode_N_cons.
  unfold is_cont, between, second_lo, second_hi.
  bool_cases; reflexivity.
Qed.

Lemma utf8_char_round_trip (c : char) (t : list N) :
  scalar c = true ->
  exists bs,
    utf8_encode_char c = Some bs
    /\ Forall (fun b => b < 256) bs
    /\ utf8_decode_N (bs ++ t) = option_map (cons c) (utf8_decode_N t).
Proof.
  unfold scalar, utf8_encode_char. intros S.
  apply orb_true_iff in S. rewrite between_spec, N.ltb_lt in S.
  destruct (N.ltb_spec c 0x80).
  { exists [c]. split; [reflexivity|]. split; [repeat (apply Forall_cons; [cbv beta; arith|]); apply Forall_nil|].
    apply decode_1. assumption. }
  destruct (N.ltb_spec c 0x800).
  { eexists. split; [reflexivity|]. divmod c 64.
    split; [repeat (apply Forall_cons; [cbv beta; arith|]); apply Forall_nil|].
    cbn [app]. rewrite decode_2 by arith. f_equal. f_equal. arith. }
  destruct (between 0xD800 0xDFFF c) eqn:B.
  { apply between_spec in B. lia. }
  assert (NB : ~ (0xD800 <= c <= 0xDFFF))
    by (intros Q; apply between_spec in Q; congruence).
  destruct (N.ltb_spec c 0x10000).
  { eexists. split; [reflexivity|].
    divmod c 4096. divmod c 64. divmod (c / 64) 64.
    assert (c / 4096 = c / 64 / 64)
      by (rewrite N.Div0.div_div; reflexivity).
    split; [repeat (apply Forall_cons; [cbv beta; arith|]); apply Forall_nil|].
    cbn [app]. rewrite decode_3 by arith. f_equal. f_equal. arith. }
  destruct (N.ltb_spec c 0x110000); [|lia].
  eexists. split; [reflexivity|].
  divmod c 262144. divmod c 4096. divmod c 64.
  divmod (c / 64) 64. divmod (c / 4096) 64.
  assert (c / 4096 = c / 64 / 64)
    by (rewrite N.Div0.div_div; reflexivity).
  assert (c / 262144 = c / 4096 / 64)
    by (rewrite N.Div0.div_div; reflexivity).
  split; [repeat (apply Forall_cons; [cbv beta; arith|]); apply Forall_nil|].
  cbn [app]. rewrite decode_4 by arith. f_equal. f_equal. arith.
Qed.

Lemma utf8_round_trip (s : str) :
  forallb scalar s = true ->
  exists bs,
    utf8_encode_N s = Some bs
    /\ Forall (fun b => b < 256) bs
    /\ forall t,
         utf8_decode_N (bs ++ t) = option_map (app s) (utf8_decode_N t).
Proof.
  induction s as [|c s IH]; intros S.
  - exists []. repeat split; [constructor|].
    intros t. cbn [app]. destruct (utf8_decode_N t); reflexivity.
  - cbn [forallb] in S. apply andb_true_iff in S as [Sc S].
    destruct (IH S) as (bs & E & F & D).
    destruct (utf8_char_round_trip c [] Sc) as (b & Eb & Fb & _).
    exists (b ++ bs). cbn [utf8_encode_N]. rewrite Eb, E.
    split; [reflexivity|]. split; [apply Forall_app; auto|].
    intros t. rewrite <- app_assoc.
    destruct (utf8_char_round_trip c (bs ++ t) Sc) as (b' & Eb' & _ & Db).
    rewrite Eb in Eb'. injection Eb' as <-. rewrite Db, D.
    destruct (utf8_decode_N t); reflexivity.
Qed.

Lemma bytes_back (bs : list N) :
  Forall (fun b => b < 256) bs -> map Byte.to_N (map byte_of_N bs) = bs.
Proof.
  induction 1 as [|b bs L _ IH]; [reflexivity|]. cbn [map]. rewrite IH.
  f_equal. unfold byte_of_N.
  destruct (Byte.of_N b) as [y|] eqn:E.
  - apply Byte.to_of_N. exact E.
  - apply Byte.of_N_None_iff in E. lia.
Qed.

(** What [encode] writes, [decode] reads back. *)
Lemma decode_encode (s : str) :
  forallb scalar s = true -> decode (encode s) = Ok s.
Proof.
  intros S. destruct (utf8_round_trip s S) as (bs & E & F & D).
  unfold decode, encode. rewrite E, (bytes_back bs F).
  specialize (D []). rewrite app_nil_r in D. rewrite D. cbn.
  rewrite app_nil_r. reflexivity.
Qed.

Lemma encode_app (a b : str) :
  forallb scalar a = true -> forallb scalar b = true ->
  encode (a ++ b) = encode a ++ encode b.
Proof.
  intros A B. unfold encode.
  destruct (utf8_round_trip a A) as (ba & Ea & _ & _).
  destruct (utf8_round_trip b B) as (bb & Eb & _ & _).
  assert (E : utf8_encode_N (a ++ b) = Some (ba ++ bb)).
  { clear A B. revert ba Ea. induction a as [|c a IH]; intros ba Ea.
    - injection Ea as <-. exact Eb.
    - cbn [app utf8_encode_N] in *.
      destruct (utf8_encode_char c) as [bc|]; [|discriminate].
      destruct (utf8_encode_N a) as [ba'|]; [|discriminate].
      injection Ea as <-. rewrite (IH ba' eq_refl).
      rewrite app_assoc. reflexivity. }
  rewrite E, Ea, Eb. apply map_app.
Qed.

(** ** A chunk that ends inside a character *)

Lemma not_cont (b : N) : 0xC0 <= b -> is_cont b = false.
Proof.
  intros H. unfold is_cont, between.
  destruct (N.leb_spec b 0xBF); [lia|]. apply andb_false_r.
Qed.

Lemma not_second (b0 b : N) :
  0xC0 <= b -> between (second_lo b0) (second_hi b0) b = false.
Proof.
  intros H. unfold between, second_hi.
  destruct (b0 =? 0xED); [|destruct (b0 =? 0xF4)];
    match goal with
    | |- context [b <=? ?h] => destruct (N.leb_spec b h); [lia|]
    end;
    apply andb_false_r.
Qed.

Lemma decode_incomplete (cut : list N) :
  incomplete cut = true ->
  forall n bs, (length bs <= n)%nat -> utf8_decode_N (bs ++ cut) = None.
Proof.
  intros I.
  assert (H : exists l r, cut = l :: r /\ 0xC0 <= l).
  { destruct cut as [|l [|c1 [|c2 [|c3 r]]]]; try discriminate;
      cbn [incomplete] in I; exists l; eexists; (split; [reflexivity|]).
    - apply N.leb_le in I. exact I.
    - apply andb_true_iff in I as [I _]. apply N.leb_le in I. lia.
    - apply andb_true_iff in I as [I _]. apply andb_true_iff in I as [I _].
      apply N.leb_le in I. lia. }
  destruct H as (l & r & E & L).
  assert (Base : utf8_decode_N cut = None).
  { destruct cut as [|l' [|c1 [|c2 [|c3 r']]]]; try discriminate;
      cbn [incomplete] in I; rewrite utf8_decode_N_cons;
      injection E as -> _.
    - destruct (N.ltb_spec l 128); [lia|].
      repeat match goal with
             | |- context [if ?b then _ else _] => destruct b
             end; reflexivity.
    - apply andb_true_iff in I as [I _]. apply N.leb_le in I.
      destruct (N.ltb_spec l 128); [lia|].
      unfold between at 1. destruct (N.leb_spec l 0xDF); [lia|].
      rewrite andb_false_r.
      repeat match goal with
             | |- context [if ?b then _ else _] => destruct b
             end; reflexivity.
    - apply andb_true_iff in I as [I _]. apply andb_true_iff in I as [I _].
      apply N.leb_le in I.
      destruct (N.ltb_spec l 128); [lia|].
      unfold between at 1. destruct (N.leb_spec l 0xDF); [lia|].
      rewrite andb_false_r.
      unfold between at 1. destruct (N.leb_spec l 0xEF); [lia|].
      rewrite andb_false_r.
      repeat match goal with
             | |- context [if ?b then _ else _] => destruct b
             end; reflexivity. }
  induction n as [|n IH]; intros bs B.
  - destruct bs; [exact Base | cbn [length] in B; lia].
  - destruct bs as [|b0 t0]; [exact Base|].
    cbn [length] in B. cbn [app]. rewrite utf8_decode_N_cons.
    destruct (b0 <? 128).
    { rewrite IH by lia. reflexivity. }
    destruct (between 194 223 b0).
    { destruct t0 as [|b1 t1]; cbn [app length] in *.
      - rewrite E, (not_cont l L). reflexivity.
      - destruct (is_cont b1); [|reflexivity].
        rewrite IH by lia. reflexivity. }
    destruct (between 224 239 b0).
    { destruct t0 as [|b1 [|b2 t2]]; cbn [app length] in *.
      - rewrite E. destruct r as [|c1 r]; [reflexivity|].
        rewrite (not_second b0 l L). reflexivity.
      - rewrite E, (not_cont l L), andb_false_r. reflexivity.
      - destruct (between (second_lo b0) (second_hi b0) b1 && is_cont b2);
          [|reflexivity].
        rewrite IH by lia. reflexivity. }
    destruct (between 240 244 b0); [|reflexivity].
    destruct t0 as [|b1 [|b2 [|b3 t3]]]; cbn [app length] in *.
    + rewrite E. destruct r as [|c1 [|c2 r]]; try reflexivity.
      rewrite (not_second b0 l L). reflexivity.
    + rewrite E. destruct r as [|c1 r]; [reflexivity|].
      rewrite (not_cont l L), andb_false_r. reflexivity.
    + rewrite E, (not_cont l L), andb_false_r. reflexivity.
    + destruct (between (second_lo b0) (second_hi b0) b1
                && is_cont b2 && is_cont b3); [|reflexivity].
      rewrite IH by lia. reflexivity.
Qed.

Lemma Some_inj (A : Type) (a b : A) : Some a = Some b -> a = b.
Proof. congruence. Qed.

(** The bytes of one character, cut short, are incomplete. *)
Lemma encode_cut (c : char) (e : list N) (k : nat) :
  utf8_encode_char c = Some e -> (0 < k < length e)%nat ->
  incomplete (firstn k e) = true.
Proof.
  unfold utf8_encode_char. intros E K.
  divmod c 64. divmod (c / 64) 64. divmod (c / 4096) 64.
  destruct (N.ltb_spec c 128).
  { apply Some_inj in E; subst e. cbn [length] in K. lia. }
  destruct (N.ltb_spec c 2048).
  { apply Some_inj in E; subst e. cbn [length] in K.
    assert (k = 1%nat) as -> by lia. cbv beta iota delta [firstn incomplete].
    rewrite N.leb_le. arith. }
  destruct (between 55296 57343 c); [discriminate|].
  destruct (N.ltb_spec c 65536).
  { apply Some_inj in E; subst e. cbn [length] in K.
    assert (k = 1 \/ k = 2)%nat as [-> | ->] by lia;
      cbv beta iota delta [firstn incomplete]; unfold is_cont;
      rewrite ?andb_true_iff, ?between_spec, ?N.leb_le; repeat split; arith. }
  destruct (N.ltb_spec c 1114112); [|discriminate].
  apply Some_inj in E; subst e. cbn [length] in K.
  assert (k = 1 \/ k = 2 \/ k = 3)%nat as [-> | [-> | ->]] by lia;
    cbv beta iota delta [firstn incomplete]; unfold is_cont;
    rewrite ?andb_true_iff, ?between_spec, ?N.leb_le; repeat split; arith.
Qed.

Lemma decode_cut (before : bytes) (c : char) (k : nat) :
  scalar c = true -> (0 < k < length (encode [c]))%nat ->
  decode (before ++ firstn k (encode [c])) = Raise UnicodeDecodeError.
Proof.
  intros S K. destruct (utf8_char_round_trip c [] S) as (e & E & F & _).
  unfold encode in *. cbn [utf8_encode_N] in *. rewrite E in *.
  rewrite app_nil_r in *. rewrite length_map in K.
  unfold decode. rewrite map_app, <- firstn_map, (bytes_back e F).
  rewrite (decode_incomplete _ (encode_cut c e k E K) _ _ (le_n _)).
  reflexivity.
Qed.

(** ** What [decode] accepts *)

Lemma second_bounds (b0 b1 : N) :
  between (second_lo b0) (second_hi b0) b1 = true ->
  0x80 <= b1 <= 0xBF
  /\ (b0 = 0xE0 -> 0xA0 <= b1) /\ (b0 = 0xED -> b1 <= 0x9F)
  /\ (b0 = 0xF0 -> 0x90 <= b1) /\ (b0 = 0xF4 -> b1 <= 0x8F).
Proof.
  rewrite between_spec. unfold second_lo, second_hi.
  destruct (N.eqb_spec b0 0xE0); destruct (N.eqb_spec b0 0xF0);
    destruct (N.eqb_spec b0 0xED); destruct (N.eqb_spec b0 0xF4); lia.
Qed.

Lemma encode_char_1 (b0 : N) :
  b0 < 0x80 -> scalar b0 = true /\ utf8_encode_char b0 = Some [b0].
Proof.
  intros H. unfold scalar, utf8_encode_char.
  destruct (N.ltb_spec b0 0x80); [|lia].
  destruct (N.ltb_spec b0 0xD800); [|lia]. split; reflexivity.
Qed.

Lemma encode_char_2 (b0 b1 : N) :
  0xC2 <= b0 <= 0xDF -> 0x80 <= b1 <= 0xBF ->
  scalar ((b0 - 0xC0) * 64 + (b1 - 0x80)) = true
  /\ utf8_encode_char ((b0 - 0xC0) * 64 + (b1 - 0x80)) = Some [b0; b1].
Proof.
  intros H0 H1. set (c := (b0 - 0xC0) * 64 + (b1 - 0x80)).
  assert (C : c = (b0 - 0xC0) * 64 + (b1 - 0x80)) by reflexivity.
  clearbody c. divmod c 64.
  unfold scalar, utf8_encode_char.
  destruct (N.ltb_spec c 0x80); [lia|].
  destruct (N.ltb_spec c 0x800); [|lia].
  destruct (N.ltb_spec c 0xD800); [|lia].
  split; [reflexivity|]. f_equal. f_equal; [|f_equal]; arith.
Qed.

Lemma encode_char_3 (b0 b1 b2 : N) :
  0xE0 <= b0 <= 0xEF ->
  (b0 = 0xE0 -> 0xA0 <= b1) -> (b0 = 0xED -> b1 <= 0x9F) ->
  0x80 <= b1 <= 0xBF -> 0x80 <= b2 <= 0xBF ->
  scalar ((b0 - 0xE0) * 4096 + (b1 - 0x80) * 64 + (b2 - 0x80)) = true
  /\ utf8_encode_char ((b0 - 0xE0) * 4096 + (b1 - 0x80) * 64 + (b2 - 0x80))
     = Some [b0; b1; b2].
Proof.
  intros H0 Hlo Hhi H1 H2.
  set (c := (b0 - 0xE0) * 4096 + (b1 - 0x80) * 64 + (b2 - 0x80)).
  assert (C : c = (b0 - 0xE0) * 4096 + (b1 - 0x80) * 64 + (b2 - 0x80))
    by reflexivity.
  clearbody c. divmod c 4096. divmod c 64. divmod (c / 64) 64.
  assert (c / 4096 = c / 64 / 64) by (rewrite N.Div0.div_div; reflexivity).
  assert (R : 0x800 <= c < 0xD800 \/ 0xE000 <= c < 0x10000)
    by (destruct (N.eq_dec b0 0xE0); destruct (N.eq_dec b0 0xED); lia).
  unfold scalar, utf8_encode_char, between.
  destruct (N.ltb_spec c 0x80); [lia|].
  destruct (N.ltb_spec c 0x800); [lia|].
  destruct (N.ltb_spec c 0x10000); [|lia].
  destruct (N.ltb_spec c 0xD800).
  - destruct (N.leb_spec 0xD800 c); [lia|]. cbn [andb orb].
    split; [reflexivity|]. f_equal. f_equal; [|f_equal; [|f_equal]]; arith.
  - destruct (N.leb_spec 0xD800 c); [|lia].
    destruct (N.leb_spec c 0xDFFF); [lia|].
    destruct (N.leb_spec 0xE000 c); [|lia].
    destruct (N.leb_spec c 0x10FFFF); [|lia]. cbn [andb orb].
    split; [reflexivity|]. f_equal. f_equal; [|f_equal; [|f_equal]]; arith.
Qed.

Lemma encode_char_4 (b0 b1 b2 b3 : N) :
  0xF0 <= b0 <= 0xF4 ->
  (b0 = 0xF0 -> 0x90 <= b1) -> (b0 = 0xF4 -> b1 <= 0x8F) ->
  0x80 <= b1 <= 0xBF -> 0x80 <= b2 <= 0xBF -> 0x80 <= b3 <= 0xBF ->
  scalar ((b0 - 0xF0) * 262144 + (b1 - 0x80) * 4096
          + (b2 - 0x80) * 64 + (b3 - 0x80)) = true
  /\ utf8_encode_char ((b0 - 0xF0) * 262144 + (b1 - 0x80) * 4096
                       + (b2 - 0x80) * 64 + (b3 - 0x80))
     = Some [b0; b1; b2; b3].
Proof.
  intros H0 Hlo Hhi H1 H2 H3.
  set (c := (b0 - 0xF0) * 262144 + (b1 - 0x80) * 4096
            + (b2 - 0x80) * 64 + (b3 - 0x80)).
  assert (C : c = (b0 - 0xF0) * 262144 + (b1 - 0x80) * 4096
                  + (b2 - 0x80) * 64 + (b3 - 0x80)) by reflexivity.
  clearbody c.
  divmod c 262144. divmod c 4096. divmod c 64.
  divmod (c / 64) 64. divmod (c / 4096) 64.
  assert (c / 4096 = c / 64 / 64) by (rewrite N.Div0.div_div; reflexivity).
  assert (c / 262144 = c / 4096 / 64)
    by (rewrite N.Div0.div_div; reflexivity).
  assert (R : 0x10000 <= c < 0x110000)
    by (destruct (N.eq_dec b0 0xF0); destruct (N.eq_dec b0 0xF4); lia).
  unfold scalar, utf8_encode_char, between.
  destruct (N.ltb_spec c 0x80); [lia|].
  destruct (N.ltb_spec c 0x800); [lia|].
  destruct (N.ltb_spec c 0x10000); [lia|].
  destruct (N.ltb_spec c 0x110000); [|lia].
  destruct (N.ltb_spec c 0xD800); [lia|].
  destruct (N.leb_spec 0xD800 c); [|lia].
  destruct (N.leb_spec c 0xDFFF); [lia|].
  destruct (N.leb_spec 0xE000 c); [|lia].
  destruct (N.leb_spec c 0x10FFFF); [|lia]. cbn [andb orb].
  split; [reflexivity|].
  f_equal. f_equal; [|f_equal; [|f_equal; [|f_equal]]]; arith.
Qed.

Lemma option_map_some (A B : Type) (f : A -> B) (o : option A) (b : B) :
  option_map f o = Some b -> exists a, o = Some a /\ b = f a.
Proof.
  destruct o as [a|]; [|discriminate]. cbn. intros E.
  exists a. split; [reflexivity|congruence].
Qed.

(** A text that [decode] returns can be encoded, and its encoding is
    the bytes it came from. *)
Lemma utf8_decode_sound :
  forall n bs s,
    (length bs <= n)%nat ->
    utf8_decode_N bs = Some s ->
    forallb scalar s = true /\ utf8_encode_N s = Some bs.
Proof.
  induction n as [|n IH]; intros bs s L D.
  - destruct bs; [|cbn [length] in L; lia].
    cbn in D. apply Some_inj in D. subst s. split; reflexivity.
  - destruct bs as [|b0 t0].
    { cbn in D. apply Some_inj in D. subst s. split; reflexivity. }
    cbn [length] in L. rewrite utf8_decode_N_cons in D.
    destruct (N.ltb_spec b0 0x80) as [B0|B0].
    { apply option_map_some in D as (s0 & D & ->).
      destruct (IH t0 s0 ltac:(lia) D) as [S E].
      destruct (encode_char_1 b0 B0) as [Sc Ec].
      cbn [forallb utf8_encode_N]. rewrite Sc, S, Ec, E.
      split; reflexivity. }
    destruct (between 0xC2 0xDF b0) eqn:B2.
    { apply between_spec in B2.
      destruct t0 as [|b1 t1]; [discriminate|].
      destruct (is_cont b1) eqn:C1; [|discriminate].
      apply between_spec in C1.
      apply option_map_some in D as (s0 & D & ->).
      cbn [length] in L.
      destruct (IH t1 s0 ltac:(lia) D) as [S E].
      destruct (encode_char_2 b0 b1 B2 C1) as [Sc Ec].
      cbn [forallb utf8_encode_N]. rewrite Sc, S, Ec, E.
      split; reflexivity. }
    destruct (between 0xE0 0xEF b0) eqn:B3.
    { apply between_spec in B3.
      destruct t0 as [|b1 [|b2 t2]]; try discriminate.
      destruct (between (second_lo b0) (second_hi b0) b1) eqn:C1;
        [|discriminate].
      destruct (is_cont b2) eqn:C2; [|discriminate].
      cbn [andb] in D.
      apply second_bounds in C1 as (C1 & Lo & Hi & _).
      apply between_spec in C2.
      apply option_map_some in D as (s0 & D & ->).
      cbn [length] in L.
      destruct (IH t2 s0 ltac:(lia) D) as [S E].
      destruct (encode_char_3 b0 b1 b2 B3 Lo Hi C1 C2) as [Sc Ec].
      cbn [forallb utf8_encode_N]. rewrite Sc, S, Ec, E.
      split; reflexivity. }
    destruct (between 0xF0 0xF4 b0) eqn:B4; [|discriminate].
    apply between_spec in B4.
    destruct t0 as [|b1 [|b2 [|b3 t3]]]; try discriminate.
    destruct (between (second_lo b0) (second_hi b0) b1) eqn:C1;
      [|discriminate].
    destruct (is_cont b2) eqn:C2; [|discriminate].
    destruct (is_cont b3) eqn:C3; [|discriminate].
    cbn [andb] in D.
    apply second_bounds in C1 as (C1 & _ & _ & Lo & Hi).
    apply between_spec in C2. apply between_spec in C3.
    apply option_map_some in D as (s0 & D & ->).
    cbn [length] in L.
    destruct (IH t3 s0 ltac:(lia) D) as [S E].
    destruct (encode_char_4 b0 b1 b2 b3 B4 Lo Hi C1 C2 C3) as [Sc Ec].
    cbn [forallb utf8_encode_N]. rewrite Sc, S, Ec, E.
    split; reflexivity.
Qed.

Lemma bytes_forth (b : bytes) : map byte_of_N (map Byte.to_N b) = b.
Proof.
  induction b as [|x b IH]; [reflexivity|].
  cbn [map]. rewrite IH. f_equal. unfold byte_of_N.
  rewrite Byte.of_to_N. reflexivity.
Qed.

Lemma encode_decode (b : bytes) (s : str) :
  decode b = Ok s -> forallb scalar s = true /\ encode s = b.
Proof.
  unfold decode, encode.
  destruct (utf8_decode_N (map Byte.to_N b)) as [s0|] eqn:D; [|discriminate].
  intros E. injection E as <-.
  destruct (utf8_decode_sound _ _ _ (le_n _) D) as [S E].
  rewrite E, bytes_forth. auto.
Qed.

(** ** Decimal digits as [strftime] writes them *)

Lemma digit_cases (n : N) :
  exists v, v < 10 /\ n mod 10 = v /\ digit n = 48 + v.
Proof.
  exists (n mod 10). split; [apply N.mod_lt; discriminate | auto].
Qed.

Ltac below_10 v H :=
  assert (v = 0 \/ v = 1 \/ v = 2 \/ v = 3 \/ v = 4 \/ v = 5 \/ v = 6
          \/ v = 7 \/ v = 8 \/ v = 9) as H by lia;
  repeat (destruct H as [H|H]); subst v.

Lemma digit_value (n : N) : decimal_value (digit n) = Some (n mod 10).
Proof.
  destruct (digit_cases n) as (v & L & -> & ->).
  below_10 v H; reflexivity.
Qed.

Lemma digit_not_space (n : N) : isspace (digit n) = false.
Proof.
  destruct (digit_cases n) as (v & L & _ & ->).
  below_10 v H; reflexivity.
Qed.

Lemma digit_is_decimal (n : N) : isdecimal (digit n) = true.
Proof. unfold isdecimal. rewrite digit_value. reflexivity. Qed.

Lemma strip_digits (d : char) (s : str) (e : char) :
  isspace d = false -> isspace e = false ->
  strip (d :: s ++ [e]) = d :: s ++ [e].
Proof.
  intros D E. unfold strip. cbn [lstrip]. rewrite D. unfold rstrip.
  replace (rev (d :: s ++ [e])) with (e :: rev (d :: s))
    by (change (d :: s ++ [e]) with ((d :: s) ++ [e]);
        rewrite rev_app_distr; reflexivity).
  cbn [lstrip]. rewrite E.
  change (rev (e :: rev (d :: s))) with (rev (rev (d :: s)) ++ [e]).
  rewrite rev_involutive. reflexivity.
Qed.

Lemma int_two_digits (n : N) : n < 100 -> int (two_digits n) = Ok n.
Proof.
  intros L. unfold int, two_digits.
  pose proof (strip_digits (digit (n / 10)) [] (digit n)
                            (digit_not_space _) (digit_not_space _)) as Q.
  cbn [app] in Q. rewrite Q. cbn [int_digits]. rewrite !digit_value. cbn [int_digits].
  f_equal. divmod n 10. divmod (n / 10) 10. arith.
Qed.

Lemma int_four_digits (n : N) : n < 10000 -> int (four_digits n) = Ok n.
Proof.
  intros L. unfold int, four_digits.
  pose proof (strip_digits (digit (n / 1000))
                            [digit (n / 100); digit (n / 10)] (digit n)
                            (digit_not_space _) (digit_not_space _)) as Q.
  cbn [app] in Q. rewrite Q. cbn [int_digits]. rewrite !digit_value. cbn [int_digits].
  f_equal.
  divmod n 10. divmod (n / 10) 10. divmod (n / 100) 10.
  divmod (n / 1000) 10.
  assert (n / 100 = n / 10 / 10) by (rewrite N.Div0.div_div; reflexivity).
  assert (n / 1000 = n / 100 / 10) by (rewrite N.Div0.div_div; reflexivity).
  arith.
Qed.

Lemma consumed_2 (a b : char) (s : str) : consumed (a :: b :: s) s = [a; b].
Proof. exact (consumed_app [a; b] s). Qed.

Lemma consumed_4 (a b c d : char) (s : str) :
  consumed (a :: b :: c :: d :: s) s = [a; b; c; d].
Proof. exact (consumed_app [a; b; c; d] s). Qed.

(** Runs [tac] for every value of [n] below [bound]. *)
Ltac enum n bound tac :=
  let m := fresh "m" in
  let E := fresh "E" in
  assert (E : exists m : nat, n = N.of_nat m /\ (m < bound)%nat)
    by (exists (N.to_nat n); split; [symmetry; apply N2Nat.id | lia]);
  destruct E as (m & -> & E);
  repeat (destruct m as [|m]; [tac | try (exfalso; lia)]).

Section Fields.
Variable A : Type.
Variables (s : str) (caps : list str) (k : str -> list str -> option A).
Variable a : A.

Lemma run_year (n : N) (r : regex) :
  directive 89 = Some r ->
  run (Group r) (four_digits n ++ s) caps k
  = k s (caps ++ [four_digits n]).
Proof.
  intros D. injection D as <-. unfold four_digits.
  cbn -[consumed digit isdecimal]. rewrite !digit_is_decimal.
  rewrite consumed_4. reflexivity.
Qed.

Ltac field H :=
  first [ exfalso; lia
        | cbn -[consumed]; rewrite ?consumed_2;
          match type of H with
          | context [two_digits ?x] =>
            let v := eval vm_compute in (two_digits x) in
            change (two_digits x) with v in H
          end;
          rewrite H; reflexivity ].

Lemma run_month (n : N) (r : regex) :
  directive 109 = Some r -> 1 <= n <= 12 ->
  k s (caps ++ [two_digits n]) = Some a ->
  run (Group r) (two_digits n ++ s) caps k = Some a.
Proof.
  intros D B H. injection D as <-. enum n 13%nat ltac:(field H).
Qed.

Lemma run_day (n : N) (r : regex) :
  directive 100 = Some r -> 1 <= n <= 31 ->
  k s (caps ++ [two_digits n]) = Some a ->
  run (Group r) (two_digits n ++ s) caps k = Some a.
Proof.
  intros D B H. injection D as <-. enum n 32%nat ltac:(field H).
Qed.

Lemma run_hour (n : N) (r : regex) :
  directive 72 = Some r -> n <= 23 ->
  k s (caps ++ [two_digits n]) = Some a ->
  run (Group r) (two_digits n ++ s) caps k = Some a.
Proof.
  intros D B H. injection D as <-. enum n 24%nat ltac:(field H).
Qed.

Lemma run_minute (n : N) (r : regex) :
  directive 77 = Some r -> n <= 59 ->
  k s (caps ++ [two_digits n]) = Some a ->
  run (Group r) (two_digits n ++ s) caps k = Some a.
Proof.
  intros D B H. injection D as <-. enum n 60%nat ltac:(field H).
Qed.

Lemma run_second (n : N) (r : regex) :
  directive 83 = Some r -> n <= 59 ->
  k s (caps ++ [two_digits n]) = Some a ->
  run (Group r) (two_digits n ++ s) caps k = Some a.
Proof.
  intros D B H. injection D as <-. enum n 60%nat ltac:(field H).
Qed.
End Fields.

(** ** [strptime] after [strftime] *)

Lemma run_seq_step (A : Type) (r1 r2 : regex) (s : str) (caps : list str)
      (k : str -> list str -> option A) :
  run (Seq r1 r2) s caps k
  = run r1 s caps (fun s1 caps1 => run r2 s1 caps1 k).
Proof. reflexivity. Qed.

Lemma run_chr_step (A : Type) (c : char) (r : regex) (s : str)
      (caps : list str) (k : str -> list str -> option A) :
  run (Seq (Chr c) r) (c :: s) caps k = run r s caps k.
Proof. cbn [run]. rewrite N.eqb_refl. reflexivity. Qed.

Lemma days_in_month_le (y m : N) : days_in_month y m <= 31.
Proof.
  unfold days_in_month.
  destruct (m =? 2); [destruct (is_leap y); lia|].
  destruct (_ || _); lia.
Qed.

Lemma valid_bounds (t : datetime) :
  valid t = true ->
  1 <= year t <= 9999 /\ 1 <= month t <= 12 /\ 1 <= day t <= 31
  /\ hour t <= 23 /\ minute t <= 59 /\ second t <= 59.
Proof.
  unfold valid. rewrite !andb_true_iff, !between_spec, !N.leb_le.
  pose proof (days_in_month_le (year t) (month t)). lia.
Qed.

(** The pattern of the log's format finds, in a time written by
    [strftime] under the same format, the six fields as written. *)
Lemma match_strftime (t : datetime) (p : list char * regex) :
  valid t = true ->
  pattern datefmt = Ok p ->
  match_ (snd p) (strftime datefmt t)
  = Some {| groups := [four_digits (year t); two_digits (month t);
                       two_digits (day t); two_digits (hour t);
                       two_digits (minute t); two_digits (second t)];
            rest := [] |}.
Proof.
  intros V P. apply valid_bounds in V.
  destruct V as (By & Bm & Bd & BH & BM & BS).
  vm_compute in P. injection P as <-. cbn [snd].
  unfold match_.
  replace (strftime datefmt t)
    with (four_digits (year t) ++ 45 :: two_digits (month t)
            ++ 45 :: two_digits (day t) ++ 95 :: two_digits (hour t)
            ++ 58 :: two_digits (minute t) ++ 58 :: two_digits (second t)
            ++ [])
    by (rewrite app_nil_r; reflexivity).
  rewrite run_seq_step, (run_year _ _ _ _ _ _ eq_refl), run_chr_step.
  rewrite run_seq_step. apply run_month; [reflexivity | exact Bm |].
  rewrite run_chr_step.
  rewrite run_seq_step. apply run_day; [reflexivity | exact Bd |].
  rewrite run_chr_step.
  rewrite run_seq_step. apply run_hour; [reflexivity | exact BH |].
  rewrite run_chr_step.
  rewrite run_seq_step. apply run_minute; [reflexivity | exact BM |].
  rewrite run_chr_step.
  rewrite run_seq_step. apply run_second; [reflexivity | exact BS |].
  reflexivity.
Qed.

(** What the logger's clock writes, [strptime] reads back. *)
Lemma strptime_strftime (t : datetime) :
  valid t = true -> strptime (strftime datefmt t) datefmt = Ok t.
Proof.
  intros V. unfold strptime.
  destruct (pattern datefmt) as [p|e] eqn:P; [|discriminate P].
  cbn [bind]. rewrite (match_strftime t p V P). cbn [rest groups].
  vm_compute in P. injection P as <-. cbn [fst].
  destruct (valid_bounds t V) as (By & Bm & Bd & BH & BM & BS).
  cbn [fill].
  rewrite int_four_digits by lia. cbn [bind].
  rewrite !int_two_digits by lia. cbn [bind fill].
  replace (set_field _ _ _) with t by (destruct t; reflexivity).
  rewrite V. reflexivity.
Qed.

(** ** [strip] *)

Lemma lstrip_length (s : str) : (length (lstrip s) <= length s)%nat.
Proof.
  induction s as [|c s IH]; simpl; [lia|].
  destruct (isspace c); simpl; lia.
Qed.

Lemma lstrip_fixed (h : char) (s : str) :
  lstrip (h :: s) = h :: s -> isspace h = false.
Proof.
  simpl. destruct (isspace h); [|reflexivity].
  intros E. pose proof (lstrip_length s) as L. rewrite E in L.
  simpl in L. lia.
Qed.

Lemma lstrip_spaces_app (a s : str) :
  forallb isspace a = true -> lstrip (a ++ s) = lstrip s.
Proof.
  induction a as [|c a IH]; simpl; [reflexivity|].
  intros H. apply andb_true_iff in H as [C H]. rewrite C. auto.
Qed.

Lemma lstrip_spaces (a : str) : forallb isspace a = true -> lstrip a = [].
Proof.
  intros H. rewrite <- (app_nil_r a). rewrite lstrip_spaces_app; auto.
Qed.

Lemma lstrip_keep (h : char) (s : str) :
  isspace h = false -> lstrip (h :: s) = h :: s.
Proof. intros H. simpl. rewrite H. reflexivity. Qed.

Lemma forallb_rev (A : Type) (f : A -> bool) (l : list A) :
  forallb f (rev l) = forallb f l.
Proof.
  induction l as [|x l IH]; [reflexivity|]. simpl.
  rewrite forallb_app, IH. simpl. rewrite andb_true_r. apply andb_comm.
Qed.

Lemma rstrip_app_spaces (s b : str) :
  forallb isspace b = true -> rstrip (s ++ b) = rstrip s.
Proof.
  intros H. unfold rstrip. rewrite rev_app_distr.
  rewrite lstrip_spaces_app; [reflexivity|]. rewrite forallb_rev. exact H.
Qed.

(** A text that ends on a character which is no whitespace keeps
    whatever stands before it. *)
Lemma rstrip_app_keep (a b : str) :
  b <> [] -> rstrip b = b -> rstrip (a ++ b) = a ++ b.
Proof.
  intros N R. unfold rstrip in *. rewrite rev_app_distr.
  assert (L : lstrip (rev b) = rev b).
  { rewrite <- R at 2. rewrite rev_involutive. reflexivity. }
  destruct (rev b) as [|h r] eqn:E.
  - exfalso. apply N. rewrite <- (rev_involutive b), E. reflexivity.
  - cbn [app]. rewrite (lstrip_keep h _ (lstrip_fixed h r L)).
    change (h :: r ++ rev a) with ((h :: r) ++ rev a).
    rewrite <- E, <- rev_app_distr, rev_involutive. reflexivity.
Qed.

Lemma strip_trimmed (a s b : str) :
  forallb isspace a = true -> forallb isspace b = true -> trimmed s ->
  strip (a ++ s ++ b) = s.
Proof.
  intros A B [L R]. unfold strip. rewrite (lstrip_spaces_app a _ A).
  destruct s as [|h s].
  - cbn [app]. rewrite (lstrip_spaces b B). reflexivity.
  - change ((h :: s) ++ b) with (h :: s ++ b).
    rewrite (lstrip_keep h _ (lstrip_fixed h s L)).
    change (h :: s ++ b) with ((h :: s) ++ b).
    rewrite (rstrip_app_spaces _ b B). exact R.
Qed.

Lemma trimmed_app (a b : str) (h : char) (t : str) :
  a = h :: t -> isspace h = false -> b <> [] -> rstrip b = b ->
  trimmed (a ++ b).
Proof.
  intros -> H N R. split.
  - apply (lstrip_keep h (t ++ b) H).
  - apply rstrip_app_keep; assumption.
Qed.

Lemma strftime_trimmed (t : datetime) : trimmed (strftime datefmt t).
Proof.
  split.
  - apply (lstrip_keep (digit (year t / 1000))). apply digit_not_space.
  - apply (rstrip_app_keep
             (four_digits (year t) ++ 45 :: two_digits (month t)
                ++ 45 :: two_digits (day t) ++ 95 :: two_digits (hour t)
                ++ 58 :: two_digits (minute t) ++ [58; digit (second t / 10)])
             [digit (second t)]); [discriminate|].
    unfold rstrip. cbn [rev app lstrip]. rewrite digit_not_space.
    reflexivity.
Qed.

Lemma privmsg_trimmed (u x y c body : str) :
  rstrip body = body -> trimmed (privmsg u x y c body).
Proof.
  intros R. unfold privmsg. destruct body as [|b body].
  - rewrite !app_nil_r. rewrite !app_assoc.
    eapply trimmed_app; [rewrite <- !app_assoc; reflexivity | reflexivity
                        | discriminate | reflexivity].
  - rewrite !app_assoc.
    eapply trimmed_app; [rewrite <- !app_assoc; reflexivity | reflexivity
                        | discriminate | exact R].
Qed.

(** ** The matcher does not look past a newline *)

Lemma star_line_local (A : Type) (p : char -> bool) (more : str)
      (k : str -> option A) (l : str) :
  p newline = false ->
  star p (l ++ newline :: more) k
  = star p l (fun s1 => k (s1 ++ newline :: more)).
Proof.
  intros P. induction l as [|c l IH]; cbn [app star].
  - rewrite P. reflexivity.
  - rewrite IH. reflexivity.
Qed.

Lemma consumed_line (l s1 more : str) :
  consumed (l ++ more) (s1 ++ more) = consumed l s1.
Proof.
  unfold consumed. rewrite !length_app.
  replace (length l + length more - (length s1 + length more))%nat
    with (length l - length s1)%nat by lia.
  rewrite firstn_app.
  replace (length l - length s1 - length l)%nat with 0%nat by lia.
  cbn [firstn]. apply app_nil_r.
Qed.

Lemma run_line_local (A : Type) (more : str) (r : regex) :
  line_re r = true ->
  forall (l : str) (caps : list str) (k : str -> list str -> option A),
    run r (l ++ newline :: more) caps k
    = run r l caps (fun s1 cs => k (s1 ++ newline :: more) cs).
Proof.
  induction r as [|c|cl|cl|r1 IH1 r2 IH2|r1 IH1 r2 IH2|r1 IH1];
    cbn [line_re]; intros L l caps k; cbn [run].
  - reflexivity.
  - destruct l as [|x l]; cbn [app]; [|reflexivity].
    rewrite N.eqb_sym. apply negb_true_iff in L. rewrite L. reflexivity.
  - destruct l as [|x l]; cbn [app]; [|reflexivity].
    apply negb_true_iff in L. rewrite L. reflexivity.
  - apply negb_true_iff in L. apply star_line_local. exact L.
  - apply andb_true_iff in L as [L1 L2]. rewrite (IH1 L1).
    apply run_ext. intros y cs. apply (IH2 L2).
  - apply andb_true_iff in L as [L1 L2].
    rewrite (IH1 L1), (IH2 L2). reflexivity.
  - rewrite (IH1 L). apply run_ext. intros y cs.
    rewrite (consumed_line l y (newline :: more)). reflexivity.
Qed.

Lemma star_option_map (A B : Type) (g : A -> B) (p : char -> bool)
      (k : str -> option A) (s : str) :
  star p s (fun s1 => option_map g (k s1)) = option_map g (star p s k).
Proof.
  induction s as [|c s IH]; cbn [star]; [reflexivity|].
  destruct (p c); [|reflexivity]. rewrite IH.
  destruct (star p s k); reflexivity.
Qed.

Lemma run_option_map (A B : Type) (g : A -> B) (r : regex) :
  forall (s : str) (caps : list str) (k : str -> list str -> option A),
    run r s caps (fun s1 cs => option_map g (k s1 cs))
    = option_map g (run r s caps k).
Proof.
  induction r as [|c|cl|cl|r1 IH1 r2 IH2|r1 IH1 r2 IH2|r1 IH1];
    intros s caps k; cbn [run].
  - reflexivity.
  - destruct s as [|x s]; [reflexivity|]. destruct (x =? c)%N; reflexivity.
  - destruct s as [|x s]; [reflexivity|].
    destruct (in_class cl x); reflexivity.
  - apply (star_option_map _ _ g (in_class cl) (fun s1 => k s1 caps)).
  - rewrite <- IH1. apply run_ext. intros y cs. apply IH2.
  - rewrite IH1, IH2. destruct (run r1 s caps k); reflexivity.
  - apply (IH1 s caps (fun s1 caps1 => k s1 (caps1 ++ [consumed s s1]))).
Qed.

(** A match at the start of a line is the match at the start of the
    text that the line begins, whatever follows the newline. *)
Lemma match_line_local (r : regex) (l more : str) :
  line_re r = true ->
  match_ r (l ++ newline :: more)
  = option_map (followed_by (newline :: more)) (match_ r l).
Proof.
  intros L. unfold match_. rewrite (run_line_local _ more r L).
  apply (run_option_map _ _ (followed_by (newline :: more)) r l []
           (fun s1 caps => Some {| groups := caps; rest := s1 |})).
Qed.

(** A well-formed chat line at the head of a text is found there, and
    what follows its newline plays no part. *)
Lemma privmsg_search_first_line (u x y c body more : str) :
  no_newline u -> twitch_name x -> twitch_name y -> twitch_name c ->
  no_newline body ->
  contains (lit " :") body = false ->
  contains server_text body = false ->
  more = [] \/ (exists t, more = newline :: t) ->
  search privmsg_re (privmsg u x y c body ++ more)
  = Some {| groups := [u; c; body]; rest := more |}.
Proof.
  intros Hu Hx Hy Hc Hb C1 C2 [->|[t ->]].
  - rewrite app_nil_r. apply privmsg_search_complete; assumption.
  - apply search_first. rewrite match_line_local by reflexivity.
    pose proof (run_user u x y c body Hu Hx Hy Hc Hb C1 C2) as R.
    change (match_ privmsg_re (privmsg u x y c body)
            = Some {| groups := [u; c; body]; rest := [] |}) in R.
    rewrite R. reflexivity.
Qed.

(** ** More on [strip] *)

Lemma lstrip_split (s : str) :
  exists ws, s = ws ++ lstrip s /\ forallb isspace ws = true.
Proof.
  induction s as [|c s (ws & E & W)].
  - exists []. split; reflexivity.
  - cbn [lstrip]. destruct (isspace c) eqn:Sc.
    + exists (c :: ws). cbn [app forallb]. rewrite Sc, W, <- E.
      split; reflexivity.
    + exists []. split; reflexivity.
Qed.

Lemma lstrip_idem (s : str) : lstrip (lstrip s) = lstrip s.
Proof.
  induction s as [|c s IH]; [reflexivity|].
  cbn [lstrip]. destruct (isspace c) eqn:Sc; [exact IH|].
  cbn [lstrip]. rewrite Sc. reflexivity.
Qed.

Lemma rstrip_split (s : str) :
  exists ws, s = rstrip s ++ ws /\ forallb isspace ws = true.
Proof.
  destruct (lstrip_split (rev s)) as (ws & E & W).
  exists (rev ws). split.
  - unfold rstrip. rewrite <- rev_app_distr, <- E, rev_involutive.
    reflexivity.
  - rewrite forallb_rev. exact W.
Qed.

Lemma rstrip_idem (s : str) : rstrip (rstrip s) = rstrip s.
Proof.
  unfold rstrip. rewrite rev_involutive, lstrip_idem. reflexivity.
Qed.

(** Stripping on the right only looks at the end of a text that does
    not consist of whitespace. *)
Lemma rstrip_app (a b : str) :
  rstrip b <> [] -> rstrip (a ++ b) = a ++ rstrip b.
Proof.
  intros N. destruct (rstrip_split b) as (ws & E & W).
  rewrite E at 1. rewrite app_assoc, rstrip_app_spaces by exact W.
  apply rstrip_app_keep; [exact N | apply rstrip_idem].
Qed.

Lemma rstrip_spaces (s : str) : forallb isspace s = true -> rstrip s = [].
Proof.
  intros W. unfold rstrip. rewrite lstrip_spaces; [reflexivity|].
  rewrite forallb_rev. exact W.
Qed.

Lemma rstrip_head (c : char) (s : str) :
  rstrip (c :: s) = [] \/ exists s', rstrip (c :: s) = c :: s'.
Proof.
  destruct (rstrip_split (c :: s)) as (ws & E & _).
  destruct (rstrip (c :: s)) as [|c' s'] eqn:R; [left; reflexivity|].
  right. exists s'. cbn [app] in E. injection E as -> _. reflexivity.
Qed.

Lemma rstrip_nil_spaces (s : str) :
  rstrip s = [] -> forallb isspace s = true.
Proof.
  intros R. destruct (rstrip_split s) as (ws & E & W).
  rewrite R in E. cbn [app] in E. subst ws. exact W.
Qed.

(** What [strip] leaves of a trimmed text followed by more: the text,
    and what is left of the rest. *)
Lemma strip_line (a s tail : str) :
  forallb isspace a = true -> trimmed s -> s <> [] ->
  strip (a ++ s ++ tail) = s ++ rstrip tail.
Proof.
  intros A [L R] N. unfold strip.
  rewrite lstrip_spaces_app by exact A.
  destruct s as [|h t]; [contradiction|].
  cbn [app]. rewrite lstrip_keep by (apply (lstrip_fixed h t L)).
  change (h :: t ++ tail) with ((h :: t) ++ tail).
  destruct (rstrip tail) as [|c r] eqn:T.
  - rewrite rstrip_app_spaces by (apply rstrip_nil_spaces, T).
    rewrite app_nil_r. exact R.
  - rewrite rstrip_app by (rewrite T; discriminate).
    rewrite T. reflexivity.
Qed.

(** ** The characters of a record *)

Lemma plain_line_char (c : char) : plain c = true -> line_char c = true.
Proof.
  unfold plain, line_char, scalar, newline, carriage_return.
  rewrite between_spec. intros [L H].
  destruct (N.ltb_spec c 0xD800); [|lia].
  destruct (N.eqb_spec c 10); [lia|].
  destruct (N.eqb_spec c 13); [lia|]. reflexivity.
Qed.

Lemma plain_digit (n : N) : plain (digit n) = true.
Proof.
  unfold plain, digit. apply between_spec. divmod n 10. arith.
Qed.

Lemma plain_name_char (c : char) : name_char c = true -> plain c = true.
Proof.
  unfold name_char, plain, between. bool_cases; intros; try reflexivity; try discriminate.
Qed.

Lemma forallb_impl (A : Type) (f g : A -> bool) (l : list A) :
  (forall a, f a = true -> g a = true) ->
  forallb f l = true -> forallb g l = true.
Proof.
  intros I. rewrite !forallb_forall. auto.
Qed.

Lemma forallb_not_in (A : Type) (f : A -> bool) (l : list A) (a : A) :
  forallb f l = true -> f a = false -> ~ In a l.
Proof.
  rewrite forallb_forall. intros H N I. rewrite (H a I) in N. discriminate.
Qed.

Lemma strftime_plain (t : datetime) :
  forallb plain (strftime datefmt t) = true.
Proof.
  cbn -[plain digit]. rewrite !plain_digit. reflexivity.
Qed.

Lemma line_char_scalar (c : char) : line_char c = true -> scalar c = true.
Proof.
  unfold line_char. intros H.
  apply andb_true_iff in H as [H _]. apply andb_true_iff in H as [H _].
  exact H.
Qed.

Lemma line_char_dot (c : char) : line_char c = true -> in_class Dot c = true.
Proof.
  unfold line_char. intros H.
  apply andb_true_iff in H as [H _]. apply andb_true_iff in H as [_ H].
  exact H.
Qed.

Lemma one_line_no_newline (s : str) : one_line s -> no_newline s.
Proof. apply forallb_impl, line_char_dot. Qed.

Lemma one_line_app (a b : str) : one_line a -> one_line b -> one_line (a ++ b).
Proof.
  unfold one_line. intros A B. rewrite forallb_app, A, B. reflexivity.
Qed.

Lemma twitch_name_one_line (s : str) : twitch_name s -> one_line s.
Proof.
  apply forallb_impl. intros c H. apply plain_line_char, plain_name_char, H.
Qed.

Lemma privmsg_one_line (u x y c body : str) :
  one_line u -> one_line x -> one_line y -> one_line c -> one_line body ->
  one_line (privmsg u x y c body).
Proof.
  intros U X Y C B. unfold privmsg.
  repeat (apply one_line_app; [first [assumption | reflexivity]|]).
  exact B.
Qed.

(** ** A record of the log, parsed *)

Lemma privmsg_not_nil (u x y c body : str) : privmsg u x y c body <> [].
Proof. discriminate. Qed.

(** The record of a well-formed message parses to the message, whatever
    follows it: whitespace, or further lines. *)
Lemma record_of_parses (m : chat) (tail : str) :
  well_formed m ->
  forallb isspace tail = true \/ (exists t, tail = newline :: t) ->
  record_body (record_of m ++ tail) = Ok (row_of_chat m).
Proof.
  intros (V & _ & U & X & Y & C & B & R & Hcolon & Hserver) T.
  assert (G : ~ In em_dash (strftime datefmt (at_time m) ++ lit " ")).
  { intros I. apply in_app_or in I as [I|I].
    - revert I. apply (forallb_not_in _ plain); [apply strftime_plain|].
      reflexivity.
    - cbn in I. destruct I as [I|[]]. discriminate. }
  rewrite record_body_stages. unfold record_of.
  replace ((strftime datefmt (at_time m) ++ lit " " ++ [em_dash] ++ lit " "
            ++ privmsg (user m) (host_user m) (host m) (chan m) (said m))
           ++ tail)
    with ((strftime datefmt (at_time m) ++ lit " ")
          ++ em_dash :: (lit " " ++ privmsg (user m) (host_user m) (host m)
                                           (chan m) (said m) ++ tail))
    by (rewrite <- !app_assoc; reflexivity).
  rewrite (before_sep_app _ _ G), (after_sep_app _ _ G).
  rewrite <- (app_nil_l (strftime datefmt (at_time m) ++ lit " ")).
  rewrite strip_trimmed by (reflexivity || apply strftime_trimmed).
  rewrite strptime_strftime by exact V. cbn [bind].
  rewrite strip_line
    by (reflexivity || apply privmsg_trimmed, R || apply privmsg_not_nil).
  rewrite privmsg_search_first_line;
    auto using twitch_name_no_newline, one_line_no_newline.
  destruct T as [W|(t & ->)].
  - left. apply rstrip_spaces, W.
  - destruct (rstrip_head newline t) as [E|(s' & E)]; rewrite E; eauto.
Qed.

(** ** Newlines on the way to the file and back *)

Lemma universal_newlines_clean (r s : str) :
  ~ In carriage_return r ->
  universal_newlines (r ++ s) = r ++ universal_newlines s.
Proof.
  induction r as [|c r IH]; intros N; [reflexivity|].
  cbn [app universal_newlines].
  destruct (N.eqb_spec c carriage_return) as [->|_].
  - exfalso. apply N. left. reflexivity.
  - rewrite IH; [reflexivity|]. intros I. apply N. right. exact I.
Qed.

Lemma translate_newlines_app (linesep a b : str) :
  translate_newlines linesep (a ++ b)
  = translate_newlines linesep a ++ translate_newlines linesep b.
Proof. apply flat_map_app. Qed.

Lemma translate_newlines_clean (linesep r : str) :
  ~ In newline r -> translate_newlines linesep r = r.
Proof.
  induction r as [|c r IH]; intros N; [reflexivity|].
  cbn [translate_newlines flat_map].
  destruct (N.eqb_spec c newline) as [->|_].
  - exfalso. apply N. left. reflexivity.
  - cbn [app]. f_equal. apply IH. intros I. apply N. right. exact I.
Qed.

Lemma translate_newlines_scalar (linesep s : str) :
  forallb scalar linesep = true -> forallb scalar s = true ->
  forallb scalar (translate_newlines linesep s) = true.
Proof.
  intros L. induction s as [|c s IH]; intros S; [reflexivity|].
  cbn [forallb] in S. apply andb_true_iff in S as [Sc S].
  cbn [translate_newlines flat_map]. rewrite forallb_app.
  apply andb_true_iff. split; [|apply IH, S].
  destruct (c =? newline); [exact L|]. cbn [forallb]. rewrite Sc. reflexivity.
Qed.

Lemma one_line_clean (s : str) :
  one_line s -> ~ In newline s /\ ~ In carriage_return s.
Proof.
  intros O. split; apply (forallb_not_in _ line_char _ _ O); reflexivity.
Qed.

Lemma one_line_scalar (s : str) : one_line s -> forallb scalar s = true.
Proof. apply forallb_impl, line_char_scalar. Qed.

(** ** Splitting a text into records *)

Lemma split_from_skip (sep a rest : str) :
  split_from sep (length a) (a ++ rest) = split_from sep 0 rest.
Proof.
  induction a as [|x a IH]; [reflexivity|]. exact IH.
Qed.

Lemma split_absent (sep s : str) :
  contains sep s = false -> split s sep = [s].
Proof.
  unfold split. induction s as [|c s IH]; intros C.
  - reflexivity.
  - cbn [contains] in C. apply orb_false_iff in C as [S C].
    destruct sep as [|p sep']; [discriminate|].
    cbn [split_from]. rewrite S, (IH C). reflexivity.
Qed.

(** ** Where the pieces of a text come from *)

Lemma split_from_parts (sep : str) (s : str) :
  forall k,
    (forall piece, In piece (split_from sep k s) ->
                   exists a b, s = a ++ piece ++ b
                               /\ (b = [] \/ startswith b sep = true))
    /\ (k = 0%nat ->
        exists p ps b, split_from sep 0 s = p :: ps /\ s = p ++ b
                       /\ (b = [] \/ startswith b sep = true)).
Proof.
  induction s as [|c s IH]; intros k.
  - split.
    + cbn. intros piece [<-|[]]. exists [], []. auto.
    + intros _. exists [], [], []. auto.
  - destruct k as [|k].
    + cbn [split_from]. destruct (startswith (c :: s) sep) eqn:S.
      * split.
        -- intros piece [<-|I].
           ++ exists [], (c :: s). auto.
           ++ destruct (proj1 (IH _) piece I) as (a & b & E & Hb).
              exists (c :: a), b. rewrite E. auto.
        -- intros _. exists [], (split_from sep (length sep - 1) s), (c :: s).
           auto.
      * destruct (proj2 (IH 0%nat) eq_refl) as (p & ps & b & E & Es & Hb).
        rewrite E. split.
        -- intros piece [<-|I].
           ++ exists [], b. rewrite Es. auto.
           ++ destruct (proj1 (IH 0%nat) piece) as (a' & b' & E' & Hb').
              { rewrite E. right. exact I. }
              exists (c :: a'), b'. rewrite E'. auto.
        -- intros _. exists (c :: p), ps, b. rewrite Es. auto.
    + split; [|discriminate].
      cbn [split_from]. intros piece I.
      destruct (proj1 (IH k) piece I) as (a & b & E & Hb).
      exists (c :: a), b. rewrite E. auto.
Qed.

(** A piece of [split] stands in the text, and the text ends after it
    or goes on with the separator. *)
Lemma split_part (s sep piece : str) :
  In piece (split s sep) ->
  exists a b, s = a ++ piece ++ b /\ (b = [] \/ startswith b sep = true).
Proof. apply (split_from_parts sep s 0). Qed.

Lemma strip_part (s : str) :
  exists a b,
    s = a ++ strip s ++ b
    /\ forallb isspace a = true /\ forallb isspace b = true.
Proof.
  destruct (lstrip_split s) as (a & Ea & Wa).
  destruct (rstrip_split (lstrip s)) as (b & Eb & Wb).
  exists a, b. unfold strip. rewrite <- Eb, <- Ea. auto.
Qed.

Lemma sep_parts (line : str) :
  after_sep line <> [] ->
  line = before_sep line ++ em_dash :: after_sep line.
Proof.
  induction line as [|c line IH]; intros N; [contradiction|].
  cbn [before_sep after_sep] in *.
  destruct (N.eqb_spec c em_dash) as [->|_]; [reflexivity|].
  cbn [app]. rewrite <- IH by exact N. reflexivity.
Qed.

Lemma before_sep_no_glyph (line : str) : ~ In em_dash (before_sep line).
Proof.
  induction line as [|c line IH]; [intros []|].
  cbn [before_sep]. destruct (N.eqb_spec c em_dash) as [->|D]; [intros []|].
  intros [E|I]; [exact (D E) | exact (IH I)].
Qed.

Lemma universal_newlines_no_cr (s : str) :
  ~ In carriage_return (universal_newlines s).
Proof.
  assert (H : forall n s, (length s <= n)%nat ->
                          ~ In carriage_return (universal_newlines s)).
  { clear s. induction n as [|n IH]; intros s L.
    - destruct s; [intros [] | cbn [length] in L; lia].
    - destruct s as [|c s]; [intros []|].
      cbn [length] in L. cbn [universal_newlines].
      destruct (N.eqb_spec c carriage_return) as [->|D].
      + destruct s as [|c' s'].
        * intros [E|[]]. discriminate.
        * cbn [length] in L. destruct (c' =? newline).
          -- intros [E|I]; [discriminate|]. revert I. apply IH. lia.
          -- intros [E|I]; [discriminate|]. revert I. apply IH.
             cbn [length]. lia.
      + intros [E|I]; [exact (D E)|]. revert I. apply IH. lia. }
  apply (H (length s) s). apply le_n.
Qed.

Lemma read_text_no_cr (file : string) (fs : filesystem) (content : str) :
  read_text file fs = Ok content -> ~ In carriage_return content.
Proof.
  unfold read_text. destruct (fs file) as [b|]; [|discriminate].
  destruct (decode b) as [s|e]; [|discriminate].
  cbn [bind]. intros E. injection E as <-. apply universal_newlines_no_cr.
Qed.

(** The place of a row in its record. *)
Lemma record_body_place (line : str) (d : ParsedMessage) :
  record_body line = Ok d ->
  exists lead stamp gap junk x y after,
    line = lead ++ stamp ++ gap ++ em_dash :: junk
           ++ privmsg (username d) x y (channel d) (message d) ++ after
    /\ strptime stamp datefmt = Ok (dt d)
    /\ ~ In em_dash (lead ++ stamp ++ gap)
    /\ forallb isspace gap = true
    /\ (after = [] \/ exists h t, after = h :: t /\ isspace h = true).
Proof.
  intros B. apply record_body_ok in B. destruct B as (T & found & S & G).
  destruct (privmsg_search_sound _ _ S)
    as (b & u & x & y & c & msg & E & G' & _ & R & _).
  rewrite G in G'. injection G' as <- <- <-.
  destruct (strip_part (before_sep line)) as (lead & gap & Eb & _ & Wg).
  destruct (strip_part (after_sep line)) as (a1 & a2 & Ea & Wa1 & Wa2).
  assert (N : after_sep line <> []).
  { intros Z. rewrite Z in S. cbn in S. discriminate. }
  exists lead, (strip (before_sep line)), gap, (a1 ++ b), x, y,
    (rest found ++ a2).
  split; [|split; [exact T|split; [|split; [exact Wg|]]]].
  - rewrite (sep_parts line N) at 1. rewrite Eb at 1. rewrite Ea at 1.
    rewrite E. rewrite <- !app_assoc. reflexivity.
  - rewrite <- Eb. apply before_sep_no_glyph.
  - destruct R as [->|(t & ->)].
    + destruct a2 as [|h a2']; [left; reflexivity|].
      right. exists h, a2'. cbn [forallb] in Wa2.
      apply andb_true_iff in Wa2 as [Wh _]. split; [reflexivity|exact Wh].
    + right. exists newline, (t ++ a2). split; reflexivity.
Qed.

Lemma universal_newlines_in (c : char) (s : str) :
  In c (universal_newlines s) -> c = newline \/ In c s.
Proof.
  assert (H : forall n s, (length s <= n)%nat ->
                          In c (universal_newlines s) ->
                          c = newline \/ In c s).
  { clear s. induction n as [|n IH]; intros s L.
    - destruct s; [intros [] | cbn [length] in L; lia].
    - destruct s as [|x s]; [intros []|].
      cbn [length] in L. cbn [universal_newlines].
      destruct (x =? carriage_return).
      + destruct s as [|x' s'].
        * intros [E|[]]. left. symmetry. exact E.
        * cbn [length] in L. destruct (x' =? newline).
          -- intros [E|I]; [left; symmetry; exact E|].
             destruct (IH s' ltac:(lia) I) as [E|I']; [left; exact E|].
             right. right. right. exact I'.
          -- intros [E|I]; [left; symmetry; exact E|].
             destruct (IH (x' :: s') ltac:(cbn [length]; lia) I)
               as [E|I']; [left; exact E|].
             right. right. exact I'.
      + intros [E|I]; [right; left; exact E|].
        destruct (IH s ltac:(lia) I) as [E|I']; [left; exact E|].
        right. right. exact I'. }
  apply (H (length s) s). apply le_n.
Qed.

Lemma rows_of_no_glyph (line : str) : ~ In em_dash line -> rows_of line = [].
Proof.
  intros N. unfold rows_of. rewrite record_body_stages.
  rewrite (after_sep_absent line N).
  destruct (strptime (strip (before_sep line)) datefmt); reflexivity.
Qed.

Lemma flat_map_nil (A B : Type) (f : A -> list B) (l : list A) :
  (forall a, In a l -> f a = []) -> flat_map f l = [].
Proof.
  induction l as [|a l IH]; intros H; [reflexivity|].
  cbn [flat_map]. rewrite (H a (or_introl eq_refl)), IH; [reflexivity|].
  intros a' I. apply H. right. exact I.
Qed.

(** ** The loop on what a session delivers *)

Lemma entry_of_text (t : datetime) (l : str) (more : list str) :
  entry_of t l more
  = stamped t l ++ [carriage_return; newline] ++ further_lines more
    ++ [newline].
Proof.
  unfold entry_of, stamped, format_record, chunk_of.
  rewrite <- !app_assoc. reflexivity.
Qed.

Lemma further_lines_scalar (more : list str) :
  Forall further_line more -> forallb scalar (further_lines more) = true.
Proof.
  induction 1 as [|l ls [O _] _ IH]; [reflexivity|].
  unfold further_lines in *. cbn [flat_map].
  rewrite !forallb_app, IH, (one_line_scalar l O). reflexivity.
Qed.

Lemma chat_line_one_line (m : chat) : well_formed m -> one_line (chat_line m).
Proof.
  intros (_ & _ & U & X & Y & C & B & _).
  apply privmsg_one_line; auto using twitch_name_one_line.
Qed.

Lemma notice_lines_further (more : list str) :
  Forall notice_line more -> Forall further_line more.
Proof. apply Forall_impl. intros l [F _]. exact F. Qed.

(** What is heard of an expected arrival is made of lines. *)
Lemma heard_lines (a : arrival) (t : datetime) (l : str) (more : list str) :
  expected a -> heard a = Some (t, l, more) ->
  further_line l /\ Forall further_line more
  /\ startswith l (lit "PING") = false.
Proof.
  destruct a as [m more'|t' l' more'| |]; cbn [expected heard];
    intros E H; try discriminate; injection H as <- <- <-.
  - destruct E as [W F]. split; [|split; [exact F|reflexivity]].
    split; [apply chat_line_one_line, W|discriminate].
  - destruct E as ([F _] & P & M). auto using notice_lines_further.
Qed.

Lemma chunk_of_scalar (l : str) (more : list str) :
  further_line l -> Forall further_line more ->
  forallb scalar (chunk_of l more) = true.
Proof.
  intros [O _] F. unfold chunk_of.
  rewrite !forallb_app, (one_line_scalar l O), (further_lines_scalar more F).
  reflexivity.
Qed.

Lemma loop_body_chunk (demojize : str -> str) (t : tick) (w : world)
      (l : str) (more : list str) :
  recv t = Ok (encode (chunk_of l more)) ->
  further_line l -> Forall further_line more ->
  startswith l (lit "PING") = false ->
  loop_body demojize t w
  = ({| sent := sent w;
        chat_log := chat_log w
                    ++ [format_record (strftime datefmt (now t))
                                      (demojize (chunk_of l more))] |}, Next).
Proof.
  intros R L F P.
  rewrite (loop_body_decoded demojize t w (encode (chunk_of l more))
                             (chunk_of l more) R)
    by (apply decode_encode, chunk_of_scalar; assumption).
  assert (S : startswith (chunk_of l more) (lit "PING") = false).
  { destruct L as [_ N]. destruct l as [|c0 [|c1 [|c2 [|c3 l']]]];
      try contradiction; cbn in P |- *; exact P. }
  rewrite S.
  destruct L as [_ N]. destruct l as [|c l']; [contradiction|]. reflexivity.
Qed.

Lemma loop_body_probe (demojize : str -> str) (w : world) :
  loop_body demojize (tick_of Probe) w
  = (sock_send (encode (lit "PONG" ++ [newline])) w, Next).
Proof.
  rewrite (loop_body_decoded demojize _ w ping_chunk
             (lit "PING :tmi.twitch.tv" ++ [carriage_return; newline]));
    reflexivity.
Qed.

Lemma loop_body_silence (demojize : str -> str) (w : world) :
  loop_body demojize (tick_of Silence) w = (w, Next).
Proof.
  rewrite (loop_body_decoded demojize _ w [] []); reflexivity.
Qed.

Lemma receive_loop_session (demojize : str -> str) (arrivals : list arrival) :
  Forall expected arrivals ->
  forall w,
    receive_loop demojize (map tick_of arrivals) w
    = ({| sent := sent w ++ pongs arrivals;
          chat_log := chat_log w ++ entries_by demojize arrivals |},
       Blocked).
Proof.
  unfold receive_loop.
  induction arrivals as [|a arrivals IH]; intros W w.
  - cbn. rewrite !app_nil_r. destruct w; reflexivity.
  - apply Forall_cons_iff in W as [Wa W].
    cbn [map while_true].
    destruct (heard a) as [[[t l] more]|] eqn:H.
    + destruct (heard_lines a t l more Wa H) as (L & F & P).
      assert (B : loop_body demojize (tick_of a) w
                  = ({| sent := sent w;
                        chat_log := chat_log w
                                    ++ [format_record
                                          (strftime datefmt t)
                                          (demojize (chunk_of l more))] |},
                     Next)).
      { destruct a as [m mo|t' l' mo| |]; cbn [heard] in H;
          try discriminate; injection H as Et El Em; subst t l more.
        - exact (loop_body_chunk demojize (tick_of (Chat m mo)) w
                                 (chat_line m) mo eq_refl L F P).
        - exact (loop_body_chunk demojize (tick_of (Notice t' l' mo)) w
                                 l' mo eq_refl L F P). }
      rewrite B, (IH W). unfold entries_by, pongs. cbn [flat_map].
      rewrite H. cbn [sent chat_log app].
      destruct a; try discriminate; cbn [app];
        rewrite <- app_assoc; reflexivity.
    + destruct a as [m more'|t' l' more'| |]; try discriminate.
      * rewrite loop_body_probe, (IH W). unfold sock_send, entries_by, pongs.
        cbn [sent chat_log flat_map heard app].
        rewrite <- app_assoc. reflexivity.
      * rewrite loop_body_silence, (IH W). reflexivity.
Qed.

Lemma entries_kept (demojize : str -> str) (arrivals : list arrival) :
  Forall (kept_by demojize) arrivals ->
  entries_by demojize arrivals = entries arrivals.
Proof.
  induction 1 as [|a arrivals D _ IH]; [reflexivity|].
  unfold entries_by, entries, kept_by in *. cbn [flat_map].
  destruct (heard a) as [[[t l] more]|]; [|exact IH].
  unfold entry_of. rewrite D, IH. reflexivity.
Qed.

Lemma logged_arrivals (demojize : str -> str) (arrivals : list arrival) :
  Forall expected arrivals ->
  Forall (kept_by demojize) arrivals ->
  logged demojize arrivals = entries arrivals.
Proof.
  intros W D. unfold logged.
  rewrite (receive_loop_session demojize arrivals W).
  apply entries_kept, D.
Qed.

(** ** The log as a file *)

Lemma single_file_read (file : string) (content : bytes) :
  single_file file content file = Some content.
Proof. unfold single_file. rewrite String.eqb_refl. reflexivity. Qed.

Lemma stamped_one_line (t : datetime) (l : str) :
  one_line l -> one_line (stamped t l).
Proof.
  intros O. unfold stamped. apply one_line_app.
  { apply (forallb_impl _ plain); [apply plain_line_char|].
    apply strftime_plain. }
  repeat (apply one_line_app; [reflexivity|]). exact O.
Qed.

Lemma entries_scalar (linesep : str) (arrivals : list arrival) :
  forallb scalar linesep = true ->
  Forall expected arrivals ->
  forallb scalar (flat_map (translate_newlines linesep) (entries arrivals))
  = true.
Proof.
  intros L. induction 1 as [|a arrivals W _ IH]; [reflexivity|].
  unfold entries in *. cbn [flat_map].
  destruct (heard a) as [[[t l] more]|] eqn:H; [|exact IH].
  destruct (heard_lines a t l more W H) as (Fl & F & _).
  cbn [app flat_map]. rewrite forallb_app, IH, andb_true_r.
  apply translate_newlines_scalar; [exact L|].
  rewrite entry_of_text, !forallb_app.
  rewrite (one_line_scalar _ (stamped_one_line t l (proj1 Fl))).
  rewrite (further_lines_scalar more F). reflexivity.
Qed.

Section Gap.
Variables linesep gap : str.
Hypothesis end_of_line :
  forall rest,
    universal_newlines
      (translate_newlines linesep [carriage_return; newline] ++ rest)
    = gap ++ universal_newlines rest.
Hypothesis terminator :
  forall rest,
    universal_newlines (translate_newlines linesep [newline] ++ rest)
    = newline :: universal_newlines rest.

Lemma read_further_lines (more : list str) (rest : str) :
  Forall further_line more ->
  universal_newlines
    (translate_newlines linesep [carriage_return; newline]
     ++ translate_newlines linesep (further_lines more)
     ++ translate_newlines linesep [newline] ++ rest)
  = flat_map (fun l => gap ++ l) more ++ gap
    ++ newline :: universal_newlines rest.
Proof.
  induction 1 as [|l ls [O _] _ IH].
  - cbn [further_lines flat_map translate_newlines app].
    change (flat_map (fun c => if c =? newline then linesep else [c]))
      with (translate_newlines linesep).
    rewrite end_of_line, terminator. reflexivity.
  - unfold further_lines in *. cbn [flat_map].
    rewrite !translate_newlines_app.
    destruct (one_line_clean l O) as [Nn Nc].
    rewrite (translate_newlines_clean linesep l Nn).
    rewrite <- ?app_assoc. rewrite end_of_line.
    rewrite universal_newlines_clean by exact Nc.
    rewrite IH. reflexivity.
Qed.

Lemma read_entry (t : datetime) (l : str) (more : list str) (rest : str) :
  further_line l -> Forall further_line more ->
  universal_newlines (translate_newlines linesep (entry_of t l more) ++ rest)
  = entry_read gap t l more ++ universal_newlines rest.
Proof.
  intros [O _] F.
  rewrite entry_of_text, !translate_newlines_app.
  destruct (one_line_clean _ (stamped_one_line t l O)) as [Nn Nc].
  rewrite translate_newlines_clean by exact Nn.
  rewrite <- !app_assoc, universal_newlines_clean by exact Nc.
  rewrite (read_further_lines more rest F).
  unfold entry_read, lines_read. rewrite <- !app_assoc. reflexivity.
Qed.

(** The text that the parser reads from the log. *)
Lemma read_log (file : string) (arrivals : list arrival) :
  forallb scalar linesep = true ->
  Forall expected arrivals ->
  read_text file (single_file file (log_file linesep (entries arrivals)))
  = Ok (text_read gap arrivals).
Proof.
  intros L W. unfold read_text, log_file.
  rewrite single_file_read, decode_encode by (apply entries_scalar; auto).
  cbn [bind]. f_equal.
  induction W as [|a arrivals W _ IH]; [reflexivity|].
  unfold entries, text_read in *. cbn [flat_map].
  destruct (heard a) as [[[t l] more]|] eqn:H; [|exact IH].
  destruct (heard_lines a t l more W H) as (Fl & F & _).
  cbn [app flat_map]. rewrite (read_entry t l more _ Fl F), IH.
  reflexivity.
Qed.
End Gap.

(** ** Runs of newlines in the text read *)

Lemma no_gap_line (l s : str) :
  ~ In newline l ->
  contains [newline; newline; newline] (l ++ s)
  = contains [newline; newline; newline] s.
Proof.
  induction l as [|c l IH]; intros N; [reflexivity|].
  cbn [app contains startswith].
  destruct (N.eqb_spec c newline) as [->|_].
  - exfalso. apply N. left. reflexivity.
  - cbn [andb orb]. apply IH. intros I. apply N. right. exact I.
Qed.

Lemma no_gap_1 (s : str) :
  startswith s [newline] = false ->
  contains [newline; newline; newline] (newline :: s)
  = contains [newline; newline; newline] s.
Proof.
  intros H. cbn [contains startswith]. rewrite N.eqb_refl. cbn [andb].
  destruct s as [|h t]; [reflexivity|].
  cbn [startswith] in H. rewrite andb_true_r in H. rewrite H. reflexivity.
Qed.

Lemma no_gap_2 (s : str) :
  startswith s [newline] = false ->
  contains [newline; newline; newline] (newline :: newline :: s)
  = contains [newline; newline; newline] s.
Proof.
  intros H. rewrite <- (no_gap_1 s H).
  cbn [contains startswith]. rewrite N.eqb_refl. cbn [andb].
  destruct s as [|h t]; [reflexivity|].
  cbn [startswith] in H. rewrite andb_true_r in H. rewrite H. reflexivity.
Qed.

Lemma line_head (l s : str) :
  l <> [] -> ~ In newline l -> startswith (l ++ s) [newline] = false.
Proof.
  intros N I. destruct l as [|h t]; [contradiction|].
  cbn [app startswith]. destruct (N.eqb_spec h newline) as [->|_].
  - exfalso. apply I. left. reflexivity.
  - reflexivity.
Qed.

Lemma stamped_not_nil (t : datetime) (l : str) : stamped t l <> [].
Proof. discriminate. Qed.

Lemma further_line_clean (l : str) :
  further_line l -> l <> [] /\ ~ In newline l.
Proof. intros [O N]. split; [exact N|apply one_line_clean, O]. Qed.

(** With two newlines for every end of line, three newlines stand at
    the end of an entry and nowhere before. *)
Lemma lines_read_no_gap (t : datetime) (l : str) (more : list str) :
  further_line l -> Forall further_line more ->
  contains [newline; newline; newline]
           (lines_read [newline; newline] t l more ++ [newline; newline])
  = false.
Proof.
  intros [O _] F. unfold lines_read.
  rewrite <- app_assoc.
  rewrite no_gap_line by (apply one_line_clean, stamped_one_line, O).
  induction F as [|l' ls Fl _ IH]; [reflexivity|].
  destruct (further_line_clean l' Fl) as [N I].
  cbn [flat_map]. rewrite <- !app_assoc. cbn [app].
  rewrite no_gap_2 by (apply line_head; assumption).
  rewrite no_gap_line by exact I. exact IH.
Qed.

Lemma startswith_longer (x y p : str) :
  (length p <= length x)%nat -> startswith (x ++ y) p = startswith x p.
Proof.
  revert x. induction p as [|c p IH]; intros x L; [reflexivity|].
  destruct x as [|h x]; [cbn [length] in L; lia|].
  cbn [app startswith]. rewrite IH by (cbn [length] in L; lia). reflexivity.
Qed.

(** The first occurrence of the separator ends the first piece. *)
Lemma split_first (sep a rest : str) :
  sep <> [] ->
  contains sep (a ++ removelast sep) = false ->
  split (a ++ sep ++ rest) sep = a :: split rest sep.
Proof.
  intros Ns C. destruct (exists_last Ns) as (init & z & E). subst sep.
  rewrite removelast_last in C.
  unfold split. induction a as [|c a IH].
  - destruct (init ++ [z]) as [|c' sep'] eqn:E; [contradiction|].
    cbn [app split_from].
    change (c' :: sep' ++ rest) with ((c' :: sep') ++ rest).
    rewrite startswith_app. cbn [length]. rewrite Nat.sub_1_r.
    cbn [Nat.pred]. rewrite split_from_skip. reflexivity.
  - cbn [app contains] in C. apply orb_false_iff in C as [S C].
    cbn [app split_from].
    assert (S' : startswith (c :: a ++ (init ++ [z]) ++ rest) (init ++ [z])
                 = false).
    { rewrite <- S.
      replace (c :: a ++ (init ++ [z]) ++ rest)
        with ((c :: a ++ init) ++ [z] ++ rest)
        by (cbn [app]; rewrite <- !app_assoc; reflexivity).
      apply startswith_longer.
      cbn [length]. rewrite !length_app. cbn [length]. lia. }
    rewrite S', (IH C). reflexivity.
Qed.

Lemma split_windows_log (arrivals : list arrival) :
  Forall expected arrivals ->
  split (text_read [newline; newline] arrivals) [newline; newline; newline]
  = records_read arrivals ++ [[]].
Proof.
  induction 1 as [|a arrivals W _ IH]; [reflexivity|].
  unfold text_read, records_read in *. cbn [flat_map].
  destruct (heard a) as [[[t l] more]|] eqn:H; [|exact IH].
  destruct (heard_lines a t l more W H) as (Fl & F & _).
  unfold entry_read at 1. rewrite <- !app_assoc.
  match goal with
  | |- split (_ ++ _ ++ _ ++ ?r) _ = _ =>
    change ([newline; newline] ++ [newline] ++ r)
      with ([newline; newline; newline] ++ r)
  end.
  rewrite split_first;
    [|discriminate|exact (lines_read_no_gap t l more Fl F)].
  rewrite IH. reflexivity.
Qed.

(** With one newline for every end of line, three newlines in a row
    stand nowhere. *)
Lemma posix_log_no_gap (arrivals : list arrival) :
  Forall expected arrivals ->
  contains [newline; newline; newline] (text_read [newline] arrivals) = false
  /\ startswith (text_read [newline] arrivals) [newline] = false.
Proof.
  induction 1 as [|a arrivals W Ws [IH H]]; [split; reflexivity|].
  unfold text_read in *. cbn [flat_map].
  destruct (heard a) as [[[t l] more]|] eqn:E; [|split; assumption].
  destruct (heard_lines a t l more W E) as (Fl & F & _).
  set (rest := flat_map _ arrivals) in *.
  split.
  - unfold entry_read, lines_read. rewrite <- !app_assoc.
    rewrite no_gap_line
      by (apply one_line_clean, stamped_one_line, (proj1 Fl)).
    clear E. induction F as [|l' ls Fl' _ IHl].
    + cbn [flat_map app]. rewrite no_gap_2 by exact H. exact IH.
    + destruct (further_line_clean l' Fl') as [N I].
      cbn [flat_map]. rewrite <- !app_assoc. cbn [app].
      rewrite no_gap_1 by (apply line_head; assumption).
      rewrite no_gap_line by exact I. exact IHl.
  - unfold entry_read, lines_read. rewrite <- !app_assoc.
    apply line_head; [apply stamped_not_nil|].
    apply one_line_clean, stamped_one_line, (proj1 Fl).
Qed.

(** ** The rows of the records read *)

Lemma rows_of_nothing : rows_of [] = [].
Proof. reflexivity. Qed.

Lemma rows_of_record (m : chat) (tail : str) :
  well_formed m ->
  forallb isspace tail = true \/ (exists t, tail = newline :: t) ->
  rows_of (record_of m ++ tail) = [row_of_chat m].
Proof.
  intros W T. unfold rows_of. rewrite (record_of_parses m tail W T).
  reflexivity.
Qed.

Lemma rows_of_chat_lines (gap : str) (m : chat) (more : list str) (rest : str) :
  well_formed m ->
  rest = [] \/ (exists t, rest = newline :: t) ->
  (exists g, gap = newline :: g) ->
  rows_of (lines_read gap (at_time m) (chat_line m) more ++ rest)
  = [row_of_chat m].
Proof.
  intros W R (g & ->). unfold lines_read.
  change (stamped (at_time m) (chat_line m)) with (record_of m).
  rewrite <- app_assoc.
  apply rows_of_record; [exact W|].
  destruct more as [|l ls].
  - destruct R as [->|R]; [left; reflexivity|right; exact R].
  - right. cbn [flat_map app]. eexists. reflexivity.
Qed.

Lemma search_needs_server_text (s : str) (found : match_object) :
  search privmsg_re s = Some found -> contains server_text s = true.
Proof.
  intros S. destruct (privmsg_search_sound _ _ S)
    as (b & u & x & y & c & body & E & _).
  rewrite E. unfold privmsg.
  replace (b ++ (lit ":" ++ u ++ lit "!" ++ x ++ lit "@" ++ y ++ server_text
                 ++ c ++ lit " :" ++ body) ++ rest found)
    with ((b ++ lit ":" ++ u ++ lit "!" ++ x ++ lit "@" ++ y)
          ++ server_text ++ (c ++ lit " :" ++ body ++ rest found))
    by (rewrite <- !app_assoc; reflexivity).
  apply contains_app.
Qed.

Lemma contains_part (p s a b : str) :
  contains p s = true -> contains p (a ++ s ++ b) = true.
Proof.
  intros C. destruct (contains_inv _ _ C) as (u & v & ->).
  replace (a ++ (u ++ p ++ v) ++ b) with ((a ++ u) ++ p ++ (v ++ b))
    by (rewrite <- !app_assoc; reflexivity).
  apply contains_app.
Qed.

(** A text without newline that stands in two lines stands in one of
    them. *)
Lemma contains_lines (p a b : str) :
  p <> [] -> ~ In newline p ->
  contains p (a ++ newline :: b) = true ->
  contains p a = true \/ contains p b = true.
Proof.
  intros Np N C. destruct (contains_inv _ _ C) as (u & v & E).
  apply app_eq_app in E as (l & [[Ea Ev]|[Eu Eb]]).
  - apply app_eq_app in Ev as (l' & [[Ep Eb]|[El Ev]]).
    + destruct l' as [|h l'].
      * left. rewrite app_nil_r in Ep. subst a l.
        rewrite <- (app_nil_r p) at 2. apply contains_app.
      * exfalso. cbn [app] in Eb. injection Eb as Eh _.
        apply N. rewrite Ep, <- Eh. apply in_or_app. right. left.
        reflexivity.
    + left. subst a l. apply contains_app.
  - destruct l as [|h l].
    + exfalso. cbn [app] in Eb. destruct p as [|h p]; [contradiction|].
      cbn [app] in Eb. injection Eb as Eh _. apply N. left.
      symmetry. exact Eh.
    + right. cbn [app] in Eb. injection Eb as _ Eb. rewrite Eb.
      apply contains_app.
Qed.

Lemma notice_lines_no_server_text (l : str) (more : list str) :
  contains server_text l = false ->
  Forall notice_line more ->
  contains server_text
           (l ++ flat_map (fun l' => [newline; newline] ++ l') more)
  = false.
Proof.
  intros C F. revert l C. induction F as [|l' ls [_ C'] _ IH]; intros l C.
  - cbn [flat_map]. rewrite app_nil_r. exact C.
  - cbn [flat_map].
    replace (l ++ ([newline; newline] ++ l')
             ++ flat_map (fun l0 => [newline; newline] ++ l0) ls)
      with (l ++ newline
              :: ([] ++ newline
                     :: (l' ++ flat_map (fun l0 => [newline; newline] ++ l0)
                                        ls)))
      by (rewrite <- app_assoc; reflexivity).
    assert (N : ~ In newline server_text)
      by (vm_compute; intuition discriminate).
    match goal with |- ?c = false => destruct c eqn:X end; [|reflexivity].
    apply contains_lines in X as [X|X]; [congruence| |discriminate|exact N].
    apply contains_lines in X as [X|X]; [discriminate| |discriminate|exact N].
    rewrite (IH l' C') in X. discriminate.
Qed.

Lemma server_text_after_space (s : str) :
  contains server_text (lit " " ++ s) = contains server_text s.
Proof. reflexivity. Qed.

Lemma rows_of_notice (t : datetime) (l : str) (more : list str) :
  notice_line l -> Forall notice_line more ->
  rows_of (lines_read [newline; newline] t l more) = [].
Proof.
  intros [_ C] F. unfold rows_of. rewrite record_body_stages.
  destruct (strptime _ datefmt) as [time_logged|e]; [|reflexivity].
  cbn [bind].
  destruct (search privmsg_re _) as [found|] eqn:S; [|reflexivity].
  exfalso. apply search_needs_server_text in S.
  destruct (strip_part (after_sep (lines_read [newline; newline] t l more)))
    as (a & b & E & _).
  apply (contains_part _ _ a b) in S. rewrite <- E in S.
  unfold lines_read, stamped in S.
  replace ((strftime datefmt t ++ lit " " ++ [em_dash] ++ lit " " ++ l)
           ++ flat_map (fun l' => [newline; newline] ++ l') more)
    with ((strftime datefmt t ++ lit " ")
          ++ em_dash
             :: (lit " " ++ l
                 ++ flat_map (fun l' => [newline; newline] ++ l') more))
    in S by (rewrite <- !app_assoc; reflexivity).
  rewrite after_sep_app in S.
  - rewrite server_text_after_space in S.
    rewrite (notice_lines_no_server_text l more C F) in S. discriminate.
  - intros I. apply in_app_or in I as [I|I].
    + revert I. apply (forallb_not_in _ plain); [apply strftime_plain|].
      reflexivity.
    + cbn in I. destruct I as [I|[]]. discriminate.
Qed.

Lemma rows_of_records_read (arrivals : list arrival) :
  Forall expected arrivals ->
  flat_map rows_of (records_read arrivals) = map row_of_chat (chats arrivals).
Proof.
  induction 1 as [|a arrivals W _ IH]; [reflexivity|].
  unfold records_read, chats in *. cbn [flat_map].
  destruct a as [m more|t l more| |]; cbn [heard flat_map app map expected] in *;
    try exact IH.
  - destruct W as [W _].
    rewrite <- (app_nil_r (lines_read _ _ _ _)).
    rewrite (rows_of_chat_lines [newline; newline] m more [] W
                                (or_introl eq_refl))
      by (eexists; reflexivity).
    cbn [app]. f_equal. exact IH.
  - destruct W as (Nl & _ & Nm).
    rewrite (rows_of_notice t l more Nl Nm). exact IH.
Qed.

(** ** Texts in which the pattern finds nothing *)

Lemma match_needs_server_text (s : str) (found : match_object) :
  match_ privmsg_re s = Some found -> contains server_text s = true.
Proof.
  intros M. apply (search_needs_server_text s found), search_first, M.
Qed.

Lemma match_needs_colon (c : char) (s : str) :
  c <> 58 -> match_ privmsg_re (c :: s) = None.
Proof.
  intros N. unfold match_, privmsg_re. cbn [seq fold_right run].
  rewrite run_text. cbn [startswith lit list_ascii_of_string map].
  destruct (N.eqb_spec c (N_of_ascii ":")) as [E|_]; [|reflexivity].
  exfalso. apply N. exact E.
Qed.

Lemma search_without_colon (p s : str) :
  ~ In 58 p -> search privmsg_re (p ++ s) = search privmsg_re s.
Proof.
  induction p as [|c p IH]; intros N; [reflexivity|].
  cbn [app search]. rewrite match_needs_colon.
  - apply IH. intros I. apply N. right. exact I.
  - intros E. apply N. left. exact E.
Qed.

Lemma quiet_text_tail (c : char) (p : str) :
  quiet_text (c :: p) -> quiet_text p.
Proof.
  intros [C E]. split.
  - cbn [contains] in C. apply orb_false_iff in C as [_ C]. exact C.
  - destruct E as [E|(p0 & E)]; [discriminate|].
    destruct p0 as [|c0 p0].
    + cbn [app] in E. injection E as _ <-. left. reflexivity.
    + cbn [app] in E. injection E as _ ->. right. exists p0. reflexivity.
Qed.

Lemma quiet_text_start (c : char) (p s : str) :
  quiet_text (c :: p) -> match_ privmsg_re ((c :: p) ++ s) = None.
Proof.
  intros [C [E|(p0 & E)]]; [discriminate|].
  rewrite E, <- app_assoc. cbn [app].
  rewrite match_line_local by reflexivity.
  destruct (match_ privmsg_re p0) as [found|] eqn:M; [|reflexivity].
  exfalso. apply match_needs_server_text in M.
  apply (contains_part _ _ [] [newline]) in M. cbn [app] in M.
  rewrite E in C. congruence.
Qed.

Lemma search_quiet (p s : str) :
  quiet_text p -> search privmsg_re (p ++ s) = search privmsg_re s.
Proof.
  induction p as [|c p IH]; intros Q; [reflexivity|].
  change (search privmsg_re ((c :: p) ++ s))
    with (match match_ privmsg_re ((c :: p) ++ s) with
          | Some found => Some found
          | None => search privmsg_re (p ++ s)
          end).
  rewrite (quiet_text_start c p s Q). apply IH, (quiet_text_tail c), Q.
Qed.

Lemma quiet_text_suffix (a b : str) : quiet_text (a ++ b) -> quiet_text b.
Proof.
  induction a as [|c a IH]; intros Q; [exact Q|].
  apply IH, (quiet_text_tail c), Q.
Qed.

Lemma server_text_no_newline : ~ In newline server_text.
Proof. vm_compute. intuition discriminate. Qed.

Lemma quiet_text_app (a b : str) :
  quiet_text a -> quiet_text b -> quiet_text (a ++ b).
Proof.
  intros [Ca Ea] [Cb Eb]. split.
  - destruct Ea as [->|(a0 & ->)]; [exact Cb|].
    rewrite <- app_assoc. cbn [app].
    match goal with |- ?c = false => destruct c eqn:X end; [|reflexivity].
    apply contains_lines in X as [X|X];
      [|congruence|discriminate|apply server_text_no_newline].
    apply (contains_part _ _ [] [newline]) in X. cbn [app] in X. congruence.
  - destruct Eb as [->|(b0 & ->)].
    + rewrite app_nil_r. exact Ea.
    + right. exists (a ++ b0). rewrite app_assoc. reflexivity.
Qed.

Lemma quiet_line (l : str) :
  contains server_text l = false -> quiet_text (l ++ [newline]).
Proof.
  intros C. split; [|right; exists l; reflexivity].
  match goal with |- ?c = false => destruct c eqn:X end; [|reflexivity].
  apply contains_lines in X as [X|X];
    [congruence|discriminate|discriminate|apply server_text_no_newline].
Qed.

Lemma quiet_lines (more : list str) :
  Forall notice_line more ->
  quiet_text (flat_map (fun l => l ++ [newline]) more).
Proof.
  induction 1 as [|l ls [_ C] _ IH]; [split; [reflexivity|left; reflexivity]|].
  cbn [flat_map]. apply quiet_text_app; [apply quiet_line, C|exact IH].
Qed.

(** The lines of an entry, each with the newline after it instead of the
    newline before it. *)
Lemma lines_shift (x : str) (more : list str) :
  x ++ flat_map (fun l => [newline] ++ l) more ++ [newline]
  = (x ++ [newline]) ++ flat_map (fun l => l ++ [newline]) more.
Proof.
  revert x. induction more as [|l ls IH]; intros x.
  - cbn [flat_map app]. rewrite app_nil_r. reflexivity.
  - cbn [flat_map]. rewrite <- !app_assoc.
    rewrite (app_assoc x [newline] (l ++ _)).
    rewrite (app_assoc (x ++ [newline]) l). rewrite (IH ((x ++ [newline]) ++ l)).
    rewrite <- !app_assoc. reflexivity.
Qed.

Lemma digit_not_58_46 (n : N) : digit n <> 58 /\ digit n <> 46.
Proof.
  pose proof (plain_digit n) as P. unfold plain in P.
  unfold digit in *. divmod n 10. split; arith.
Qed.

Lemma server_text_skip (c : char) (s : str) :
  c <> 46 -> contains server_text (c :: s) = contains server_text s.
Proof.
  intros N. cbn [contains]. unfold server_text at 1.
  cbn [startswith lit list_ascii_of_string map].
  destruct (N.eqb_spec c (N_of_ascii ".")) as [E|_]; [|reflexivity].
  exfalso. apply N. exact E.
Qed.

Lemma stamped_no_server_text (t : datetime) (l : str) :
  contains server_text l = false ->
  contains server_text (stamped t l) = false.
Proof.
  intros C. unfold stamped. cbn -[digit contains server_text].
  repeat (rewrite server_text_skip
            by (apply digit_not_58_46 || discriminate)).
  exact C.
Qed.

Lemma quiet_entry (t : datetime) (l : str) (more : list str) :
  notice_line l -> Forall notice_line more ->
  quiet_text (entry_read [newline] t l more).
Proof.
  intros [_ C] F. unfold entry_read, lines_read.
  replace ((stamped t l ++ flat_map (fun l' => [newline] ++ l') more)
           ++ [newline] ++ [newline])
    with ((stamped t l ++ flat_map (fun l' => [newline] ++ l') more
           ++ [newline]) ++ [newline])
    by (rewrite <- !app_assoc; reflexivity).
  apply quiet_text_app; [|apply (quiet_line [] eq_refl)].
  rewrite lines_shift.
  apply quiet_text_app; [|apply quiet_lines, F].
  apply quiet_line, stamped_no_server_text, C.
Qed.

Lemma quiet_arrivals (arrivals : list arrival) :
  Forall expected arrivals -> chats arrivals = [] ->
  quiet_text (text_read [newline] arrivals).
Proof.
  induction 1 as [|a arrivals W _ IH]; intros N.
  - split; [reflexivity|left; reflexivity].
  - unfold text_read, chats in *. cbn [flat_map] in *.
    destruct a as [m more|t l more| |]; cbn [heard app] in *;
      try discriminate; auto.
    destruct W as (Nl & _ & Nm).
    apply quiet_text_app; [apply quiet_entry; assumption|auto].
Qed.

(** The arrivals up to the first chunk of chat. *)
Lemma first_chat (arrivals : list arrival) :
  chats arrivals = []
  \/ exists before m more later,
       arrivals = before ++ Chat m more :: later
       /\ chats before = []
       /\ chats arrivals = m :: chats later.
Proof.
  induction arrivals as [|a arrivals IH]; [left; reflexivity|].
  destruct a as [m more|t l more| |];
    [right; exists [], m, more, arrivals; repeat split; reflexivity| | |];
    (destruct IH as [E|(b & m & mo & la & E & B & C)]; [left; exact E|]);
    right; [exists (Notice t l more :: b), m, mo, la
           |exists (Probe :: b), m, mo, la
           |exists (Silence :: b), m, mo, la];
    (split; [rewrite E; reflexivity|split; [exact B|exact C]]).
Qed.

(** ** The first chat line of a log read as one record *)

Lemma lstrip_app_keep (p x : str) (h : char) (t : str) :
  x = h :: t -> isspace h = false -> lstrip (p ++ x) = lstrip p ++ x.
Proof.
  intros -> H. induction p as [|c p IH].
  - cbn [app lstrip]. rewrite H. reflexivity.
  - cbn [app lstrip]. destruct (isspace c); [exact IH|reflexivity].
Qed.

Lemma strip_middle (p l z : str) :
  trimmed l -> l <> [] ->
  strip (p ++ l ++ z) = lstrip p ++ l ++ rstrip z.
Proof.
  intros [L R] N. destruct l as [|h t]; [contradiction|].
  unfold strip.
  rewrite (lstrip_app_keep p ((h :: t) ++ z) h (t ++ z) eq_refl
                           (lstrip_fixed h t L)).
  assert (E : rstrip ((h :: t) ++ z) = (h :: t) ++ rstrip z).
  { destruct (rstrip z) as [|c r] eqn:T.
    - rewrite rstrip_app_spaces by (apply rstrip_nil_spaces, T).
      rewrite app_nil_r. exact R.
    - rewrite rstrip_app by (rewrite T; discriminate).
      rewrite T. reflexivity. }
  rewrite rstrip_app by (rewrite E; discriminate).
  rewrite E. reflexivity.
Qed.

Lemma record_of_trimmed (m : chat) : well_formed m -> trimmed (record_of m).
Proof.
  intros (_ & _ & _ & _ & _ & _ & _ & R & _). unfold record_of.
  replace (strftime datefmt (at_time m) ++ lit " " ++ [em_dash] ++ lit " "
           ++ privmsg (user m) (host_user m) (host m) (chan m) (said m))
    with ((strftime datefmt (at_time m) ++ lit " " ++ [em_dash] ++ lit " ")
          ++ privmsg (user m) (host_user m) (host m) (chan m) (said m))
    by (rewrite <- !app_assoc; reflexivity).
  apply (trimmed_app _ _ (digit (year (at_time m) / 1000))
                     (tl (strftime datefmt (at_time m) ++ lit " "
                          ++ [em_dash] ++ lit " "))).
  - reflexivity.
  - apply digit_not_space.
  - apply privmsg_not_nil.
  - apply (privmsg_trimmed _ _ _ _ _ R).
Qed.

(** The date and the hour of a timestamp, which stand before its first
    colon. *)
Lemma record_of_colon (m : chat) :
  exists day_hour,
    ~ In 58 day_hour
    /\ record_of m
       = day_hour
         ++ privmsg (stamp_tail (at_time m) ++ user m) (host_user m)
                    (host m) (chan m) (said m).
Proof.
  exists (four_digits (year (at_time m)) ++ lit "-"
          ++ two_digits (month (at_time m)) ++ lit "-"
          ++ two_digits (day (at_time m)) ++ lit "_"
          ++ two_digits (hour (at_time m))).
  split.
  - cbn -[digit]. intros I.
    repeat (destruct I as [I|I];
            [first [exact (proj1 (digit_not_58_46 _) I) | discriminate I]|]).
    exact I.
  - unfold record_of, privmsg, stamp_tail. cbn -[digit].
    rewrite <- ?app_assoc. reflexivity.
Qed.

Lemma stamp_tail_no_newline (t : datetime) (u : str) :
  twitch_name u -> no_newline (stamp_tail t ++ u).
Proof.
  intros U. apply no_newline_app. split; [|apply twitch_name_no_newline, U].
  unfold stamp_tail, no_newline. cbn -[digit in_class].
  assert (D : forall n, in_class Dot (digit n) = true).
  { intros n. apply line_char_dot, plain_line_char, plain_digit. }
  rewrite !D. reflexivity.
Qed.

(** In a log read as one record, a chat line that is not the first line
    is matched from the first colon of its own timestamp. *)
Lemma search_behind_quiet (p z : str) (m : chat) :
  quiet_text p -> well_formed m ->
  (exists t, z = newline :: t) ->
  exists after,
    search privmsg_re (strip (p ++ record_of m ++ z))
    = Some {| groups := [stamp_tail (at_time m) ++ user m; chan m; said m];
              rest := after |}.
Proof.
  intros Q W (t & ->).
  rewrite (strip_middle p (record_of m) (newline :: t)
                        (record_of_trimmed m W))
    by discriminate.
  destruct (lstrip_split p) as (ws & E & _).
  rewrite E in Q. apply quiet_text_suffix in Q.
  rewrite (search_quiet _ _ Q).
  destruct (record_of_colon m) as (dh & N & ->).
  rewrite <- app_assoc, (search_without_colon _ _ N).
  destruct W as (_ & _ & U & X & Y & C & B & _ & Hc & Hs).
  exists (rstrip (newline :: t)).
  apply privmsg_search_first_line;
    auto using twitch_name_no_newline, one_line_no_newline,
               stamp_tail_no_newline.
  destruct (rstrip_head newline t) as [R|(s' & R)]; rewrite R; eauto.
Qed.

Lemma quiet_text_no_match (p : str) :
  quiet_text p -> search privmsg_re (strip p) = None.
Proof.
  intros [C _]. destruct (search privmsg_re (strip p)) as [found|] eqn:S;
    [|reflexivity].
  exfalso. apply search_needs_server_text in S.
  destruct (strip_part p) as (a & b & E & _).
  apply (contains_part _ _ a b) in S. rewrite <- E in S. congruence.
Qed.

Lemma quiet_after_sep (l : str) (more : list str) :
  notice_line l -> Forall notice_line more ->
  quiet_text (lit " " ++ l ++ flat_map (fun l' => [newline] ++ l') more
              ++ [newline] ++ [newline]).
Proof.
  intros [_ C] F.
  replace (lit " " ++ l ++ flat_map (fun l' => [newline] ++ l') more
           ++ [newline] ++ [newline])
    with (((lit " " ++ l) ++ flat_map (fun l' => [newline] ++ l') more
           ++ [newline]) ++ [newline])
    by (rewrite <- !app_assoc; reflexivity).
  apply quiet_text_app; [|apply (quiet_line [] eq_refl)].
  rewrite lines_shift.
  apply quiet_text_app; [|apply quiet_lines, F].
  apply quiet_line. rewrite server_text_after_space. exact C.
Qed.

(** The rows of a log read as one record whose first entry is a
    notice. *)
Lemma rows_behind_notice (t0 : datetime) (l0 : str) (more0 : list str)
      (later : list arrival) :
  valid t0 = true ->
  notice_line l0 -> Forall notice_line more0 ->
  Forall expected later ->
  rows_of (entry_read [newline] t0 l0 more0 ++ text_read [newline] later)
  = match chats later with
    | [] => []
    | m :: _ =>
      [ {| dt := t0; channel := chan m;
           username := stamp_tail (at_time m) ++ user m;
           message := said m |} ]
    end.
Proof.
  intros V Nl Nm W.
  assert (G : ~ In em_dash (strftime datefmt t0 ++ lit " ")).
  { intros I. apply in_app_or in I as [I|I].
    - revert I. apply (forallb_not_in _ plain); [apply strftime_plain|].
      reflexivity.
    - cbn in I. destruct I as [I|[]]. discriminate. }
  unfold rows_of. rewrite record_body_stages.
  unfold entry_read, lines_read, stamped.
  set (tl_ := text_read [newline] later).
  replace ((((strftime datefmt t0 ++ lit " " ++ [em_dash] ++ lit " " ++ l0)
             ++ flat_map (fun l' => [newline] ++ l') more0)
            ++ [newline] ++ [newline]) ++ tl_)
    with ((strftime datefmt t0 ++ lit " ")
          ++ em_dash
             :: ((lit " " ++ l0 ++ flat_map (fun l' => [newline] ++ l') more0
                  ++ [newline] ++ [newline]) ++ tl_))
    by (rewrite <- !app_assoc; reflexivity).
  rewrite (before_sep_app _ _ G), (after_sep_app _ _ G).
  rewrite <- (app_nil_l (strftime datefmt t0 ++ lit " ")).
  rewrite strip_trimmed by (reflexivity || apply strftime_trimmed).
  rewrite strptime_strftime by exact V. cbn [bind].
  pose proof (quiet_after_sep l0 more0 Nl Nm) as Q0.
  set (a0 := lit " " ++ l0 ++ flat_map (fun l' => [newline] ++ l') more0
             ++ [newline] ++ [newline]) in *.
  subst tl_.
  destruct (first_chat later) as [E|(b & m & mo & la & E & B & C)].
  - rewrite E.
    rewrite (quiet_text_no_match _
               (quiet_text_app _ _ Q0 (quiet_arrivals later W E))).
    reflexivity.
  - rewrite C. subst later.
    apply Forall_app in W as [Wb W].
    apply Forall_cons_iff in W as [[Wm _] _].
    unfold text_read. rewrite flat_map_app. cbn [flat_map heard].
    fold (text_read [newline] b). fold (text_read [newline] la).
    unfold entry_read, lines_read.
    change (stamped (at_time m) (chat_line m)) with (record_of m).
    replace (a0 ++ text_read [newline] b
             ++ ((record_of m ++ flat_map (fun l' => [newline] ++ l') mo)
                 ++ [newline] ++ [newline]) ++ text_read [newline] la)
      with ((a0 ++ text_read [newline] b)
            ++ record_of m
            ++ (flat_map (fun l' => [newline] ++ l') mo
                ++ [newline] ++ [newline] ++ text_read [newline] la))
      by (rewrite <- !app_assoc; reflexivity).
    destruct (search_behind_quiet
                (a0 ++ text_read [newline] b)
                (flat_map (fun l' => [newline] ++ l') mo
                 ++ [newline] ++ [newline] ++ text_read [newline] la)
                m (quiet_text_app _ _ Q0 (quiet_arrivals b Wb B)) Wm)
      as (after & S).
    { destruct mo; eexists; reflexivity. }
    rewrite S. reflexivity.
Qed.

(** ** [split()] without a separator *)

Lemma words_spaces (a s : str) :
  forallb isspace a = true -> words (a ++ s) = words s.
Proof.
  induction a as [|c a IH]; intros W; [reflexivity|].
  cbn [forallb] in W. apply andb_true_iff in W as [Wc W].
  cbn [app words]. rewrite Wc. apply IH, W.
Qed.

Lemma words_word (w : str) (b : char) (rest : str) :
  w <> [] -> forallb (fun c => negb (isspace c)) w = true ->
  isspace b = true ->
  words (w ++ b :: rest) = w :: words rest.
Proof.
  intros N W B. induction w as [|c w IH]; [contradiction|].
  cbn [forallb] in W. apply andb_true_iff in W as [Wc W].
  apply negb_true_iff in Wc.
  destruct w as [|c' w'].
  - cbn [app words]. rewrite Wc, B. reflexivity.
  - specialize (IH ltac:(discriminate) W).
    change (words ((c :: c' :: w') ++ b :: rest))
      with (if isspace c then words ((c' :: w') ++ b :: rest)
            else if isspace c'
                 then [c] :: words ((c' :: w') ++ b :: rest)
                 else match words ((c' :: w') ++ b :: rest) with
                      | w :: ws => (c :: w) :: ws
                      | [] => [[c]]
                      end).
    rewrite Wc, IH. cbn [forallb] in W.
    apply andb_true_iff in W as [Wc' _]. apply negb_true_iff in Wc'.
    rewrite Wc'. reflexivity.
Qed.

Lemma word_trimmed (w : str) :
  forallb (fun c => negb (isspace c)) w = true -> trimmed w.
Proof.
  intros W. split.
  - destruct w as [|c w]; [reflexivity|].
    cbn [forallb] in W. apply andb_true_iff in W as [Wc _].
    apply negb_true_iff in Wc. apply lstrip_keep, Wc.
  - unfold rstrip. rewrite <- (rev_involutive w) at 2. f_equal.
    rewrite <- forallb_rev in W.
    destruct (rev w) as [|c r]; [reflexivity|].
    cbn [forallb] in W. apply andb_true_iff in W as [Wc _].
    apply negb_true_iff in Wc. apply lstrip_keep, Wc.
Qed.

Lemma spaces_no_glyph (a : str) : forallb isspace a = true -> ~ In em_dash a.
Proof. intros W. apply (forallb_not_in _ isspace _ _ W). reflexivity. Qed.

(** The first token of a line is the text before the glyph, trimmed,
    when whitespace separates the two. *)
Lemma first_token_before_sep (a w b tail : str) :
  forallb isspace a = true ->
  w <> [] -> forallb (fun c => negb (isspace c)) w = true ->
  ~ In em_dash w ->
  b <> [] -> forallb isspace b = true ->
  let line := a ++ w ++ b ++ em_dash :: tail in
  first (words line) = Ok w
  /\ strip w = w
  /\ strip (before_sep line) = w.
Proof.
  intros A N W G Nb B line. subst line.
  assert (T : trimmed w) by (apply word_trimmed, W).
  split; [|split].
  - rewrite words_spaces by exact A.
    destruct b as [|h b']; [contradiction|].
    cbn [forallb] in B. apply andb_true_iff in B as [Bh _].
    cbn [app]. rewrite words_word by assumption. reflexivity.
  - rewrite <- (app_nil_r w) at 1.
    rewrite <- (app_nil_l (w ++ [])). apply strip_trimmed; auto.
  - replace (a ++ w ++ b ++ em_dash :: tail)
      with ((a ++ w ++ b) ++ em_dash :: tail)
      by (rewrite <- !app_assoc; reflexivity).
    rewrite before_sep_app.
    + apply strip_trimmed; auto.
    + intros I. apply in_app_or in I as [I|I];
        [exact (spaces_no_glyph a A I)|].
      apply in_app_or in I as [I|I]; [exact (G I)|].
      exact (spaces_no_glyph b B I).
Qed.

Lemma worked_example_stages (msg : str) :
  worked_example msg
  = bind (first (words msg)) (fun token =>
    bind (strptime (strip token) datefmt) (fun time_logged =>
      match search privmsg_re (strip (after_sep msg)) with
      | None => Raise AttributeError
      | Some found =>
        match groups found with
        | [username; channel; message] =>
          Ok {| dt := time_logged; channel := channel;
                username := username; message := message |}
        | _ => Raise ValueError
        end
      end)).
Proof.
  unfold worked_example. rewrite rejoin_split. reflexivity.
Qed.

(** ** The loop, whatever arrives *)

Lemma loop_body_footprint (demojize : str -> str) (t : tick) (w : world) :
  let w' := fst (loop_body demojize t w) in
  (sent w' = sent w /\ chat_log w' = chat_log w)
  \/ (sent w' = sent w ++ [encode (lit "PONG" ++ [newline])]
      /\ chat_log w' = chat_log w)
  \/ (sent w' = sent w
      /\ exists resp,
           bind (recv t) decode = Ok resp
           /\ chat_log w'
              = chat_log w
                ++ [format_record (strftime datefmt (now t))
                                  (demojize resp)]).
Proof.
  unfold loop_body. destruct (bind (recv t) decode) as [resp|e].
  - destruct (startswith resp (lit "PING")).
    + right. left. split; reflexivity.
    + destruct (0 <? length resp)%nat.
      * right. right. split; [reflexivity|]. exists resp. split; reflexivity.
      * left. split; reflexivity.
  - left. split; reflexivity.
Qed.

Lemma while_true_app (body : tick -> world -> world * signal)
      (ticks1 ticks2 : list tick) :
  forall w,
    while_true body (ticks1 ++ ticks2) w
    = match while_true body ticks1 w with
      | (w1, Blocked) => while_true body ticks2 w1
      | stopped => stopped
      end.
Proof.
  induction ticks1 as [|t ticks1 IH]; intros w; [reflexivity|].
  cbn [app while_true]. destruct (body t w) as [w' [| |e]]; auto.
Qed.

(** What an iteration adds does not depend on what is there. *)
Lemma loop_body_adds (demojize : str -> str) (t : tick) :
  exists sends logs signal,
    forall w,
      loop_body demojize t w
      = ({| sent := sent w ++ sends; chat_log := chat_log w ++ logs |},
         signal).
Proof.
  unfold loop_body. destruct (bind (recv t) decode) as [resp|e].
  - destruct (startswith resp (lit "PING")).
    + exists [encode (lit "PONG" ++ [newline])], [].
      eexists. intros w. unfold sock_send. rewrite app_nil_r. reflexivity.
    + destruct (0 <? length resp)%nat.
      * exists [], [format_record (strftime datefmt (now t)) (demojize resp)].
        exists Next. intros w. unfold logging_info. rewrite app_nil_r.
        reflexivity.
      * exists [], [], Next. intros [s l]. cbn. rewrite !app_nil_r.
        reflexivity.
  - exists [], [], (Throw e). intros [s l]. cbn. rewrite !app_nil_r.
    reflexivity.
Qed.

(* ================================================================== *)
(** * Further properties of the notebook's code *)
(* ================================================================== *)

(** X1. The time format of the logger and the format that the parser
    hands to [strptime] are the same text, and parsing inverts
    printing: for every date that exists, from the year 1000 on (where
    the four digits of the year do not depend on the C library), the
    timestamp that the logger prints parses back to that date. *)
Theorem X1_strptime_inverts_strftime (t : datetime) :
  valid t = true ->
  1000 <= year t ->
  strptime (strftime datefmt t) datefmt = Ok t.
Proof.
  intros V _. apply strptime_strftime, V.
Qed.

Lemma X1_witness_11_26_40 :
  strftime datefmt time_11_26_40 = lit "2018-12-10_11:26:40"
  /\ strptime (strftime datefmt time_11_26_40) datefmt = Ok time_11_26_40.
Proof.
  split; [reflexivity|].
  apply (X1_strptime_inverts_strftime time_11_26_40); [reflexivity|].
  vm_compute. discriminate.
Defined.

(** X2. What [encode('utf-8')] makes of a text without lone surrogates,
    [decode('utf-8')] reads back unchanged; so do the bytes of two such
    texts sent one after the other, read as one chunk. *)
Theorem X2_decode_inverts_encode (s s' : str) :
  forallb scalar s = true ->
  forallb scalar s' = true ->
  decode (encode s) = Ok s
  /\ decode (encode s ++ encode s') = Ok (s ++ s').
Proof.
  intros S S'. split; [apply decode_encode, S|].
  rewrite <- encode_app by assumption.
  apply decode_encode. rewrite forallb_app, S, S'. reflexivity.
Qed.

Lemma X2_witness_glyph_and_emoji :
  decode (encode [0x1F44D; em_dash; 233]) = Ok [0x1F44D; em_dash; 233]
  /\ decode (encode [0x1F44D; em_dash; 233] ++ encode (lit "PONG"))
     = Ok ([0x1F44D; em_dash; 233] ++ lit "PONG").
Proof.
  apply (X2_decode_inverts_encode [0x1F44D; em_dash; 233] (lit "PONG"));
    reflexivity.
Defined.



(** Checks on the concrete inputs of the examples. *)
Ltac concrete :=
  repeat match goal with
         | |- Forall _ (_ :: _) => apply Forall_cons
         | |- Forall _ [] => apply Forall_nil
         | |- _ /\ _ => split
         | |- expected _ => unfold expected
         | |- kept_by _ _ => unfold kept_by; cbn [heard]
         | |- well_formed _ => unfold well_formed
         | |- notice_line _ => unfold notice_line
         | |- further_line _ => unfold further_line
         | |- twitch_name _ => reflexivity
         | |- one_line _ => reflexivity
         | |- True => exact I
         | |- _ <> [] => discriminate
         | |- (_ <= _)%N => vm_compute; discriminate
         | |- _ = _ => reflexivity
         end.

(** X4. A well-formed chat message arrives in a chunk of its own. The
    entry that [logging.info(resp)] writes for the chunk, the body of
    the parser's loop reads back as that message: the time of logging,
    the channel, the user and the text, with every separator glyph that
    the text holds. So it does with the entry that the loop writes with
    [logging.info(demojize(resp))], when [demojize] finds nothing to
    rewrite in the chunk. Whitespace after the record of the message is
    ignored, and so is every further line: a record of several lines
    gives the row of its first line only. *)
Theorem X4_logged_record_parses_back
        (demojize : str -> str) (m : chat) (w : world) :
  well_formed m ->
  (exists entry,
      chat_log (logging_info (tick_of (Chat m []))
                             (chunk_of (chat_line m) []) w)
      = chat_log w ++ [entry]
      /\ record_body entry = Ok (row_of_chat m))
  /\ (demojize (chunk_of (chat_line m) []) = chunk_of (chat_line m) [] ->
      exists entry,
        chat_log (fst (loop_body demojize (tick_of (Chat m [])) w))
        = chat_log w ++ [entry]
        /\ record_body entry = Ok (row_of_chat m))
  /\ forall tail,
       forallb isspace tail = true \/ (exists t, tail = newline :: t) ->
       record_body (record_of m ++ tail) = Ok (row_of_chat m).
Proof.
  intros W.
  assert (E : record_body (entry_of (at_time m) (chat_line m) [])
              = Ok (row_of_chat m)).
  { rewrite entry_of_text.
    change (stamped (at_time m) (chat_line m)) with (record_of m).
    apply record_of_parses; [exact W|]. left. reflexivity. }
  split; [|split].
  - exists (entry_of (at_time m) (chat_line m) []).
    split; [reflexivity|exact E].
  - intros D. exists (entry_of (at_time m) (chat_line m) []).
    split; [|exact E].
    rewrite (loop_body_chunk demojize (tick_of (Chat m [])) w
                             (chat_line m) [] eq_refl).
    + rewrite D. reflexivity.
    + split; [apply chat_line_one_line, W|discriminate].
    + apply Forall_nil.
    + reflexivity.
  - intros tail T. apply record_of_parses; assumption.
Qed.

Lemma X4_witness_hello :
  (exists entry,
      chat_log (logging_info (tick_of (Chat hello_chat []))
                             (chunk_of (chat_line hello_chat) []) nothing_yet)
      = chat_log nothing_yet ++ [entry]
      /\ record_body entry = Ok (row_of_chat hello_chat))
  /\ (exists entry,
        chat_log (fst (loop_body (demojize_with thumbs_up_only)
                                 (tick_of (Chat hello_chat [])) nothing_yet))
        = chat_log nothing_yet ++ [entry]
        /\ record_body entry = Ok (row_of_chat hello_chat))
  /\ record_body (record_of hello_chat
                    ++ newline :: newline
                       :: privmsg (lit "bob_42") (lit "bob_42")
                                  (lit "bob_42") (lit "ninja") (lit "bye"))
     = Ok (row_of_chat hello_chat).
Proof.
  assert (W : well_formed hello_chat) by concrete.
  destruct (X4_logged_record_parses_back
              (demojize_with thumbs_up_only) hello_chat nothing_yet W)
    as (A & B & T).
  split; [exact A|]. split; [apply B; reflexivity|].
  apply T. right. eexists. reflexivity.
Defined.





(** X7. [recv(2048)] cuts the stream where it will. When a read ends
    inside the bytes of a character, after at least one and before the
    last of them, [decode] raises and the loop stops with
    [UnicodeDecodeError]: nothing of that chunk is logged or answered,
    and no later read is made. *)
Theorem X7_read_cut_inside_character_stops_loop
        (demojize : str -> str) (earlier later : list tick) (t : tick)
        (w : world) (before : bytes) (c : char) (k : nat) :
  snd (receive_loop demojize earlier w) = Blocked ->
  scalar c = true ->
  (0 < k < length (encode [c]))%nat ->
  recv t = Ok (before ++ firstn k (encode [c])) ->
  receive_loop demojize (earlier ++ t :: later) w
  = (fst (receive_loop demojize earlier w), Failed UnicodeDecodeError).
Proof.
  intros B S K R. unfold receive_loop in *. rewrite while_true_app.
  destruct (while_true (loop_body demojize) earlier w) as [w1 st].
  cbn [snd] in B. subst st. cbn [while_true fst]. unfold loop_body.
  rewrite R. cbn [bind]. rewrite (decode_cut before c k S K). reflexivity.
Qed.

Lemma X7_witness_half_a_thumbs_up :
  receive_loop (demojize_with thumbs_up_only)
               ([read_of ping_chunk]
                  ++ read_of (list_byte_of_string "hi" ++ [xf0; x9f])
                  :: [read_of ping_chunk])
               nothing_yet
  = ({| sent := [encode (lit "PONG" ++ [newline])]; chat_log := [] |},
     Failed UnicodeDecodeError).
Proof.
  apply (X7_read_cut_inside_character_stops_loop
           (demojize_with thumbs_up_only) [read_of ping_chunk]
           [read_of ping_chunk]
           (read_of (list_byte_of_string "hi" ++ [xf0; x9f]))
           nothing_yet (list_byte_of_string "hi") 0x1F44D 2).
  - reflexivity.
  - reflexivity.
  - vm_compute. lia.
  - reflexivity.
Defined.

(** X8. Whatever arrives, the loop only adds to what was sent and to
    the log. Everything it sends is the five bytes of "PONG" and a
    newline; every entry it logs is the record of a chunk that one of
    the reads delivered, under the time of that read; and a read leads
    to at most one of the two. *)
Theorem X8_loop_only_answers_and_appends
        (demojize : str -> str) (ticks : list tick) (w : world) :
  exists n logs,
    sent (fst (receive_loop demojize ticks w))
    = sent w ++ repeat (encode (lit "PONG" ++ [newline])) n
    /\ chat_log (fst (receive_loop demojize ticks w)) = chat_log w ++ logs
    /\ (n + length logs <= length ticks)%nat
    /\ Forall (fun entry =>
                 exists t resp,
                   In t ticks
                   /\ bind (recv t) decode = Ok resp
                   /\ entry = format_record (strftime datefmt (now t))
                                            (demojize resp)) logs.
Proof.
  unfold receive_loop. revert w.
  induction ticks as [|t ticks IH]; intros w.
  - exists 0%nat, []. cbn. rewrite !app_nil_r. auto.
  - cbn [while_true].
    pose proof (loop_body_footprint demojize t w) as F. cbv zeta in F.
    destruct (loop_body demojize t w) as [w1 sg]. cbn [fst] in F.
    assert (G : exists n logs,
               sent w1 = sent w ++ repeat (encode (lit "PONG" ++ [newline])) n
               /\ chat_log w1 = chat_log w ++ logs
               /\ (n + length logs <= 1)%nat
               /\ Forall (fun entry =>
                            exists t' resp,
                              In t' (t :: ticks)
                              /\ bind (recv t') decode = Ok resp
                              /\ entry
                                 = format_record (strftime datefmt (now t'))
                                                 (demojize resp)) logs).
    { destruct F as [[Es El]|[[Es El]|[Es (resp & R & El)]]].
      - exists 0%nat, []. cbn. rewrite !app_nil_r. auto.
      - exists 1%nat, []. cbn. rewrite !app_nil_r. auto.
      - exists 0%nat, [format_record (strftime datefmt (now t))
                                     (demojize resp)].
        cbn. rewrite app_nil_r. repeat split; auto.
        constructor; [|constructor]. exists t, resp. auto. }
    destruct G as (n1 & logs1 & Es1 & El1 & L1 & F1).
    destruct sg as [| |e].
    + destruct (IH w1) as (n2 & logs2 & Es2 & El2 & L2 & F2).
      exists (n1 + n2)%nat, (logs1 ++ logs2).
      rewrite Es2, El2, Es1, El1, repeat_app, <- !app_assoc, length_app.
      repeat split; [cbn [length]; lia|].
      apply Forall_app. split; [exact F1|].
      revert F2. apply Forall_impl. intros entry (t' & resp & I & R & E).
      exists t', resp. split; [right; exact I|auto].
    + exists n1, logs1. cbn [fst length]. repeat split; auto; lia.
    + exists n1, logs1. cbn [fst length]. repeat split; auto; lia.
Qed.

(** X9. The loop keeps no state between reads. What a batch of reads
    adds to the sends and to the log, and how the batch ends, does not
    depend on what was sent and logged before: the same sends, the same
    entries and the same end from every starting point. So a batch that
    is read after an earlier batch has left the loop waiting adds what
    it adds when it is read first. *)
Theorem X9_loop_keeps_no_state
        (demojize : str -> str) (ticks : list tick) :
  exists sends logs status,
    (forall w,
        receive_loop demojize ticks w
        = ({| sent := sent w ++ sends; chat_log := chat_log w ++ logs |},
           status))
    /\ forall earlier w,
         snd (receive_loop demojize earlier w) = Blocked ->
         receive_loop demojize (earlier ++ ticks) w
         = ({| sent := sent (fst (receive_loop demojize earlier w)) ++ sends;
               chat_log := chat_log (fst (receive_loop demojize earlier w))
                           ++ logs |},
            status).
Proof.
  assert (H : exists sends logs status,
             forall w,
               receive_loop demojize ticks w
               = ({| sent := sent w ++ sends;
                     chat_log := chat_log w ++ logs |}, status)).
  { unfold receive_loop.
    induction ticks as [|t ticks (sends & logs & status & IH)].
    - exists [], [], Blocked. intros [s l]. cbn. rewrite !app_nil_r.
      reflexivity.
    - destruct (loop_body_adds demojize t) as (s1 & l1 & sg & B).
      destruct sg as [| |e].
      + exists (s1 ++ sends), (l1 ++ logs), status. intros w.
        cbn [while_true]. rewrite B, IH. cbn [sent chat_log].
        rewrite !app_assoc. reflexivity.
      + exists s1, l1, Exited. intros w. cbn [while_true]. rewrite B.
        reflexivity.
      + exists s1, l1, (Failed e). intros w. cbn [while_true]. rewrite B.
        reflexivity. }
  destruct H as (sends & logs & status & H).
  exists sends, logs, status. split; [exact H|].
  intros earlier w B. unfold receive_loop in *. rewrite while_true_app.
  destruct (while_true (loop_body demojize) earlier w) as [w1 st].
  cbn [snd fst] in *. subst st. apply H.
Qed.

(** X10. Every row of the frame is spelled out in the text read from
    the file. The text holds a timestamp that parses to the time of the
    row, then nothing but whitespace up to a separator glyph, and later
    a colon, the username, an exclamation mark, an at sign, the server
    text, the channel, a space and a colon, and the message, which ends
    where the text ends or whitespace follows. The text read holds no
    carriage return, so no field of a row does. *)
Theorem X10_rows_are_spelled_out_in_the_file
        (file : string) (fs : filesystem) (rows : list ParsedMessage)
        (d : ParsedMessage) :
  fst (get_chat_dataframe file fs) = Ok rows ->
  In d rows ->
  exists content,
    read_text file fs = Ok content
    /\ ~ In carriage_return content
    /\ exists lead stamp gap junk x y after,
         content = lead ++ stamp ++ gap ++ em_dash :: junk
                   ++ privmsg (username d) x y (channel d) (message d)
                   ++ after
         /\ strptime stamp datefmt = Ok (dt d)
         /\ ~ In em_dash (stamp ++ gap)
         /\ forallb isspace gap = true
         /\ (after = [] \/ exists h t, after = h :: t /\ isspace h = true).
Proof.
  rewrite get_chat_dataframe_rows. cbn [fst].
  destruct (read_text file fs) as [content|e] eqn:R; [|discriminate].
  cbn [bind]. intros E I. injection E as <-.
  exists content. split; [reflexivity|].
  split; [exact (read_text_no_cr _ _ _ R)|].
  apply in_flat_map in I as (line & Il & Id).
  apply in_rows_of in Id.
  destruct (split_part _ _ _ Il) as (a & b & Ec & Hb).
  destruct (record_body_place line d Id)
    as (lead & stamp & gap & junk & x & y & after & El & T & G & Wg & A).
  exists (a ++ lead), stamp, gap, junk, x, y, (after ++ b).
  split; [|split; [exact T|split; [|split; [exact Wg|]]]].
  - rewrite Ec, El, <- !app_assoc. cbn [app].
    rewrite <- !app_assoc. reflexivity.
  - intros I'. apply G. apply in_or_app. right. exact I'.
  - destruct A as [->|(h & t & -> & Wh)].
    + destruct Hb as [->|Hb]; [left; reflexivity|].
      right. destruct b as [|h b']; [discriminate|].
      exists h, b'. split; [reflexivity|].
      cbn [startswith] in Hb. apply andb_true_iff in Hb as [Hh _].
      apply N.eqb_eq in Hh. subst h. reflexivity.
    + right. exists h, (t ++ b). auto.
Qed.

Lemma X10_witness_round_trip_log :
  let d := {| dt := time_11_26_40; channel := lit "ninja";
              username := lit "alice"; message := lit "hello world" |} in
  fst (get_chat_dataframe "chat.log" (single_file "chat.log" round_trip_log))
  = Ok [d]
  /\ exists content,
       read_text "chat.log" (single_file "chat.log" round_trip_log)
       = Ok content
       /\ ~ In carriage_return content
       /\ exists lead stamp gap junk x y after,
            content = lead ++ stamp ++ gap ++ em_dash :: junk
                      ++ privmsg (username d) x y (channel d) (message d)
                      ++ after
            /\ strptime stamp datefmt = Ok (dt d)
            /\ ~ In em_dash (stamp ++ gap)
            /\ forallb isspace gap = true
            /\ (after = [] \/ exists h t, after = h :: t /\ isspace h = true).
Proof.
  cbv zeta.
  assert (G : fst (get_chat_dataframe "chat.log"
                     (single_file "chat.log" round_trip_log))
              = Ok [ {| dt := time_11_26_40; channel := lit "ninja";
                        username := lit "alice";
                        message := lit "hello world" |} ])
    by (vm_compute; reflexivity).
  split; [exact G|].
  exact (X10_rows_are_spelled_out_in_the_file
           "chat.log" (single_file "chat.log" round_trip_log) _ _ G
           (or_introl eq_refl)).
Defined.

(** X11. The cells of the worked example take the timestamp from the
    first whitespace-delimited token of the line, the function from the
    text before the first separator glyph. On a line in which
    whitespace stands between the first token and the glyph, as in
    every line that the logger writes, the two do the same: both raise
    the same exception or both give the same row. *)
Theorem X11_worked_example_agrees_with_function
        (lead token_text gap tail : str) :
  forallb isspace lead = true ->
  token_text <> [] ->
  forallb (fun c => negb (isspace c)) token_text = true ->
  ~ In em_dash token_text ->
  gap <> [] ->
  forallb isspace gap = true ->
  worked_example (lead ++ token_text ++ gap ++ em_dash :: tail)
  = record_body (lead ++ token_text ++ gap ++ em_dash :: tail).
Proof.
  intros A N W G Ng B.
  destruct (first_token_before_sep lead token_text gap tail A N W G Ng B)
    as (F & S & S').
  rewrite worked_example_stages, record_body_stages, F, S'.
  cbn [bind]. rewrite S. reflexivity.
Qed.

Lemma X11_witness_msg :
  worked_example msg = record_body msg
  /\ worked_example msg
     = Ok {| dt := time_11_26_40; channel := lit "ninja";
             username := lit "spappygram";
             message := lit "Chat, let Ninja play solos" |}.
Proof.
  split.
  - refine (X11_worked_example_agrees_with_function
              [] (lit "2018-12-10_11:26:40") (lit " ")
              (lit " :spappygram!spappygram@spappygram.tmi.twitch.tv PRIVMSG #ninja :Chat, let Ninja play solos")
              _ _ _ _ _ _).
    + reflexivity.
    + discriminate.
    + reflexivity.
    + vm_compute. intuition discriminate.
    + discriminate.
    + reflexivity.
  - vm_compute. reflexivity.
Defined.

(** X12. A file whose text holds no separator glyph gives the empty
    frame, whatever else it holds: an empty file, a file of probes, a
    log written with another format. *)
Theorem X12_file_without_glyph_gives_empty_frame
        (file : string) (fs : filesystem) (content : bytes) (s : str) :
  fs file = Some content ->
  decode content = Ok s ->
  ~ In em_dash s ->
  fst (get_chat_dataframe file fs) = Ok [].
Proof.
  intros F D N. rewrite get_chat_dataframe_rows. cbn [fst].
  unfold read_text. rewrite F, D. cbn [bind]. f_equal.
  apply flat_map_nil. intros line I. apply rows_of_no_glyph.
  intros G. destruct (split_part _ _ _ I) as (a & b & E & _).
  assert (G' : In em_dash (universal_newlines s)).
  { rewrite E. apply in_or_app. right. apply in_or_app. left. exact G. }
  apply universal_newlines_in in G' as [G'|G']; [discriminate|].
  exact (N G').
Qed.

Lemma X12_witness_empty_file :
  fst (get_chat_dataframe "chat.log" (single_file "chat.log" [])) = Ok []
  /\ fst (get_chat_dataframe "chat.log" (single_file "chat.log" ping_chunk))
     = Ok [].
Proof.
  split.
  - apply (X12_file_without_glyph_gives_empty_frame
             "chat.log" (single_file "chat.log" []) [] []).
    + reflexivity.
    + reflexivity.
    + intros [].
  - apply (X12_file_without_glyph_gives_empty_frame
             "chat.log" (single_file "chat.log" ping_chunk) ping_chunk
             (lit "PING :tmi.twitch.tv" ++ [carriage_return; newline])).
    + reflexivity.
    + reflexivity.
    + vm_compute. intuition discriminate.
Defined.

(** X13. [decode('utf-8')] is strict: a text that it returns holds no
    surrogate and nothing above U+10FFFF, and encoding that text gives
    the received bytes again. So two different chunks never decode to
    the same text, and every text that the loop hands to the logger can
    be written to the UTF-8 log. *)
Theorem X13_decoded_text_encodes_back (chunk : bytes) (resp : str) :
  decode chunk = Ok resp ->
  forallb scalar resp = true /\ encode resp = chunk.
Proof. apply encode_decode. Qed.

Lemma X13_witness_thumbs_up :
  decode thumbs_up_chunk = Ok [0x1F44D]
  /\ forallb scalar [0x1F44D] = true
  /\ encode [0x1F44D] = thumbs_up_chunk.
Proof.
  assert (D : decode thumbs_up_chunk = Ok [0x1F44D]) by reflexivity.
  split; [exact D|].
  exact (X13_decoded_text_encodes_back thumbs_up_chunk [0x1F44D] D).
Defined.

(** X14. What the loop does in a session, whatever [demojize] rewrites.
    Every read delivers the probe of the server, nothing, a chunk of
    notices (lines without the server text of a chat message, the first
    not starting with "PING"), or a chunk that starts with a well-formed
    chat message and may hold further lines; every line of every chunk
    is on one line, of characters that UTF-8 can carry, and not empty;
    no send fails. Then the loop answers each probe that arrives as a chunk of its own
    with one "PONG" and a newline, logs one entry for each chunk of chat
    or of notices, made of the time of the read, the separator, what
    [demojize] makes of the whole chunk, and a newline, does nothing on
    an empty read, and then waits for the next read. A "PING" that
    arrives as a further line of a chunk is logged with the chunk and
    not answered. *)
Theorem X14_session_answers_and_logs
        (demojize : str -> str) (arrivals : list arrival) (w : world) :
  Forall expected arrivals ->
  receive_loop demojize (map tick_of arrivals) w
  = ({| sent := sent w ++ pongs arrivals;
        chat_log := chat_log w ++ entries_by demojize arrivals |},
     Blocked).
Proof.
  intros W. apply receive_loop_session, W.
Qed.

Lemma X14_witness_short_session :
  receive_loop (demojize_with thumbs_up_only)
               (map tick_of
                    (short_session
                       ++ [Notice time_11_26_40 [0x1F44D]
                                  [lit "PING :tmi.twitch.tv"]]))
               nothing_yet
  = ({| sent := [encode (lit "PONG" ++ [newline])];
        chat_log :=
          [ entry_of time_11_26_40
                     (lit ":tmi.twitch.tv 001 me :Welcome, GLHF!")
                     [lit ":tmi.twitch.tv 002 me :Your host is tmi.twitch.tv"];
            entry_of (at_time hello_chat) (chat_line hello_chat)
                     [lit ":carol!carol@carol.tmi.twitch.tv PRIVMSG #ninja :me too"];
            entry_of (at_time bye_chat) (chat_line bye_chat)
                     [lit "PING :tmi.twitch.tv"];
            entry_of time_11_26_40 (lit ":thumbs_up:")
                     [lit "PING :tmi.twitch.tv"] ] |},
     Blocked).
Proof.
  apply (X14_session_answers_and_logs
           (demojize_with thumbs_up_only)
           (short_session
              ++ [Notice time_11_26_40 [0x1F44D]
                         [lit "PING :tmi.twitch.tv"]])
           nothing_yet);
    unfold short_session, welcome; cbn [app]; concrete.
Defined.


